(** * Bubble search of kissnp2 (tools/kissnp2/src/Bubble.cpp)

    A shallow embedding of [BubbleFinder]: the branching gate, the
    depth-first expansion of a putative SNP bubble, its left/right
    extension, the low-complexity and strand filters, the rendering of
    the two paths and the statistics kept by [finish].

    The de Bruijn graph, the traversal primitive, the low-complexity
    score and the nucleotide tables belong to the GATB library and to
    headers that are not part of the sources; they appear here as
    records of operations, and a small k-mer-set graph at the end of the
    definitions provides concrete instances. *)

From Stdlib Require Import ZArith List Bool Ascii String Lia.
From Stdlib Require Import DecimalString.
Import ListNotations.
Local Open Scope Z_scope.

(* ================================================================== *)
(** * Data model *)
(* ================================================================== *)

(** Nucleotides as GATB enumerates them (the element type of a [Path]). *)
Inductive Nucleotide := NUCL_A | NUCL_C | NUCL_T | NUCL_G | NUCL_UNKNOWN.

Inductive Strand := STRAND_FORWARD | STRAND_REVCOMP.

Inductive Direction := DIR_OUTCOMING | DIR_INCOMING.

(** A node carries the canonical k-mer value and the strand on which it
    is read.  [checkNodesDiff] compares the [kmer] fields only. *)
Record Node := mkNode { kmer : Z; strand : Strand }.

(** [Node(~0)]: the sentinel predecessor handed to the first [expand]. *)
Definition Node_bad : Node := mkNode (Z.lnot 0) STRAND_FORWARD.

Record Edge := mkEdge { from : Node; to : Node; nt : Nucleotide }.

Definition Path := list Nucleotide.

(** A [Sequence] of the output bank: a comment and a character buffer. *)
Record Sequence := mkSequence { comment : string; data : list ascii }.

Module Traversal.
Inductive Kind := NONE | UNITIG | CONTIG.

Definition Kind_eqb (a b : Kind) : bool :=
  match a, b with
  | NONE, NONE | UNITIG, UNITIG | CONTIG, CONTIG => true
  | _, _ => false
  end.
End Traversal.

(** The work record of one putative bubble.  [begin] and [end_] are the
    two-element arrays [begin[2]] and [end[2]]. *)
Record Bubble := mkBubble {
  begin : Node * Node;
  end_ : Node * Node;
  extensionLeft : Path;
  extensionRight : Path;
  divergenceLeft : Z;
  divergenceRight : Z;
  closureLeft : Z;
  closureRight : Z;
  where_to_extend : Z;
  score : Z;
  index : Z;
  seq1 : Sequence;
  seq2 : Sequence
}.

(** The part of [Kissnp2] that the bubble finder only reads. *)
Record Kissnp2 := mkKissnp2 {
  authorised_branching : Z;
  threshold : Z;
  low : bool;
  traversalKind : Traversal.Kind
}.

(** The part of [Kissnp2] that [finish] updates: the counters and the
    output bank (the sequences inserted so far, oldest first). *)
Record Stats := mkStats {
  nb_bubbles : Z;
  nb_bubbles_high : Z;
  nb_bubbles_low : Z;
  nb_where_to_extend : list Z;
  _outputBank : list Sequence
}.

(** The capabilities of [Graph] that Bubble.cpp calls. *)
Record Graph := mkGraph {
  getKmerSize : Z;
  reverse : Node -> Node;
  mutate : Node -> Z -> Z -> list Node;
  successors : Node -> list Node;
  predecessors : Node -> list Node;
  successors2 : Node -> Node -> list (Node * Node);
  successorsEdge2 : Node -> Node -> list (Edge * Edge);
  indegree : Node -> Z;
  outdegree : Node -> Z;
  toString : Node -> string;
  getNT : Node -> Z -> Z
}.

(** The traversal object together with its branching terminator, over a
    state [T] of their own.  [traverse] receives the path it is asked
    to fill and returns the new one. *)
Record TraversalOps (T : Type) := mkTraversalOps {
  traverse : T -> Node -> Direction -> Path -> T * Path;
  getBubbles : T -> list (Z * Z);
  terminator_reset : T -> T
}.
Arguments mkTraversalOps {T}.
Arguments traverse {T}.
Arguments getBubbles {T}.
Arguments terminator_reset {T}.

(** The nucleotide tables of GATB used by the rendering. *)
Record NucleotideTables := mkNucleotideTables {
  ascii_nt : Nucleotide -> ascii;
  reverse_nt : Nucleotide -> Nucleotide;
  bin2NT : Z -> ascii
}.

(* ------------------------------------------------------------------ *)
(** ** Setters *)

Definition set_begin (v : Node * Node) (b : Bubble) : Bubble :=
  mkBubble v (end_ b) (extensionLeft b) (extensionRight b)
    (divergenceLeft b) (divergenceRight b) (closureLeft b) (closureRight b)
    (where_to_extend b) (score b) (index b) (seq1 b) (seq2 b).

Definition set_end (v : Node * Node) (b : Bubble) : Bubble :=
  mkBubble (begin b) v (extensionLeft b) (extensionRight b)
    (divergenceLeft b) (divergenceRight b) (closureLeft b) (closureRight b)
    (where_to_extend b) (score b) (index b) (seq1 b) (seq2 b).

Definition set_extensionLeft (v : Path) (b : Bubble) : Bubble :=
  mkBubble (begin b) (end_ b) v (extensionRight b)
    (divergenceLeft b) (divergenceRight b) (closureLeft b) (closureRight b)
    (where_to_extend b) (score b) (index b) (seq1 b) (seq2 b).

Definition set_extensionRight (v : Path) (b : Bubble) : Bubble :=
  mkBubble (begin b) (end_ b) (extensionLeft b) v
    (divergenceLeft b) (divergenceRight b) (closureLeft b) (closureRight b)
    (where_to_extend b) (score b) (index b) (seq1 b) (seq2 b).

Definition set_divergenceLeft (v : Z) (b : Bubble) : Bubble :=
  mkBubble (begin b) (end_ b) (extensionLeft b) (extensionRight b)
    v (divergenceRight b) (closureLeft b) (closureRight b)
    (where_to_extend b) (score b) (index b) (seq1 b) (seq2 b).

Definition set_divergenceRight (v : Z) (b : Bubble) : Bubble :=
  mkBubble (begin b) (end_ b) (extensionLeft b) (extensionRight b)
    (divergenceLeft b) v (closureLeft b) (closureRight b)
    (where_to_extend b) (score b) (index b) (seq1 b) (seq2 b).

Definition set_closureLeft (v : Z) (b : Bubble) : Bubble :=
  mkBubble (begin b) (end_ b) (extensionLeft b) (extensionRight b)
    (divergenceLeft b) (divergenceRight b) v (closureRight b)
    (where_to_extend b) (score b) (index b) (seq1 b) (seq2 b).

Definition set_closureRight (v : Z) (b : Bubble) : Bubble :=
  mkBubble (begin b) (end_ b) (extensionLeft b) (extensionRight b)
    (divergenceLeft b) (divergenceRight b) (closureLeft b) v
    (where_to_extend b) (score b) (index b) (seq1 b) (seq2 b).

Definition set_where_to_extend (v : Z) (b : Bubble) : Bubble :=
  mkBubble (begin b) (end_ b) (extensionLeft b) (extensionRight b)
    (divergenceLeft b) (divergenceRight b) (closureLeft b) (closureRight b)
    v (score b) (index b) (seq1 b) (seq2 b).

Definition set_score (v : Z) (b : Bubble) : Bubble :=
  mkBubble (begin b) (end_ b) (extensionLeft b) (extensionRight b)
    (divergenceLeft b) (divergenceRight b) (closureLeft b) (closureRight b)
    (where_to_extend b) v (index b) (seq1 b) (seq2 b).

Definition set_index (v : Z) (b : Bubble) : Bubble :=
  mkBubble (begin b) (end_ b) (extensionLeft b) (extensionRight b)
    (divergenceLeft b) (divergenceRight b) (closureLeft b) (closureRight b)
    (where_to_extend b) (score b) v (seq1 b) (seq2 b).

Definition set_seq1 (v : Sequence) (b : Bubble) : Bubble :=
  mkBubble (begin b) (end_ b) (extensionLeft b) (extensionRight b)
    (divergenceLeft b) (divergenceRight b) (closureLeft b) (closureRight b)
    (where_to_extend b) (score b) (index b) v (seq2 b).

Definition set_seq2 (v : Sequence) (b : Bubble) : Bubble :=
  mkBubble (begin b) (end_ b) (extensionLeft b) (extensionRight b)
    (divergenceLeft b) (divergenceRight b) (closureLeft b) (closureRight b)
    (where_to_extend b) (score b) (index b) (seq1 b) v.

(* ------------------------------------------------------------------ *)
(** ** Failures and results

    What C++ leaves undefined or aborts on is an explicit failure. *)

Inductive failure :=
| AssertionFailed     (* [assert] of [expand] *)
| OutOfBounds         (* element access outside a vector, array or string *)
| OutOfFuel.          (* recursion budget of the embedding exhausted *)

Definition res (A : Type) : Type := failure + A.

Definition ret {A} (a : A) : res A := inr a.
Definition fail {A} (e : failure) : res A := inl e.

Definition bind {A B} (m : res A) (k : A -> res B) : res B :=
  match m with
  | inl e => inl e
  | inr a => k a
  end.

Declare Scope res_scope.
Delimit Scope res_scope with res.
Notation "x <- m ;; k" := (bind m (fun x => k))
  (at level 100, m at next level, right associativity) : res_scope.
Notation "' p <- m ;; k" := (bind m (fun p => k))
  (at level 100, p pattern, m at next level, right associativity) : res_scope.
Local Open Scope res_scope.

(** [v[i]] on a [Graph::Vector] or a C array. *)
Definition vec_at {A} (v : list A) (i : Z) : res A :=
  if (i <? 0) || (Z.of_nat (List.length v) <=? i) then fail OutOfBounds
  else match nth_error v (Z.to_nat i) with
       | Some a => ret a
       | None => fail OutOfBounds
       end.

(** [a[i] ++] on a C array of counters, modulo [m]. *)
Definition vec_incr (m : Z) (v : list Z) (i : Z) : res (list Z) :=
  x <- vec_at v i ;;
  ret (firstn (Z.to_nat i) v ++ ((x + 1) mod m) :: skipn (S (Z.to_nat i)) v).

(** [arr[pathIdx]] on [begin[2]] and [end[2]]. *)
Definition at2 (p : Node * Node) (i : Z) : res Node :=
  if i =? 0 then ret (fst p)
  else if i =? 1 then ret (snd p)
  else fail OutOfBounds.

(** [s[i]] on a [std::string]: the position one past the end reads the
    terminating null character. *)
Definition str_at (s : string) (i : nat) : res ascii :=
  match String.get i s with
  | Some c => ret c
  | None => if Nat.eqb i (String.length s) then ret zero else fail OutOfBounds
  end.

(** [for (i=from; i<from+n; i++) *(output++) = s[i];] : the characters
    written, in order. *)
Fixpoint copy_chars (s : string) (from n : nat) : res (list ascii) :=
  match n with
  | O => ret []
  | S n' =>
      c <- str_at s from ;;
      cs <- copy_chars s (S from) n' ;;
      ret (c :: cs)
  end.

(** [tolower] of the C locale. *)
Definition tolower (c : ascii) : ascii :=
  let n := N_of_ascii c in
  if ((65 <=? n) && (n <=? 90))%N then ascii_of_N (n + 32) else c.

(** Writing [out] through a pointer that starts at the head of [buf]. *)
Definition overwrite (buf out : list ascii) : list ascii :=
  out ++ skipn (List.length out) buf.

(** [Data::resize]: grows (or cuts) the buffer to [n] characters. *)
Definition resize (buf : list ascii) (n : nat) : list ascii :=
  firstn n buf ++ repeat zero (n - List.length buf).

(** The characters of a buffer up to its first null character. *)
Fixpoint c_str (buf : list ascii) : list ascii :=
  match buf with
  | [] => []
  | c :: t => if Ascii.eqb c zero then [] else c :: c_str t
  end.

(** [operator<<] of a stream on an integer. *)
Definition string_of_Z (z : Z) : string :=
  NilZero.string_of_int (Z.to_int z).

(* ------------------------------------------------------------------ *)
(** ** Loops with [continue], [break] and [return] *)

Inductive step (S : Type) :=
| Continue (s : S)    (* falls to the next iteration, also by [continue] *)
| Break (s : S)       (* [break] *)
| Return (s : S).     (* [return] out of the enclosing function *)
Arguments Continue {S}.
Arguments Break {S}.
Arguments Return {S}.

(** How a loop was left. *)
Inductive exit_kind := Exhausted | ByBreak | ByReturn.

Fixpoint for_each {A S} (body : A -> S -> res (step S)) (l : list A) (s : S)
  : res (exit_kind * S) :=
  match l with
  | [] => ret (Exhausted, s)
  | a :: l' =>
      r <- body a s ;;
      match r with
      | Continue s' => for_each body l' s'
      | Break s' => ret (ByBreak, s')
      | Return s' => ret (ByReturn, s')
      end
  end.

(** The state a worker threads through the search. *)
Record State (T : Type) := mkState {
  bubble : Bubble;
  stats : Stats;
  trav : T
}.
Arguments mkState {T}.
Arguments bubble {T}.
Arguments stats {T}.
Arguments trav {T}.

Definition set_bubble {T} (b : Bubble) (s : State T) : State T :=
  mkState b (stats s) (trav s).

(** Ghost record of one call to [finish]: the bubble as [finish] left it
    and the two paths of nodes, positions 0 to k-1. *)
Record Emission := mkEmission {
  em_bubble : Bubble;
  em_path1 : list Node;
  em_path2 : list Node
}.

(* ================================================================== *)
(** * BubbleFinder *)
(* ================================================================== *)

Section BubbleFinder.

Variable graph : Graph.
Variable tool : Kissnp2.
Variable tables : NucleotideTables.
Variable filterLowComplexity2Paths : string -> string -> Z.
Variable T : Type.
Variable _traversal : TraversalOps T.
(** The counters of [Kissnp2] are machine integers: they count modulo
    [counter_modulus]. *)
Variable counter_modulus : Z.

(** The k-mer size, a positive machine integer; the positions of
    [expand] run from 1 to k-1.  Both are far below their bounds and are
    taken in Z. *)
Definition sizeKmer : Z := getKmerSize graph.

Definition BAD : Z := -1.

Definition two_possible_extensions_on_one_path (node : Node) : bool :=
  (2 <=? indegree graph node) || (2 <=? outdegree graph node).

Definition two_possible_extensions (node1 node2 : Node) : bool :=
  (2 <=? Z.of_nat (List.length (successorsEdge2 graph node1 node2)))
  || (2 <=? Z.of_nat (List.length
               (successorsEdge2 graph (reverse graph node1) (reverse graph node2)))).

Definition checkNodesDiff (previous current next : Node) : bool :=
  negb (kmer next =? kmer current) && negb (kmer next =? kmer previous).

Definition checkPath (b : Bubble) : bool :=
  String.ltb (toString graph (fst (begin b)))
             (toString graph (reverse graph (fst (end_ b)))).

Definition checkBranching (node1 node2 : Node) : bool :=
  if (authorised_branching tool =? 0)
     && (two_possible_extensions_on_one_path node1
         || two_possible_extensions_on_one_path node2)
  then false
  else if (authorised_branching tool =? 1) && two_possible_extensions node1 node2
  then false
  else true.

(** Sets [bubble.score]; the boolean is the returned value. *)
Definition checkLowComplexity (b : Bubble) : bool * Bubble :=
  let path1 := (substring 0 (Z.to_nat (sizeKmer - 1)) (toString graph (fst (begin b)))
                ++ toString graph (fst (end_ b)))%string in
  let path2 := (substring 0 (Z.to_nat (sizeKmer - 1)) (toString graph (snd (begin b)))
                ++ toString graph (snd (end_ b)))%string in
  let b' := set_score (filterLowComplexity2Paths path1 path2) b in
  ((score b' <? threshold tool)
   || ((score b' >=? threshold tool) && low tool), b').

Definition extend (b : Bubble) (t : T) : res (bool * Bubble * T) :=
  let closureLeft0 := BAD in
  let closureRight0 := BAD in
  '(cl, cr, b1, t1) <-
    (if negb (Traversal.Kind_eqb (traversalKind tool) Traversal.NONE) then
       let preds := predecessors graph (fst (begin b)) in
       let succs := successors graph (fst (end_ b)) in
       cl <- (if Z.of_nat (List.length preds) =? 1
              then p0 <- vec_at preds 0 ;; ret (getNT graph p0 0)
              else ret closureLeft0) ;;
       cr <- (if Z.of_nat (List.length succs) =? 1
              then s0 <- vec_at succs 0 ;; ret (getNT graph s0 (sizeKmer - 1))
              else ret closureRight0) ;;
       let t := terminator_reset _traversal t in
       s0 <- vec_at succs 0 ;;
       let '(t, extR) := traverse _traversal t s0 DIR_OUTCOMING (extensionRight b) in
       let b := set_extensionRight extR b in
       let b := set_divergenceRight
                  (match getBubbles _traversal t with
                   | [] => Z.of_nat (List.length (extensionRight b))
                   | bb :: _ => fst bb
                   end) b in
       p0 <- vec_at preds 0 ;;
       let '(t, extL) := traverse _traversal t (reverse graph p0) DIR_OUTCOMING
                           (extensionLeft b) in
       let b := set_extensionLeft extL b in
       let b := set_divergenceLeft
                  (match getBubbles _traversal t with
                   | [] => Z.of_nat (List.length (extensionLeft b))
                   | bb :: _ => fst bb
                   end) b in
       ret (cl, cr, b, t)
     else ret (closureLeft0, closureRight0, b, t)) ;;
  let b2 :=
    if (cl =? BAD) && (cr =? BAD) then set_where_to_extend 0 b1
    else if negb (cl =? BAD) && (cr =? BAD) then set_where_to_extend 1 b1
    else if (cl =? BAD) && negb (cr =? BAD) then set_where_to_extend 2 b1
    else if negb (cl =? BAD) && negb (cr =? BAD) then set_where_to_extend 3 b1
    else b1 in
  let b3 := set_closureLeft cl b2 in
  let b4 := set_closureRight cr b3 in
  ret (true, b4, t1).

(** The comment line of a rendered path. *)
Definition buildComment (b : Bubble) (type : string) : string :=
  let left_on := Z.rem (where_to_extend b) 2 =? 1 in
  let right_on := 1 <? where_to_extend b in
  let sizeL := Z.of_nat (List.length (extensionLeft b)) in
  let sizeR := Z.of_nat (List.length (extensionRight b)) in
  let c0 := ("SNP_" ++ type ++ "_path_" ++ string_of_Z (index b) ++ "|"
             ++ (if score b >=? threshold tool then "low" else "high"))%string in
  let c1 :=
    if Traversal.Kind_eqb (traversalKind tool) Traversal.UNITIG then
      (c0 ++ "|left_unitig_length_"
          ++ string_of_Z (if left_on then sizeL + 1 else 0)
          ++ "|right_unitig_length_"
          ++ string_of_Z (if right_on then sizeR + 1 else 0))%string
    else c0 in
  if Traversal.Kind_eqb (traversalKind tool) Traversal.CONTIG then
    (c1 ++ "|left_unitig_length_"
        ++ string_of_Z (if left_on then divergenceLeft b + 1 else 0)
        ++ "|right_unitig_length_"
        ++ string_of_Z (if right_on then divergenceRight b + 1 else 0)
        ++ "|left_contig_length_"
        ++ string_of_Z (if left_on then sizeL + 1 else 0)
        ++ "|right_contig_length_"
        ++ string_of_Z (if right_on then sizeR + 1 else 0))%string
  else c1.

Definition buildSequence (b : Bubble) (pathIdx : Z) (type : string) (seq : Sequence)
  : res Sequence :=
  let cmt := buildComment b type in
  let len0 := (2 * sizeKmer - 1) + Z.of_nat (List.length (extensionLeft b))
              + Z.of_nat (List.length (extensionRight b)) in
  let len1 := if negb (closureLeft b =? BAD) then len0 + 1 else len0 in
  let len := if negb (closureRight b =? BAD) then len1 + 1 else len1 in
  let buf := if Z.of_nat (List.length (data seq)) <? len + 1
             then resize (data seq) (Z.to_nat (len + 1))
             else data seq in
  let outL := map (fun x => tolower (ascii_nt tables (reverse_nt tables x)))
                  (rev (extensionLeft b)) in
  let outCL := if negb (closureLeft b =? BAD)
               then [tolower (bin2NT tables (closureLeft b))] else [] in
  nb <- at2 (begin b) pathIdx ;;
  ne <- at2 (end_ b) pathIdx ;;
  let begin_s := toString graph nb in
  let end_s := toString graph ne in
  outB <- copy_chars begin_s 0 (Z.to_nat (sizeKmer - 1)) ;;
  outE <- copy_chars end_s 0 (Z.to_nat sizeKmer) ;;
  let outCR := if negb (closureRight b =? BAD)
               then [tolower (bin2NT tables (closureRight b))] else [] in
  let outR := map (fun x => tolower (ascii_nt tables x)) (extensionRight b) in
  let out := outL ++ outCL ++ outB ++ outE ++ outCR ++ outR ++ [zero] in
  if (List.length buf <? List.length out)%nat then fail OutOfBounds
  else ret (mkSequence cmt (overwrite buf out)).

Definition incr (x : Z) : Z := (x + 1) mod counter_modulus.

Definition finish (b : Bubble) (st : Stats) : res (Bubble * Stats) :=
  let n := incr (nb_bubbles st) in
  let b := set_index n b in
  s1 <- buildSequence b 0 "higher" (seq1 b) ;;
  let b := set_seq1 s1 b in
  s2 <- buildSequence b 1 "lower" (seq2 b) ;;
  let b := set_seq2 s2 b in
  let bank := _outputBank st ++ [seq1 b] in
  let bank := bank ++ [seq2 b] in
  w <- vec_incr counter_modulus (nb_where_to_extend st) (where_to_extend b) ;;
  if score b <? threshold tool
  then ret (b, mkStats n (incr (nb_bubbles_high st)) (nb_bubbles_low st) w bank)
  else ret (b, mkStats n (nb_bubbles_high st) (incr (nb_bubbles_low st)) w bank).

(** One iteration of the loop of [expand] over the joint successors;
    [rec] is the recursive call. *)
Definition expand_body
    (rec : Z -> Node -> Node -> Node -> Node -> State T -> res (State T))
    (pos : Z) (node1 node2 previousNode1 previousNode2 : Node)
    (succ : Node * Node) (s : State T) : res (step (State T)) :=
  let nextNode1 := fst succ in
  let nextNode2 := snd succ in
  let checkPrevious :=
    checkNodesDiff previousNode1 node1 nextNode1
    && checkNodesDiff previousNode2 node2 nextNode2 in
  if negb checkPrevious then ret (Continue s)
  else if pos <? sizeKmer - 1 then
    s' <- rec (pos + 1) nextNode1 nextNode2 node1 node2 s ;;
    if (authorised_branching tool =? 0) || (authorised_branching tool =? 1)
    then ret (Break s')
    else ret (Continue s')
  else
    if negb (checkBranching nextNode1 nextNode2) then ret (Return s)
    else
      let b := set_end (nextNode1, nextNode2) (bubble s) in
      if checkPath b then
        let '(ok, b) := checkLowComplexity b in
        if ok then
          '(ext, b, t) <- extend b (trav s) ;;
          if ext then
            '(b, st) <- finish b (stats s) ;;
            ret (Continue (mkState b st t))
          else ret (Continue (mkState b (stats s) t))
        else ret (Continue (set_bubble b s))
      else ret (Continue (set_bubble b s)).

Fixpoint expand_rec (fuel : nat) (pos : Z)
    (node1 node2 previousNode1 previousNode2 : Node) (s : State T)
  : res (State T) :=
  match fuel with
  | O => fail OutOfFuel
  | S fuel' =>
      if negb (pos <=? sizeKmer - 1) then fail AssertionFailed
      else if negb (checkBranching node1 node2) then ret s
      else
        let successors := successors2 graph node1 node2 in
        r <- for_each (expand_body (expand_rec fuel') pos node1 node2
                         previousNode1 previousNode2) successors s ;;
        ret (snd r)
  end.

(** The depth of the recursion below position [pos]. *)
Definition expand_fuel (pos : Z) : nat := S (Z.to_nat (sizeKmer - 1 - pos)).

Definition expand (pos : Z) (node1 node2 previousNode1 previousNode2 : Node)
    (s : State T) : res (State T) :=
  expand_rec (expand_fuel pos) pos node1 node2 previousNode1 previousNode2 s.

Definition start (node : Node) (s : State T) : res (State T) :=
  let mutations := mutate graph node (sizeKmer - 1) 1 in
  let s := set_bubble (set_begin (node, snd (begin (bubble s))) (bubble s)) s in
  r <- for_each
         (fun m s =>
            let s := set_bubble (set_begin (fst (begin (bubble s)), m) (bubble s)) s in
            s' <- expand 1 node m Node_bad Node_bad s ;;
            ret (Continue s'))
         mutations s ;;
  ret (snd r).

(** [BubbleFinder::operator()]. *)
Definition operator_call (node : Node) (s : State T) : res (State T) :=
  s1 <- start node s ;;
  start (reverse graph node) s1.

(* ---------------------------------------------------------------- *)
(** ** The search with ghost paths

    The same search, carrying along what the code does not store: the
    nodes visited so far on each path (from position 0 to the current
    node) and the log of the calls to [finish].  Erasing
    the ghost parts gives back [expand] and [start]
    ([expand_g_erase], [start_g_erase]). *)

Definition GState : Type := State T * list Emission.

Definition expand_body_g
    (rec : Z -> Node -> Node -> Node -> Node -> list Node -> list Node
           -> GState -> res GState)
    (pos : Z) (node1 node2 previousNode1 previousNode2 : Node)
    (hist1 hist2 : list Node)
    (succ : Node * Node) (g : GState) : res (step GState) :=
  let s := fst g in
  let log := snd g in
  let nextNode1 := fst succ in
  let nextNode2 := snd succ in
  let checkPrevious :=
    checkNodesDiff previousNode1 node1 nextNode1
    && checkNodesDiff previousNode2 node2 nextNode2 in
  if negb checkPrevious then ret (Continue g)
  else if pos <? sizeKmer - 1 then
    g' <- rec (pos + 1) nextNode1 nextNode2 node1 node2
              (hist1 ++ [nextNode1]) (hist2 ++ [nextNode2]) g ;;
    if (authorised_branching tool =? 0) || (authorised_branching tool =? 1)
    then ret (Break g')
    else ret (Continue g')
  else
    if negb (checkBranching nextNode1 nextNode2) then ret (Return g)
    else
      let b := set_end (nextNode1, nextNode2) (bubble s) in
      if checkPath b then
        let '(ok, b) := checkLowComplexity b in
        if ok then
          '(ext, b, t) <- extend b (trav s) ;;
          if ext then
            '(b, st) <- finish b (stats s) ;;
            ret (Continue
                   (mkState b st t,
                    log ++ [mkEmission b (hist1 ++ [nextNode1])
                                         (hist2 ++ [nextNode2])]))
          else ret (Continue (mkState b (stats s) t, log))
        else ret (Continue (set_bubble b s, log))
      else ret (Continue (set_bubble b s, log)).

Fixpoint expand_rec_g (fuel : nat) (pos : Z)
    (node1 node2 previousNode1 previousNode2 : Node)
    (hist1 hist2 : list Node) (g : GState) : res GState :=
  match fuel with
  | O => fail OutOfFuel
  | S fuel' =>
      if negb (pos <=? sizeKmer - 1) then fail AssertionFailed
      else if negb (checkBranching node1 node2) then ret g
      else
        let successors := successors2 graph node1 node2 in
        r <- for_each (expand_body_g (expand_rec_g fuel') pos node1 node2
                         previousNode1 previousNode2 hist1 hist2) successors g ;;
        ret (snd r)
  end.

Definition expand_g (pos : Z) (node1 node2 previousNode1 previousNode2 : Node)
    (hist1 hist2 : list Node) (g : GState) : res GState :=
  expand_rec_g (expand_fuel pos) pos node1 node2 previousNode1 previousNode2
               hist1 hist2 g.

Definition start_g (node : Node) (g : GState) : res GState :=
  let mutations := mutate graph node (sizeKmer - 1) 1 in
  let s := fst g in
  let s := set_bubble (set_begin (node, snd (begin (bubble s))) (bubble s)) s in
  r <- for_each
         (fun m (g : GState) =>
            let s := fst g in
            let s := set_bubble (set_begin (fst (begin (bubble s)), m) (bubble s)) s in
            g' <- expand_g 1 node m Node_bad Node_bad [node] [m] (s, snd g) ;;
            ret (Continue g'))
         mutations (s, snd g) ;;
  ret (snd r).

End BubbleFinder.

Arguments extend graph tool {T} _traversal b t.
Arguments expand_body graph tool tables filterLowComplexity2Paths {T} _traversal
  counter_modulus rec pos node1 node2 previousNode1 previousNode2 succ s.
Arguments expand_rec graph tool tables filterLowComplexity2Paths {T} _traversal
  counter_modulus fuel pos node1 node2 previousNode1 previousNode2 s.
Arguments expand graph tool tables filterLowComplexity2Paths {T} _traversal
  counter_modulus pos node1 node2 previousNode1 previousNode2 s.
Arguments start graph tool tables filterLowComplexity2Paths {T} _traversal
  counter_modulus node s.
Arguments operator_call graph tool tables filterLowComplexity2Paths {T} _traversal
  counter_modulus node s.
Arguments expand_body_g graph tool tables filterLowComplexity2Paths {T} _traversal
  counter_modulus rec pos node1 node2 previousNode1 previousNode2 hist1 hist2 succ g.
Arguments expand_rec_g graph tool tables filterLowComplexity2Paths {T} _traversal
  counter_modulus fuel pos node1 node2 previousNode1 previousNode2 hist1 hist2 g.
Arguments expand_g graph tool tables filterLowComplexity2Paths {T} _traversal
  counter_modulus pos node1 node2 previousNode1 previousNode2 hist1 hist2 g.
Arguments start_g graph tool tables filterLowComplexity2Paths {T} _traversal
  counter_modulus node g.

(* ================================================================== *)
(** * A de Bruijn graph over a set of k-mers *)
(* ================================================================== *)

(** Modelled from the spec: the graph adapter, the traversal primitive,
    the complexity filter and the nucleotide tables are GATB code and are
    not part of the sources.  This module builds them for a finite set of
    k-mers as sections 3 and 6 of the specification describe them: a node
    holds the smaller of the encodings of a k-mer and of its reverse
    complement together with its strand, an edge appends one nucleotide,
    joint successors extend both nodes by the same nucleotide.  It serves
    to run the search on concrete graphs. *)
Module DeBruijn.

Definition code (x : Nucleotide) : Z :=
  match x with
  | NUCL_A => 0 | NUCL_C => 1 | NUCL_T => 2 | NUCL_G => 3 | NUCL_UNKNOWN => 4
  end.

Definition of_code (z : Z) : Nucleotide :=
  if z =? 0 then NUCL_A else if z =? 1 then NUCL_C
  else if z =? 2 then NUCL_T else if z =? 3 then NUCL_G else NUCL_UNKNOWN.

Definition letter (x : Nucleotide) : ascii :=
  match x with
  | NUCL_A => "A" | NUCL_C => "C" | NUCL_T => "T" | NUCL_G => "G"
  | NUCL_UNKNOWN => "N"
  end%char.

Definition of_letter (c : ascii) : Nucleotide :=
  if Ascii.eqb c "A" then NUCL_A else if Ascii.eqb c "C" then NUCL_C
  else if Ascii.eqb c "T" then NUCL_T else if Ascii.eqb c "G" then NUCL_G
  else NUCL_UNKNOWN.

Definition complement (x : Nucleotide) : Nucleotide :=
  match x with
  | NUCL_A => NUCL_T | NUCL_C => NUCL_G | NUCL_T => NUCL_A | NUCL_G => NUCL_C
  | NUCL_UNKNOWN => NUCL_UNKNOWN
  end.

Definition tables : NucleotideTables :=
  mkNucleotideTables letter complement (fun z => letter (of_code z)).

Definition revcomp (s : list Nucleotide) : list Nucleotide :=
  map complement (rev s).

Definition encode (s : list Nucleotide) : Z :=
  fold_left (fun acc x => 4 * acc + code x) s 0.

Fixpoint decode (k : nat) (v : Z) : list Nucleotide :=
  match k with
  | O => []
  | S k' => decode k' (v / 4) ++ [of_code (v mod 4)]
  end.

Definition parse (s : string) : list Nucleotide :=
  map of_letter (list_ascii_of_string s).

Definition render (s : list Nucleotide) : string :=
  string_of_list_ascii (map letter s).

(** The node of a k-mer read on the forward strand. *)
Definition node_of (s : list Nucleotide) : Node :=
  let v := encode s in
  let r := encode (revcomp s) in
  if v <=? r then mkNode v STRAND_FORWARD else mkNode r STRAND_REVCOMP.

(** The k-mer a node reads. *)
Definition seq_of (k : nat) (n : Node) : list Nucleotide :=
  match strand n with
  | STRAND_FORWARD => decode k (kmer n)
  | STRAND_REVCOMP => revcomp (decode k (kmer n))
  end.

Definition node (s : string) : Node := node_of (parse s).

Section WithKmers.

Variable k : nat.
(** The canonical values of the k-mers of the graph. *)
Variable solid : list Z.

Definition contains (s : list Nucleotide) : bool :=
  existsb (Z.eqb (kmer (node_of s))) solid.

Definition alphabet : list Nucleotide := [NUCL_A; NUCL_C; NUCL_T; NUCL_G].

Definition dbg_reverse (n : Node) : Node :=
  mkNode (kmer n)
         (match strand n with
          | STRAND_FORWARD => STRAND_REVCOMP
          | STRAND_REVCOMP => STRAND_FORWARD
          end).

Definition dbg_successors (n : Node) : list Node :=
  flat_map (fun x =>
              let s := tl (seq_of k n) ++ [x] in
              if contains s then [node_of s] else [])
           alphabet.

Definition dbg_predecessors (n : Node) : list Node :=
  flat_map (fun x =>
              let s := x :: removelast (seq_of k n) in
              if contains s then [node_of s] else [])
           alphabet.

Definition dbg_successors2 (a b : Node) : list (Node * Node) :=
  flat_map (fun x =>
              let sa := tl (seq_of k a) ++ [x] in
              let sb := tl (seq_of k b) ++ [x] in
              if contains sa && contains sb then [(node_of sa, node_of sb)] else [])
           alphabet.

Definition dbg_successorsEdge2 (a b : Node) : list (Edge * Edge) :=
  flat_map (fun x =>
              let sa := tl (seq_of k a) ++ [x] in
              let sb := tl (seq_of k b) ++ [x] in
              if contains sa && contains sb
              then [(mkEdge a (node_of sa) x, mkEdge b (node_of sb) x)] else [])
           alphabet.

Definition dbg_getNT (n : Node) (i : Z) : Z :=
  code (nth (Z.to_nat i) (seq_of k n) NUCL_UNKNOWN).

Definition dbg_mutate (n : Node) (position mode : Z) : list Node :=
  let s := seq_of k n in
  let cur := dbg_getNT n position in
  flat_map (fun x =>
              let s' := firstn (Z.to_nat position) s ++ x
                        :: skipn (S (Z.to_nat position)) s in
              if (if mode =? 1 then cur <? code x else negb (cur =? code x))
                 && contains s'
              then [node_of s'] else [])
           alphabet.

Definition dbg : Graph :=
  mkGraph (Z.of_nat k) dbg_reverse dbg_mutate dbg_successors dbg_predecessors
          dbg_successors2 dbg_successorsEdge2
          (fun n => Z.of_nat (List.length (dbg_predecessors n)))
          (fun n => Z.of_nat (List.length (dbg_successors n)))
          (fun n => render (seq_of k n))
          dbg_getNT.

End WithKmers.

(** The graph of the k-mers written in [kmers]. *)
Definition graph_of (k : nat) (kmers : list string) : Graph :=
  dbg k (map (fun s => kmer (node s)) kmers).

(** A traversal that walks nothing: it empties the path it is given and
    remembers the nodes it was started from. *)
Definition walk_nothing : TraversalOps (list Node) :=
  mkTraversalOps (fun t n _ _ => (t ++ [n], [])) (fun _ => []) (fun t => t).

(** A score that counts the positions at which a path repeats its
    previous character, over both paths. *)
Fixpoint repeats (prev : ascii) (s : string) : Z :=
  match s with
  | EmptyString => 0
  | String c s' => (if Ascii.eqb c prev then 1 else 0) + repeats c s'
  end.

Definition count_repeats (p1 p2 : string) : Z :=
  repeats zero p1 + repeats zero p2.

Definition empty_sequence : Sequence := mkSequence "" [].

Definition empty_bubble : Bubble :=
  mkBubble (Node_bad, Node_bad) (Node_bad, Node_bad) [] [] 0 0 (-1) (-1) 0 0 0
           empty_sequence empty_sequence.

Definition empty_stats : Stats := mkStats 0 0 0 [0; 0; 0; 0] [].

Definition init : State (list Node) := mkState empty_bubble empty_stats [].

End DeBruijn.

(* ================================================================== *)
(** * Statements of the specification *)
(* ================================================================== *)

Section Statements.

Variable graph : Graph.
Variable tool : Kissnp2.

(** A node branches on its own path: in-degree or out-degree at least 2. *)
Definition branches_alone (n : Node) : Prop :=
  2 <= indegree graph n \/ 2 <= outdegree graph n.

(** Sizes of the joint successor sets, forward and on the reverses. *)
Definition joint_forward (n1 n2 : Node) : Z :=
  Z.of_nat (List.length (successorsEdge2 graph n1 n2)).

Definition joint_reverse (n1 n2 : Node) : Z :=
  Z.of_nat (List.length
              (successorsEdge2 graph (reverse graph n1) (reverse graph n2))).

(** The rejection condition as the branching policy words it:
    policy 1 rejects when both sides branch jointly. *)
Definition rejects_as_specified (n1 n2 : Node) : Prop :=
  (authorised_branching tool = 0 /\ (branches_alone n1 \/ branches_alone n2))
  \/ (authorised_branching tool = 1
      /\ 2 <= joint_forward n1 n2 /\ 2 <= joint_reverse n1 n2).

(** The rejection condition of the code: policy 1 rejects when either
    side branches jointly. *)
Definition rejects_either_side (n1 n2 : Node) : Prop :=
  (authorised_branching tool = 0 /\ (branches_alone n1 \/ branches_alone n2))
  \/ (authorised_branching tool = 1
      /\ (2 <= joint_forward n1 n2 \/ 2 <= joint_reverse n1 n2)).

End Statements.

(** Lexicographic order on strings, characters compared by their codes. *)
Inductive lex_lt : string -> string -> Prop :=
| lex_lt_prefix : forall c s, lex_lt EmptyString (String c s)
| lex_lt_head : forall c1 c2 s1 s2,
    (N_of_ascii c1 < N_of_ascii c2)%N -> lex_lt (String c1 s1) (String c2 s2)
| lex_lt_tail : forall c s1 s2,
    lex_lt s1 s2 -> lex_lt (String c s1) (String c s2).

(** The two strings handed to the filter: for each path, the first k-1
    characters of its first node followed by its last node. *)
Definition filter_paths (graph : Graph) (b : Bubble) : string * string :=
  ((substring 0 (Z.to_nat (getKmerSize graph - 1)) (toString graph (fst (begin b)))
    ++ toString graph (fst (end_ b)))%string,
   (substring 0 (Z.to_nat (getKmerSize graph - 1)) (toString graph (snd (begin b)))
    ++ toString graph (snd (end_ b)))%string).

(** The tail of [extend]: the code for [where_to_extend] and the two
    closures, from the values computed for [closureLeft] and
    [closureRight]. *)
Definition extend_close (cl cr : Z) (b1 : Bubble) : Bubble :=
  set_closureRight cr
    (set_closureLeft cl
       (if (cl =? BAD) && (cr =? BAD) then set_where_to_extend 0 b1
        else if negb (cl =? BAD) && (cr =? BAD) then set_where_to_extend 1 b1
        else if (cl =? BAD) && negb (cr =? BAD) then set_where_to_extend 2 b1
        else if negb (cl =? BAD) && negb (cr =? BAD) then set_where_to_extend 3 b1
        else b1)).

(** [where_to_extend] as the packing of the two presence bits. *)
Definition presence_code (b : Bubble) : Z :=
  1 * (if closureLeft b =? BAD then 0 else 1)
  + 2 * (if closureRight b =? BAD then 0 else 1).

(** The value [extend] computes for a closure: the nucleotide of the
    neighbour at position [i] when the neighbour is unique. *)
Definition closure_of (graph : Graph) (neighbours : list Node) (i : Z) : Z :=
  match neighbours with
  | [n] => getNT graph n i
  | _ => BAD
  end.

(** The divergence recorded after a walk. *)
Definition divergence_of {T} (tv : TraversalOps T) (t : T) (ext : Path) : Z :=
  match getBubbles tv t with
  | [] => Z.of_nat (List.length ext)
  | bb :: _ => fst bb
  end.

(** The characters of a path, left to right, as section 4.5 lays them
    out, for the first node [nb] and the last node [ne] of the path. *)
Definition layout (graph : Graph) (tables : NucleotideTables) (b : Bubble)
    (nb ne : Node) : list ascii :=
  map (fun x => tolower (ascii_nt tables (reverse_nt tables x))) (rev (extensionLeft b))
  ++ (if closureLeft b =? BAD then [] else [tolower (bin2NT tables (closureLeft b))])
  ++ firstn (Z.to_nat (getKmerSize graph - 1)) (list_ascii_of_string (toString graph nb))
  ++ list_ascii_of_string (toString graph ne)
  ++ (if closureRight b =? BAD then [] else [tolower (bin2NT tables (closureRight b))])
  ++ map (fun x => tolower (ascii_nt tables x)) (extensionRight b).

(** The length L of section 4.5. *)
Definition rendered_length (graph : Graph) (b : Bubble) : Z :=
  (2 * getKmerSize graph - 1)
  + Z.of_nat (List.length (extensionLeft b))
  + Z.of_nat (List.length (extensionRight b))
  + (if closureLeft b =? BAD then 0 else 1)
  + (if closureRight b =? BAD then 0 else 1).

(** The node of path [i] in a two-element array. *)
Definition path_node (p : Node * Node) (i : Z) : Node :=
  if i =? 0 then fst p else snd p.

Definition is_upper (c : ascii) : bool :=
  ((65 <=? N_of_ascii c) && (N_of_ascii c <=? 90))%N.

Definition sumZ (l : list Z) : Z := fold_right Z.add 0 l.

(** A run of [finish] over a list of bubbles, in order. *)
Fixpoint finish_all (graph : Graph) (tool : Kissnp2) (tables : NucleotideTables)
    (m : Z) (bs : list Bubble) (st : Stats) : res Stats :=
  match bs with
  | [] => ret st
  | b :: bs' =>
      r <- finish graph tool tables m b st ;;
      finish_all graph tool tables m bs' (snd r)
  end.

Definition counters_zero (st : Stats) : Prop :=
  nb_bubbles st = 0 /\ nb_bubbles_high st = 0 /\ nb_bubbles_low st = 0
  /\ nb_where_to_extend st = [0; 0; 0; 0].

(** What one call to [finish] does to the counters and to the bank. *)
Definition finish_step (tool : Kissnp2) (m : Z) (b b' : Bubble) (st st' : Stats)
  : Prop :=
  nb_bubbles st' = (nb_bubbles st + 1) mod m
  /\ index b' = nb_bubbles st'
  /\ ((score b < threshold tool
       /\ nb_bubbles_high st' = (nb_bubbles_high st + 1) mod m
       /\ nb_bubbles_low st' = nb_bubbles_low st)
      \/ (threshold tool <= score b
          /\ nb_bubbles_high st' = nb_bubbles_high st
          /\ nb_bubbles_low st' = (nb_bubbles_low st + 1) mod m))
  /\ (exists l1 x l2,
         nb_where_to_extend st = l1 ++ x :: l2
         /\ Z.of_nat (List.length l1) = where_to_extend b
         /\ nb_where_to_extend st' = l1 ++ ((x + 1) mod m) :: l2)
  /\ _outputBank st' = _outputBank st ++ [seq1 b'; seq2 b'].

(** The counters agree, exactly and with [n] calls made. *)
Definition counters_agree (n : Z) (st : Stats) : Prop :=
  nb_bubbles st = n
  /\ 0 <= nb_bubbles_high st /\ 0 <= nb_bubbles_low st
  /\ nb_bubbles_high st + nb_bubbles_low st = n
  /\ Forall (fun x => 0 <= x) (nb_where_to_extend st)
  /\ sumZ (nb_where_to_extend st) = n
  /\ List.length (nb_where_to_extend st) = 4%nat.

(** The counters agree modulo [m]. *)
Definition counters_agree_mod (m : Z) (st : Stats) : Prop :=
  nb_bubbles st = (nb_bubbles_high st + nb_bubbles_low st) mod m
  /\ nb_bubbles st = sumZ (nb_where_to_extend st) mod m.

Definition step_state {S} (r : step S) : S :=
  match r with Continue s | Break s | Return s => s end.

Definition res_map {A B} (f : A -> B) (r : res A) : res B :=
  match r with
  | inl e => inl e
  | inr a => inr (f a)
  end.

Definition step_map {S S'} (f : S -> S') (r : step S) : step S' :=
  match r with
  | Continue s => Continue (f s)
  | Break s => Break (f s)
  | Return s => Return (f s)
  end.

(** The node-difference guard of [expand] on a pair of joint successors. *)
Definition survives (previousNode1 previousNode2 node1 node2 : Node)
    (succ : Node * Node) : bool :=
  checkNodesDiff previousNode1 node1 (fst succ)
  && checkNodesDiff previousNode2 node2 (snd succ).

(** Each node of a path differs, as a k-mer, from the node before it. *)
Definition differs_from_previous (path : list Node) : Prop :=
  forall i a b,
    nth_error path i = Some a -> nth_error path (S i) = Some b ->
    kmer b <> kmer a.

(** Each node of a path differs from the node two positions before it. *)
Definition differs_from_second_previous (path : list Node) : Prop :=
  forall i a c,
    nth_error path i = Some a -> nth_error path (S (S i)) = Some c ->
    kmer c <> kmer a.

(** A path of [k] nodes from [first] to [last] that passed the
    node-difference guard at every step. *)
Definition path_ok (k : Z) (path : list Node) (first last : Node) : Prop :=
  Z.of_nat (List.length path) = k
  /\ hd_error path = Some first
  /\ nth_error path (pred (List.length path)) = Some last
  /\ differs_from_previous path
  /\ differs_from_second_previous path.

Definition emission_ok (graph : Graph) (e : Emission) : Prop :=
  checkPath graph (em_bubble e) = true
  /\ path_ok (getKmerSize graph) (em_path1 e)
             (fst (begin (em_bubble e))) (fst (end_ (em_bubble e)))
  /\ path_ok (getKmerSize graph) (em_path2 e)
             (snd (begin (em_bubble e))) (snd (end_ (em_bubble e))).

(** The two sequences an emission inserts into the bank. *)
Definition emission_seqs (e : Emission) : list Sequence :=
  [seq1 (em_bubble e); seq2 (em_bubble e)].

(** What the ghost search knows of the paths when it stands at position
    [pos - 1] on node [n], having come from [p]. *)
Definition hist_ok (pos : Z) (n p first : Node) (h : list Node) : Prop :=
  Z.of_nat (List.length h) = pos
  /\ hd_error h = Some first
  /\ nth_error h (pred (List.length h)) = Some n
  /\ ((2 <= List.length h)%nat -> nth_error h (List.length h - 2) = Some p)
  /\ differs_from_previous h
  /\ differs_from_second_previous h.

(** [g'] continues [g]: same first nodes, and a log and a bank that grew
    by the same well-formed emissions. *)
Definition extends (graph : Graph) {T} (g g' : State T * list Emission) : Prop :=
  begin (bubble (fst g')) = begin (bubble (fst g))
  /\ exists new,
      snd g' = snd g ++ new
      /\ _outputBank (stats (fst g'))
         = _outputBank (stats (fst g)) ++ flat_map emission_seqs new
      /\ Forall (emission_ok graph) new.

(** What the loop of [start_g] keeps true of its state, relative to the
    state [g] it began with. *)
Definition start_inv (graph : Graph) {T} (node : Node)
    (g x : State T * list Emission) : Prop :=
  fst (begin (bubble (fst x))) = node
  /\ exists new,
      snd x = snd g ++ new
      /\ _outputBank (stats (fst x))
         = _outputBank (stats (fst g)) ++ flat_map emission_seqs new
      /\ Forall (emission_ok graph) new.

(** The node of a path at position [p]. *)
Definition node_at (path : list Node) (p : Z) : Node :=
  nth (Z.to_nat p) path Node_bad.

(** The invariant as the data model words it: at each position from 1 to
    k-1 the two paths hold distinct nodes and each node differs from its
    predecessor on its own path. *)
Definition paths_as_specified (k : Z) (e : Emission) : Prop :=
  forall p, 1 <= p <= k - 1 ->
    kmer (node_at (em_path1 e) p) <> kmer (node_at (em_path2 e) p)
    /\ kmer (node_at (em_path1 e) p) <> kmer (node_at (em_path1 e) (p - 1))
    /\ kmer (node_at (em_path2 e) p) <> kmer (node_at (em_path2 e) (p - 1)).

(** What the guards of [expand] ensure: on each path, the node at each
    position from 1 to k-1 differs from its predecessor, and from the
    node two positions back when there is one. *)
Definition paths_differ_from_predecessors (k : Z) (e : Emission) : Prop :=
  Z.of_nat (List.length (em_path1 e)) = k
  /\ Z.of_nat (List.length (em_path2 e)) = k
  /\ node_at (em_path1 e) 0 = fst (begin (em_bubble e))
  /\ node_at (em_path2 e) 0 = snd (begin (em_bubble e))
  /\ node_at (em_path1 e) (k - 1) = fst (end_ (em_bubble e))
  /\ node_at (em_path2 e) (k - 1) = snd (end_ (em_bubble e))
  /\ forall p, 1 <= p <= k - 1 ->
       kmer (node_at (em_path1 e) p) <> kmer (node_at (em_path1 e) (p - 1))
       /\ kmer (node_at (em_path2 e) p) <> kmer (node_at (em_path2 e) (p - 1))
       /\ (2 <= p ->
           kmer (node_at (em_path1 e) p) <> kmer (node_at (em_path1 e) (p - 2))
           /\ kmer (node_at (em_path2 e) p) <> kmer (node_at (em_path2 e) (p - 2))).

(* ================================================================== *)
(** * Concrete graphs and runs *)
(* ================================================================== *)

Section Instances.

Local Open Scope string_scope.

(** An isolated SNP for k = 5: the paths ACCGATTGC and ACCGCTTGC. *)
Definition snp_kmers : list string :=
  ["ACCGA"; "CCGAT"; "CGATT"; "GATTG"; "ATTGC";
   "ACCGC"; "CCGCT"; "CGCTT"; "GCTTG"; "CTTGC"].

Definition g_snp : Graph := DeBruijn.graph_of 5 snp_kmers.

(** The same SNP followed by a fork: two k-mers continue its last nodes. *)
Definition g_fork : Graph :=
  DeBruijn.graph_of 5 (snp_kmers ++ ["TTGCA"; "TTGCT"])%list.

(** The same SNP with one k-mer before it and one after it. *)
Definition g_flanked : Graph :=
  DeBruijn.graph_of 5 (snp_kmers ++ ["TTGCA"; "TACCG"])%list.

(** A SNP for k = 3 whose two paths, GAATC and GATTC, are reverse
    complements of each other. *)
Definition g_palin : Graph := DeBruijn.graph_of 3 ["GAA"; "GAT"; "AAT"; "ATC"; "TTC"].

Definition options (ab : Z) (kind : Traversal.Kind) : Kissnp2 :=
  mkKissnp2 ab 100 true kind.

Definition word64 : Z := 2 ^ 64.

(** The search from one node, on a fresh worker. *)
Definition search_g (g : Graph) (t : Kissnp2) (n : string)
  : res (GState (list Node)) :=
  start_g g t DeBruijn.tables DeBruijn.count_repeats DeBruijn.walk_nothing word64
          (DeBruijn.node n) (DeBruijn.init, []).

Definition search (g : Graph) (t : Kissnp2) (n : string)
  : res (State (list Node)) :=
  start g t DeBruijn.tables DeBruijn.count_repeats DeBruijn.walk_nothing word64
        (DeBruijn.node n) DeBruijn.init.

Definition result_of (r : res (GState (list Node))) : GState (list Node) :=
  match r with
  | inr g => g
  | inl _ => (DeBruijn.init, [])
  end.

Definition snp_result : GState (list Node) :=
  Eval vm_compute in result_of (search_g g_snp (options 0 Traversal.NONE) "ACCGA").

Definition palin_result : GState (list Node) :=
  Eval vm_compute in result_of (search_g g_palin (options 1 Traversal.NONE) "GAA").

(** The bubble of [g_flanked] as [extend] leaves it, with extensions
    added by hand: two nucleotides on the left, one on the right. *)
Definition flanked_bubble : Bubble :=
  mkBubble (DeBruijn.node "ACCGA", DeBruijn.node "ACCGC")
           (DeBruijn.node "ATTGC", DeBruijn.node "CTTGC")
           [NUCL_A; NUCL_G] [NUCL_C] 2 1 2 0 3 3 1
           DeBruijn.empty_sequence DeBruijn.empty_sequence.

(** The rendered characters of a sequence, as a string. *)
Definition rendered (s : Sequence) : string :=
  string_of_list_ascii (c_str (data s)).

(** The emitted sequences of a run, as strings. *)
Definition emitted (r : res (State (list Node))) : list string :=
  match r with
  | inr s => map rendered (_outputBank (stats s))
  | inl _ => []
  end.

(** The counters after two calls to [finish] on the bubble of [g_snp]. *)
Definition two_finishes : Stats :=
  Eval vm_compute in
    match finish_all g_snp (options 0 Traversal.NONE) DeBruijn.tables word64
                     [em_bubble (hd (mkEmission DeBruijn.empty_bubble [] [])
                                    (snd snp_result));
                      flanked_bubble]
                     DeBruijn.empty_stats
    with
    | inr st => st
    | inl _ => DeBruijn.empty_stats
    end.

(** The SNP of [g_snp] with a second pair of joint successors after
    position 1. *)
Definition g_wide : Graph :=
  DeBruijn.graph_of 5 (snp_kmers ++ ["CGATA"; "CGCTA"])%list.



(** The state after [operator()] on the first node of [g_snp]. *)
Definition snp_visited : State (list Node) :=
  Eval vm_compute in
    match operator_call g_snp (options 0 Traversal.NONE) DeBruijn.tables
                        DeBruijn.count_repeats DeBruijn.walk_nothing word64
                        (DeBruijn.node "ACCGA") DeBruijn.init
    with
    | inr s => s
    | inl _ => DeBruijn.init
    end.

(** Statistics whose array of counters has two entries only. *)
Definition short_stats : Stats := mkStats 0 0 0 [0; 0] [].

End Instances.

(* ================================================================== *)
(** * Further statements about the search *)
(* ================================================================== *)

(** A loop that calls [f] on every element, in order, and stops at the
    first failure. *)
Fixpoint visit_all {A S} (f : A -> S -> res S) (l : list A) (s : S) : res S :=
  match l with
  | [] => ret s
  | a :: l' =>
      s' <- f a s ;;
      visit_all f l' s'
  end.

(** The branching gate passes on a pair of nodes. *)
Definition gate_passes (graph : Graph) (tool : Kissnp2) (x : Node * Node) : Prop :=
  checkBranching graph tool (fst x) (snd x) = true.

(** Each pair of a walk is a pair of joint successors of the pair
    before it. *)
Definition linked (graph : Graph) (w : list (Node * Node)) : Prop :=
  forall i x y,
    nth_error w i = Some x -> nth_error w (S i) = Some y ->
    In y (successors2 graph (fst x) (snd x)).

(** The ghost paths on entering [expand] at the pair [cur]: a walk from
    [first] whose pairs before [cur] all passed the gate. *)
Definition trail (graph : Graph) (tool : Kissnp2) (first cur : Node * Node)
    (h1 h2 : list Node) : Prop :=
  exists w,
    h1 = map fst (w ++ [cur]) /\ h2 = map snd (w ++ [cur])
    /\ Forall (gate_passes graph tool) w
    /\ linked graph (w ++ [cur])
    /\ hd_error (w ++ [cur]) = Some first.

(** [issued m n new n']: the emissions of [new] received, in order, the
    indices that follow [n] (modulo [m]), the last one being [n']. *)
Inductive issued (m : Z) : Z -> list Emission -> Z -> Prop :=
| issued_nil : forall n, issued m n [] n
| issued_cons : forall n e new n',
    index (em_bubble e) = (n + 1) mod m ->
    issued m ((n + 1) mod m) new n' ->
    issued m n (e :: new) n'.

(** What every emitted bubble went through: its two paths are a walk of
    joint successors from [begin] to [end] on which the branching gate
    passed at every pair, its score is the one of the filter on its own
    paths and passed the low-complexity check, and [where_to_extend]
    packs the presence of its closures, and its two sequences are the
    renderings of its two paths by [buildSequence]. *)
Definition emission_sound (graph : Graph) (tool : Kissnp2)
    (tables : NucleotideTables) (filter : string -> string -> Z)
    (e : Emission) : Prop :=
  (exists w,
      em_path1 e = map fst w /\ em_path2 e = map snd w
      /\ Forall (gate_passes graph tool) w
      /\ linked graph w
      /\ hd_error w = Some (begin (em_bubble e))
      /\ exists w0, w = w0 ++ [end_ (em_bubble e)])
  /\ score (em_bubble e)
     = filter (fst (filter_paths graph (em_bubble e)))
              (snd (filter_paths graph (em_bubble e)))
  /\ (score (em_bubble e) < threshold tool \/ low tool = true)
  /\ where_to_extend (em_bubble e) = presence_code (em_bubble e)
  /\ (exists old1 old2,
         buildSequence graph tool tables (em_bubble e) 0 "higher" old1
         = ret (seq1 (em_bubble e))
         /\ buildSequence graph tool tables (em_bubble e) 1 "lower" old2
            = ret (seq2 (em_bubble e))).

(** Without traversal, an emitted bubble has the extensions of the
    bubble of state [s], no closure and code 0. *)
Definition emission_bare (tool : Kissnp2) {T} (s : State T) (e : Emission) : Prop :=
  traversalKind tool = Traversal.NONE ->
  extensionLeft (em_bubble e) = extensionLeft (bubble s)
  /\ extensionRight (em_bubble e) = extensionRight (bubble s)
  /\ closureLeft (em_bubble e) = BAD
  /\ closureRight (em_bubble e) = BAD
  /\ where_to_extend (em_bubble e) = 0.

(** An emitted bubble has the first nodes of the bubble of state [s]
    and, without traversal, is bare. *)
Definition emission_plain (tool : Kissnp2) {T} (s : State T) (e : Emission) : Prop :=
  begin (em_bubble e) = begin (bubble s) /\ emission_bare tool s e.

(** [g'] is a later state of the ghost search than [g]. *)
Definition grows (graph : Graph) (tool : Kissnp2) (tables : NucleotideTables)
    (filter : string -> string -> Z) (m : Z) {T}
    (g g' : State T * list Emission) : Prop :=
  begin (bubble (fst g')) = begin (bubble (fst g))
  /\ (traversalKind tool = Traversal.NONE ->
      extensionLeft (bubble (fst g')) = extensionLeft (bubble (fst g))
      /\ extensionRight (bubble (fst g')) = extensionRight (bubble (fst g))
      /\ trav (fst g') = trav (fst g))
  /\ (counters_agree_mod m (stats (fst g)) -> counters_agree_mod m (stats (fst g')))
  /\ List.length (nb_where_to_extend (stats (fst g')))
     = List.length (nb_where_to_extend (stats (fst g)))
  /\ exists new,
      snd g' = snd g ++ new
      /\ issued m (nb_bubbles (stats (fst g))) new (nb_bubbles (stats (fst g')))
      /\ Forall (emission_sound graph tool tables filter) new
      /\ Forall (emission_plain tool (fst g)) new.

(** What the loop of [start_g] keeps true, relative to the state [g] it
    was entered with: as [grows], the second first node apart. *)
Definition start_grows (graph : Graph) (tool : Kissnp2)
    (tables : NucleotideTables) (filter : string -> string -> Z) (m : Z) {T}
    (node : Node)
    (g x : State T * list Emission) : Prop :=
  fst (begin (bubble (fst x))) = node
  /\ (traversalKind tool = Traversal.NONE ->
      extensionLeft (bubble (fst x)) = extensionLeft (bubble (fst g))
      /\ extensionRight (bubble (fst x)) = extensionRight (bubble (fst g))
      /\ trav (fst x) = trav (fst g))
  /\ (counters_agree_mod m (stats (fst g)) -> counters_agree_mod m (stats (fst x)))
  /\ List.length (nb_where_to_extend (stats (fst x)))
     = List.length (nb_where_to_extend (stats (fst g)))
  /\ exists new,
      snd x = snd g ++ new
      /\ issued m (nb_bubbles (stats (fst g))) new (nb_bubbles (stats (fst x)))
      /\ Forall (emission_sound graph tool tables filter) new
      /\ Forall (emission_bare tool (fst g)) new
      /\ Forall (fun e => fst (begin (em_bubble e)) = node
                          /\ In (snd (begin (em_bubble e)))
                                (mutate graph node (getKmerSize graph - 1) 1)) new.

(** The two paths of an emitted bubble form a walk in the graph from
    the seed [node] and one of its mutations to the last nodes: each pair
    is a pair of joint successors of the pair before it, and the
    branching gate passes on every pair. *)
Definition emission_walk (graph : Graph) (tool : Kissnp2) (node : Node)
    (e : Emission) : Prop :=
  fst (begin (em_bubble e)) = node
  /\ In (snd (begin (em_bubble e))) (mutate graph node (getKmerSize graph - 1) 1)
  /\ exists w,
      em_path1 e = map fst w /\ em_path2 e = map snd w
      /\ hd_error w = Some (begin (em_bubble e))
      /\ (exists w0, w = w0 ++ [end_ (em_bubble e)])
      /\ linked graph w
      /\ Forall (gate_passes graph tool) w.

(** No node of a walk branches on its own path. *)
Definition never_branches (graph : Graph) (w : list (Node * Node)) : Prop :=
  Forall (fun x => ~ branches_alone graph (fst x) /\ ~ branches_alone graph (snd x)) w.


(** The array of counters has its four entries. *)
Definition four_counters {T} (s : State T) : Prop :=
  List.length (nb_where_to_extend (stats s)) = 4%nat.

(* ================================================================== *)
(** * Branching gate *)
(* ================================================================== *)

Section BranchingGate.

Variable graph : Graph.
Variable tool : Kissnp2.

Lemma two_possible_extensions_on_one_path_spec (n : Node) :
  two_possible_extensions_on_one_path graph n = true <-> branches_alone graph n.
Proof.
  unfold two_possible_extensions_on_one_path, branches_alone.
  rewrite orb_true_iff, !Z.leb_le. tauto.
Qed.

Lemma two_possible_extensions_spec (n1 n2 : Node) :
  two_possible_extensions graph n1 n2 = true
  <-> 2 <= joint_forward graph n1 n2 \/ 2 <= joint_reverse graph n1 n2.
Proof.
  unfold two_possible_extensions, joint_forward, joint_reverse.
  rewrite orb_true_iff, !Z.leb_le. tauto.
Qed.

Lemma checkBranching_false_iff (n1 n2 : Node) :
  checkBranching graph tool n1 n2 = false
  <-> rejects_either_side graph tool n1 n2.
Proof.
  unfold checkBranching, rejects_either_side.
  rewrite <- two_possible_extensions_spec,
          <- !two_possible_extensions_on_one_path_spec.
  destruct (Z.eqb_spec (authorised_branching tool) 0) as [E0 | E0];
    destruct (Z.eqb_spec (authorised_branching tool) 1) as [E1 | E1];
    destruct (two_possible_extensions_on_one_path graph n1),
             (two_possible_extensions_on_one_path graph n2),
             (two_possible_extensions graph n1 n2);
    cbn; split; intro H; try reflexivity; try discriminate;
    try (left; split; [assumption | tauto]);
    try (right; split; [assumption | reflexivity]);
    try (destruct H as [[? H] | [? H]];
         [ try contradiction; try lia; destruct H; discriminate
         | try contradiction; try lia; discriminate ]).
Qed.

End BranchingGate.

(** C1 (as amended).  [checkBranching] rejects exactly when the policy is
    0 and one of the two nodes has in-degree or out-degree at least 2, or
    the policy is 1 and the joint successor set of the two nodes or the
    joint successor set of their reverses has at least 2 elements; with
    policy 2 it accepts whatever the nodes. *)
Theorem checkBranching_rejects_iff (graph : Graph) (tool : Kissnp2) (n1 n2 : Node) :
  (checkBranching graph tool n1 n2 = false
   <-> rejects_either_side graph tool n1 n2)
  /\ (forall thr lw tk,
         checkBranching graph (mkKissnp2 2 thr lw tk) n1 n2 = true).
Proof.
  split.
  - apply checkBranching_false_iff.
  - intros thr lw tk. reflexivity.
Qed.

(* ================================================================== *)
(** * Low-complexity and strand filters *)
(* ================================================================== *)

Lemma checkLowComplexity_score graph tool filter b :
  score (snd (checkLowComplexity graph tool filter b))
  = filter (fst (filter_paths graph b)) (snd (filter_paths graph b)).
Proof. reflexivity. Qed.

Lemma checkLowComplexity_bubble graph tool filter b :
  snd (checkLowComplexity graph tool filter b)
  = set_score (filter (fst (filter_paths graph b)) (snd (filter_paths graph b))) b.
Proof. reflexivity. Qed.

(** C7.  [checkLowComplexity] stores the score of the filter in the
    bubble and accepts exactly when that score is below the threshold, or
    is at or above it while [low] is set; for a fixed bubble, threshold
    and the other options, acceptance with [low = false] entails
    acceptance with [low = true]. *)
Theorem checkLowComplexity_accepts_iff
    (graph : Graph) (tool : Kissnp2) (filter : string -> string -> Z) (b : Bubble) :
  let r := checkLowComplexity graph tool filter b in
  score (snd r) = filter (fst (filter_paths graph b)) (snd (filter_paths graph b))
  /\ (fst r = true
      <-> score (snd r) < threshold tool
          \/ (score (snd r) >= threshold tool /\ low tool = true))
  /\ (forall ab thr tk,
         fst (checkLowComplexity graph (mkKissnp2 ab thr false tk) filter b) = true ->
         fst (checkLowComplexity graph (mkKissnp2 ab thr true tk) filter b) = true).
Proof.
  cbv zeta. split; [reflexivity | split].
  - unfold checkLowComplexity. cbn [fst snd].
    rewrite orb_true_iff, andb_true_iff, Z.ltb_lt, Z.geb_le, Z.ge_le_iff.
    tauto.
  - intros ab thr tk. unfold checkLowComplexity. cbn [fst snd low threshold].
    rewrite !orb_true_iff, !andb_true_iff. tauto.
Qed.

Lemma string_ltb_lex_lt (s1 s2 : string) :
  String.ltb s1 s2 = true <-> lex_lt s1 s2.
Proof.
  unfold String.ltb. revert s2.
  induction s1 as [| c1 s1 IH]; intros [| c2 s2]; cbn.
  - split; [discriminate | intro H; inversion H].
  - split; [intros _; constructor | reflexivity].
  - split; [discriminate | intro H; inversion H].
  - unfold Ascii.compare.
    destruct (N.compare_spec (N_of_ascii c1) (N_of_ascii c2)) as [E | L | G].
    + assert (c1 = c2) as ->.
      { rewrite <- (ascii_N_embedding c1), <- (ascii_N_embedding c2), E.
        reflexivity. }
      rewrite IH. split.
      * intro H. now apply lex_lt_tail.
      * intro H. inversion H; subst; [lia | assumption].
    + split; [intros _; now apply lex_lt_head | reflexivity].
    + split; [discriminate |].
      intro H. inversion H; subst; [lia |]. lia.
Qed.

(* ================================================================== *)
(** * Extension *)
(* ================================================================== *)

Section Extend.

Variable graph : Graph.
Variable tool : Kissnp2.
Variable T : Type.
Variable tv : TraversalOps T.

Lemma extend_close_fields cl cr b1 :
  let b' := extend_close cl cr b1 in
  closureLeft b' = cl /\ closureRight b' = cr
  /\ where_to_extend b' = presence_code b'
  /\ 0 <= where_to_extend b' <= 3
  /\ extensionLeft b' = extensionLeft b1
  /\ extensionRight b' = extensionRight b1
  /\ divergenceLeft b' = divergenceLeft b1
  /\ divergenceRight b' = divergenceRight b1
  /\ begin b' = begin b1 /\ end_ b' = end_ b1 /\ score b' = score b1.
Proof.
  unfold extend_close, presence_code.
  destruct (cl =? BAD) eqn:E1, (cr =? BAD) eqn:E2;
    cbn -[Z.eqb BAD]; rewrite ?E1, ?E2; repeat split; try reflexivity; lia.
Qed.

Lemma extend_NONE b t :
  traversalKind tool = Traversal.NONE ->
  extend graph tool tv b t = ret (true, extend_close BAD BAD b, t).
Proof. intro E. unfold extend. rewrite E. reflexivity. Qed.

Lemma vec_at_0_cons {A} (x : A) (l : list A) : vec_at (x :: l) 0 = ret x.
Proof.
  unfold vec_at.
  replace (Z.of_nat (List.length (x :: l)) <=? 0) with false.
  - reflexivity.
  - symmetry. apply Z.leb_gt. cbn [List.length]. lia.
Qed.

Lemma vec_at_nil {A} (i : Z) : vec_at (@nil A) i = fail OutOfBounds.
Proof.
  unfold vec_at. destruct (i <? 0) eqn:E; [reflexivity |].
  apply Z.ltb_ge in E. cbn [List.length].
  replace (Z.of_nat 0 <=? i) with true; [reflexivity |].
  symmetry. apply Z.leb_le. lia.
Qed.

Lemma closure_step (l : list Node) (x : Node) (i : Z) :
  (if Z.of_nat (List.length (x :: l)) =? 1
   then (n0 <- vec_at (x :: l) 0 ;; ret (getNT graph n0 i))
   else ret BAD)
  = ret (closure_of graph (x :: l) i).
Proof.
  destruct l as [| y l].
  - reflexivity.
  - replace (Z.of_nat (List.length (x :: y :: l)) =? 1) with false.
    + reflexivity.
    + symmetry. apply Z.eqb_neq. cbn [List.length]. lia.
Qed.

Lemma kind_not_NONE :
  traversalKind tool <> Traversal.NONE ->
  negb (Traversal.Kind_eqb (traversalKind tool) Traversal.NONE) = true.
Proof. destruct (traversalKind tool); [contradiction | | ]; reflexivity. Qed.

Lemma extend_traversing b t s0 ss p0 ps :
  traversalKind tool <> Traversal.NONE ->
  successors graph (fst (end_ b)) = s0 :: ss ->
  predecessors graph (fst (begin b)) = p0 :: ps ->
  let r1 := traverse tv (terminator_reset tv t) s0 DIR_OUTCOMING (extensionRight b) in
  let r2 := traverse tv (fst r1) (reverse graph p0) DIR_OUTCOMING (extensionLeft b) in
  extend graph tool tv b t
  = ret (true,
         extend_close (closure_of graph (p0 :: ps) 0)
                      (closure_of graph (s0 :: ss) (getKmerSize graph - 1))
           (set_divergenceLeft (divergence_of tv (fst r2) (snd r2))
              (set_extensionLeft (snd r2)
                 (set_divergenceRight (divergence_of tv (fst r1) (snd r1))
                    (set_extensionRight (snd r1) b)))),
         fst r2).
Proof.
  intros Hk Hs Hp. cbv zeta. unfold extend.
  rewrite (kind_not_NONE Hk), Hs, Hp, !closure_step, !vec_at_0_cons.
  unfold divergence_of, sizeKmer. cbn [bind ret].
  destruct (traverse tv (terminator_reset tv t) s0 DIR_OUTCOMING (extensionRight b))
    as [t1 extR].
  cbn [fst snd bind ret set_extensionRight set_divergenceRight extensionLeft].
  destruct (traverse tv t1 (reverse graph p0) DIR_OUTCOMING (extensionLeft b))
    as [t2 extL].
  reflexivity.
Qed.

Lemma extend_out_of_bounds b t :
  traversalKind tool <> Traversal.NONE ->
  predecessors graph (fst (begin b)) = [] \/ successors graph (fst (end_ b)) = [] ->
  extend graph tool tv b t = fail OutOfBounds.
Proof.
  intros Hk H. unfold extend. rewrite (kind_not_NONE Hk).
  destruct (predecessors graph (fst (begin b))) as [| p0 ps] eqn:Hp.
  - destruct (successors graph (fst (end_ b))) as [| s0 ss] eqn:Hs.
    + reflexivity.
    + rewrite closure_step, vec_at_0_cons.
      cbn [List.length Z.of_nat Z.eqb bind ret].
      destruct (traverse tv (terminator_reset tv t) s0 DIR_OUTCOMING (extensionRight b)).
      reflexivity.
  - destruct H as [H | H]; [discriminate |]. rewrite H, closure_step.
    reflexivity.
Qed.

(** Whatever the configuration, [extend] either yields [true] with a
    bubble closed by [extend_close], or stops on an element access
    outside the neighbour vectors. *)
Lemma extend_cases b t :
  extend graph tool tv b t = fail OutOfBounds
  \/ exists cl cr b1 t',
      extend graph tool tv b t = ret (true, extend_close cl cr b1, t').
Proof.
  destruct (traversalKind tool) eqn:Ek.
  - right. exists BAD, BAD, b, t. now apply extend_NONE.
  - destruct (successors graph (fst (end_ b))) as [| s0 ss] eqn:Hs;
      [left; apply extend_out_of_bounds; [congruence | now right] |].
    destruct (predecessors graph (fst (begin b))) as [| p0 ps] eqn:Hp;
      [left; apply extend_out_of_bounds; [congruence | now left] |].
    right. do 4 eexists. apply (extend_traversing b t s0 ss p0 ps); congruence.
  - destruct (successors graph (fst (end_ b))) as [| s0 ss] eqn:Hs;
      [left; apply extend_out_of_bounds; [congruence | now right] |].
    destruct (predecessors graph (fst (begin b))) as [| p0 ps] eqn:Hp;
      [left; apply extend_out_of_bounds; [congruence | now left] |].
    right. do 4 eexists. apply (extend_traversing b t s0 ss p0 ps); congruence.
Qed.

End Extend.

Arguments extend_NONE graph tool {T} tv b t _.
Arguments extend_traversing graph tool {T} tv b t s0 ss p0 ps _ _ _.
Arguments extend_out_of_bounds graph tool {T} tv b t _ _.
Arguments extend_cases graph tool {T} tv b t.

(** C8.  [extend] has no [false] case: it yields [true], unless it stops
    on an element access outside a neighbour vector (which happens only
    when the traversal kind is not NONE); it does yield [true] for every
    bubble when the traversal kind is NONE and whenever both neighbour
    vectors are non-empty.  With NONE the extensions are left as they
    were (empty stays empty), both closures are absent and
    [where_to_extend] is 0.  In every case [where_to_extend] is 1 times
    "left closure present" plus 2 times "right closure present", a value
    from 0 to 3. *)
Theorem extend_returns_true
    (graph : Graph) (tool : Kissnp2) (T : Type) (tv : TraversalOps T)
    (b : Bubble) (t : T) :
  (extend graph tool tv b t = fail OutOfBounds
   \/ exists b' t',
       extend graph tool tv b t = ret (true, b', t')
       /\ where_to_extend b' = presence_code b'
       /\ 0 <= where_to_extend b' <= 3)
  /\ (traversalKind tool = Traversal.NONE ->
      exists b',
        extend graph tool tv b t = ret (true, b', t)
        /\ extensionLeft b' = extensionLeft b
        /\ extensionRight b' = extensionRight b
        /\ closureLeft b' = BAD /\ closureRight b' = BAD
        /\ where_to_extend b' = 0)
  /\ (predecessors graph (fst (begin b)) <> [] ->
      successors graph (fst (end_ b)) <> [] ->
      exists b' t', extend graph tool tv b t = ret (true, b', t')).
Proof.
  split; [| split].
  - destruct (extend_cases graph tool tv b t) as [E | (cl & cr & b1 & t' & E)].
    + now left.
    + right. exists (extend_close cl cr b1), t'.
      pose proof (extend_close_fields cl cr b1) as F. cbv zeta in F. tauto.
  - intro Ek. exists (extend_close BAD BAD b). split.
    + now apply extend_NONE.
    + repeat split; reflexivity.
  - intros Hp Hs.
    destruct (traversalKind tool) eqn:Ek.
    + do 2 eexists. now apply extend_NONE.
    + destruct (predecessors graph (fst (begin b))) as [| p0 ps] eqn:Ep;
        [contradiction |].
      destruct (successors graph (fst (end_ b))) as [| s0 ss] eqn:Es;
        [contradiction |].
      do 2 eexists. apply (extend_traversing graph tool tv b t s0 ss p0 ps);
        congruence.
    + destruct (predecessors graph (fst (begin b))) as [| p0 ps] eqn:Ep;
        [contradiction |].
      destruct (successors graph (fst (end_ b))) as [| s0 ss] eqn:Es;
        [contradiction |].
      do 2 eexists. apply (extend_traversing graph tool tv b t s0 ss p0 ps);
        congruence.
Qed.

(** C9.  When the traversal kind is not NONE, [extend] starts the
    traversal from element 0 of the successors of [end[0]] and then from
    the reverse of element 0 of the predecessors of [begin[0]], whatever
    the sizes of the two vectors (a closure is recorded only for a vector
    of size 1).  The two element accesses are within bounds exactly when
    both vectors are non-empty: [extend] yields a result if and only if
    they are, and stops on [OutOfBounds] otherwise. *)
Theorem extend_traverses_element_0
    (graph : Graph) (tool : Kissnp2) (T : Type) (tv : TraversalOps T)
    (b : Bubble) (t : T) :
  traversalKind tool <> Traversal.NONE ->
  let preds := predecessors graph (fst (begin b)) in
  let succs := successors graph (fst (end_ b)) in
  ((exists r, extend graph tool tv b t = ret r) <-> preds <> [] /\ succs <> [])
  /\ (preds = [] \/ succs = [] -> extend graph tool tv b t = fail OutOfBounds)
  /\ (forall s0 ss p0 ps,
         succs = s0 :: ss -> preds = p0 :: ps ->
         let r1 := traverse tv (terminator_reset tv t) s0 DIR_OUTCOMING
                            (extensionRight b) in
         let r2 := traverse tv (fst r1) (reverse graph p0) DIR_OUTCOMING
                            (extensionLeft b) in
         extend graph tool tv b t
         = ret (true,
                extend_close (closure_of graph (p0 :: ps) 0)
                             (closure_of graph (s0 :: ss) (getKmerSize graph - 1))
                  (set_divergenceLeft (divergence_of tv (fst r2) (snd r2))
                     (set_extensionLeft (snd r2)
                        (set_divergenceRight (divergence_of tv (fst r1) (snd r1))
                           (set_extensionRight (snd r1) b)))),
                fst r2)).
Proof.
  intros Hk preds succs. split; [| split].
  - split.
    + intros [r E]. split; intro H0.
      * rewrite (extend_out_of_bounds graph tool tv b t Hk (or_introl H0)) in E.
        discriminate.
      * rewrite (extend_out_of_bounds graph tool tv b t Hk (or_intror H0)) in E.
        discriminate.
    + intros [Hp Hs]. subst preds succs.
      destruct (predecessors graph (fst (begin b))) as [| p0 ps] eqn:Ep;
        [contradiction |].
      destruct (successors graph (fst (end_ b))) as [| s0 ss] eqn:Es;
        [contradiction |].
      eexists. apply (extend_traversing graph tool tv b t s0 ss p0 ps); assumption.
  - apply extend_out_of_bounds. assumption.
  - intros s0 ss p0 ps Hs Hp.
    apply (extend_traversing graph tool tv b t s0 ss p0 ps); assumption.
Qed.

(* ================================================================== *)
(** * Rendering of a path *)
(* ================================================================== *)

Lemma tolower_not_upper (c : ascii) : is_upper (tolower c) = false.
Proof.
  destruct c as [[] [] [] [] [] [] [] []]; vm_compute; reflexivity.
Qed.

Lemma tolower_zero (c : ascii) : tolower c = zero -> c = zero.
Proof.
  destruct c as [[] [] [] [] [] [] [] []]; vm_compute; intro H;
    first [reflexivity | discriminate H].
Qed.

Lemma get_nth_error (s : string) (i : nat) :
  String.get i s = nth_error (list_ascii_of_string s) i.
Proof.
  revert i. induction s as [| c s IH]; intros [| i]; cbn; auto.
Qed.

Lemma length_list_ascii_of_string (s : string) :
  List.length (list_ascii_of_string s) = String.length s.
Proof. induction s; cbn; congruence. Qed.

Lemma skipn_nth_error {A} (l : list A) (i : nat) (c : A) :
  nth_error l i = Some c -> skipn i l = c :: skipn (S i) l.
Proof.
  revert i. induction l as [| x l IH]; intros [| i] H; cbn in H; try discriminate.
  - now inversion H.
  - cbn [skipn]. rewrite (IH i H). reflexivity.
Qed.

Lemma copy_chars_skipn (s : string) (n from : nat) :
  (from + n <= String.length s)%nat ->
  copy_chars s from n = ret (firstn n (skipn from (list_ascii_of_string s))).
Proof.
  revert from. induction n as [| n IH]; intros from H.
  - reflexivity.
  - cbn [copy_chars]. unfold str_at. rewrite get_nth_error.
    destruct (nth_error (list_ascii_of_string s) from) as [c |] eqn:E.
    + cbn [bind ret]. rewrite IH by lia. cbn [bind ret].
      rewrite (skipn_nth_error _ _ _ E). reflexivity.
    + apply nth_error_None in E. rewrite length_list_ascii_of_string in E. lia.
Qed.

Lemma copy_chars_firstn (s : string) (n : nat) :
  (n <= String.length s)%nat ->
  copy_chars s 0 n = ret (firstn n (list_ascii_of_string s)).
Proof. intro H. rewrite copy_chars_skipn by lia. reflexivity. Qed.

Lemma c_str_app_zero (l rest : list ascii) :
  ~ In zero l -> c_str (l ++ zero :: rest) = l.
Proof.
  induction l as [| c l IH]; intro H.
  - reflexivity.
  - cbn [app c_str]. destruct (Ascii.eqb_spec c zero) as [E | E].
    + exfalso. apply H. now left.
    + f_equal. apply IH. intro H1. apply H. now right.
Qed.

Lemma length_resize (buf : list ascii) (n : nat) : List.length (resize buf n) = n.
Proof.
  unfold resize. rewrite length_app, length_firstn, repeat_length. lia.
Qed.

Lemma if_negb {A} (c : bool) (x y : A) :
  (if negb c then x else y) = (if c then y else x).
Proof. destruct c; reflexivity. Qed.

Lemma at2_path_node (p : Node * Node) (i : Z) :
  i = 0 \/ i = 1 -> at2 p i = ret (path_node p i).
Proof. intros [-> | ->]; reflexivity. Qed.

Section Rendering.

Variable graph : Graph.
Variable tool : Kissnp2.
Variable tables : NucleotideTables.

Lemma length_layout (b : Bubble) (nb ne : Node) :
  1 <= getKmerSize graph ->
  Z.of_nat (String.length (toString graph nb)) = getKmerSize graph ->
  Z.of_nat (String.length (toString graph ne)) = getKmerSize graph ->
  Z.of_nat (List.length (layout graph tables b nb ne)) = rendered_length graph b.
Proof.
  intros Hk Hb He. unfold layout, rendered_length.
  rewrite !length_app, !length_map, length_rev, length_firstn,
          !length_list_ascii_of_string.
  rewrite Nat.min_l by lia.
  destruct (closureLeft b =? BAD), (closureRight b =? BAD);
    cbn [List.length]; lia.
Qed.

Lemma buildSequence_result (b : Bubble) (pathIdx : Z) (type : string) (seq : Sequence) :
  1 <= getKmerSize graph ->
  pathIdx = 0 \/ pathIdx = 1 ->
  let nb := path_node (begin b) pathIdx in
  let ne := path_node (end_ b) pathIdx in
  Z.of_nat (String.length (toString graph nb)) = getKmerSize graph ->
  Z.of_nat (String.length (toString graph ne)) = getKmerSize graph ->
  let out := layout graph tables b nb ne in
  let buf := if (List.length (data seq) <? S (List.length out))%nat
             then resize (data seq) (S (List.length out)) else data seq in
  buildSequence graph tool tables b pathIdx type seq
  = ret (mkSequence (buildComment tool b type)
                    (out ++ zero :: skipn (S (List.length out)) buf)).
Proof.
  intros Hk Hi nb ne Hb He out buf.
  pose proof (length_layout b nb ne Hk Hb He) as HL. fold out in HL.
  unfold buildSequence.
  rewrite (at2_path_node _ _ Hi), (at2_path_node _ _ Hi). cbn [bind ret].
  fold nb ne. unfold sizeKmer.
  rewrite !copy_chars_firstn by lia. cbn [bind ret].
  rewrite (firstn_all2 (n := Z.to_nat (getKmerSize graph))
             (list_ascii_of_string (toString graph ne)))
    by (rewrite length_list_ascii_of_string; lia).
  rewrite !if_negb.
  set (len := if closureRight b =? BAD then _ else _).
  assert (Hlen : len = rendered_length graph b).
  { subst len. unfold rendered_length.
    destruct (closureLeft b =? BAD), (closureRight b =? BAD); lia. }
  set (o := _ ++ _ ++ _ ++ _ ++ _ ++ _ ++ [zero]).
  assert (Ho : o = out ++ [zero]).
  { subst o out. unfold layout. rewrite <- !app_assoc. reflexivity. }
  rewrite Ho, Hlen, <- HL.
  replace (Z.to_nat (Z.of_nat (List.length out) + 1)) with (S (List.length out))
    by lia.
  replace (Z.of_nat (List.length (data seq)) <? Z.of_nat (List.length out) + 1)
    with (List.length (data seq) <? S (List.length out))%nat.
  2:{ destruct (Nat.ltb_spec (List.length (data seq)) (S (List.length out)));
      symmetry; [apply Z.ltb_lt | apply Z.ltb_ge]; lia. }
  fold buf.
  assert (Hbuf : (List.length (out ++ [zero]) <= List.length buf)%nat).
  { rewrite length_app. cbn [List.length]. subst buf.
    destruct (Nat.ltb_spec (List.length (data seq)) (S (List.length out))).
    - rewrite length_resize. lia.
    - lia. }
  replace (List.length buf <? List.length (out ++ [zero]))%nat with false
    by (symmetry; apply Nat.ltb_ge; exact Hbuf).
  unfold overwrite. rewrite length_app. cbn [List.length].
  rewrite Nat.add_1_r, <- app_assoc. reflexivity.
Qed.

End Rendering.

(** C6.  For a path index 0 or 1, on a graph whose nodes render as k
    characters, [buildSequence] writes into the buffer of the sequence,
    from its head: the left extension reversed and complemented, the left
    closure if present, the first k-1 characters of [begin[i]], the k
    characters of [end[i]], the right closure if present and the right
    extension, then a null character.  The characters before the null
    character are L = (2k-1) + |extensionLeft| + |extensionRight| + [left
    closure present] + [right closure present] in number; the extension
    and closure characters come out of [tolower], so none is an uppercase
    letter, and the 2k-1 characters of the core are those of the two
    renderings.  The buffer is grown to L+1 characters when it is shorter
    and is never cut; when no rendered character is null, the string the
    buffer holds is the layout itself. *)
Theorem buildSequence_layout
    (graph : Graph) (tool : Kissnp2) (tables : NucleotideTables)
    (b : Bubble) (pathIdx : Z) (type : string) (seq : Sequence) :
  1 <= getKmerSize graph ->
  pathIdx = 0 \/ pathIdx = 1 ->
  let nb := path_node (begin b) pathIdx in
  let ne := path_node (end_ b) pathIdx in
  Z.of_nat (String.length (toString graph nb)) = getKmerSize graph ->
  Z.of_nat (String.length (toString graph ne)) = getKmerSize graph ->
  let out := layout graph tables b nb ne in
  exists rest,
    buildSequence graph tool tables b pathIdx type seq
    = ret (mkSequence (buildComment tool b type) (out ++ zero :: rest))
    /\ Z.of_nat (List.length out) = rendered_length graph b
    /\ List.length (out ++ zero :: rest)
       = Nat.max (List.length (data seq)) (S (List.length out))
    /\ (~ In zero out -> c_str (out ++ zero :: rest) = out)
    /\ (exists left core right,
           out = left ++ core ++ right
           /\ core = firstn (Z.to_nat (getKmerSize graph - 1))
                            (list_ascii_of_string (toString graph nb))
                     ++ list_ascii_of_string (toString graph ne)
           /\ Z.of_nat (List.length core) = 2 * getKmerSize graph - 1
           /\ Forall (fun c => is_upper c = false) left
           /\ Forall (fun c => is_upper c = false) right).
Proof.
  intros Hk Hi nb ne Hb He out.
  eexists. split; [| split; [| split; [| split]]].
  - apply (buildSequence_result graph tool tables b pathIdx type seq Hk Hi Hb He).
  - apply length_layout; assumption.
  - rewrite length_app. cbn [List.length]. rewrite length_skipn. fold nb ne out.
    destruct (Nat.ltb_spec (List.length (data seq)) (S (List.length out))).
    + rewrite length_resize. lia.
    + lia.
  - apply c_str_app_zero.
  - exists (map (fun x => tolower (ascii_nt tables (reverse_nt tables x)))
                (rev (extensionLeft b))
            ++ (if closureLeft b =? BAD then []
                else [tolower (bin2NT tables (closureLeft b))])).
    exists (firstn (Z.to_nat (getKmerSize graph - 1))
                   (list_ascii_of_string (toString graph nb))
            ++ list_ascii_of_string (toString graph ne)).
    exists ((if closureRight b =? BAD then []
             else [tolower (bin2NT tables (closureRight b))])
            ++ map (fun x => tolower (ascii_nt tables x)) (extensionRight b)).
    split; [| split; [| split; [| split]]].
    + subst out. unfold layout. rewrite <- !app_assoc. reflexivity.
    + reflexivity.
    + rewrite length_app, length_firstn, !length_list_ascii_of_string.
      rewrite Nat.min_l by lia. lia.
    + apply Forall_app. split.
      * apply Forall_map, Forall_forall. intros x _. apply tolower_not_upper.
      * destruct (closureLeft b =? BAD); repeat constructor.
        apply tolower_not_upper.
    + apply Forall_app. split.
      * destruct (closureRight b =? BAD); repeat constructor.
        apply tolower_not_upper.
      * apply Forall_map, Forall_forall. intros x _. apply tolower_not_upper.
Qed.

(* ================================================================== *)
(** * Emission and statistics *)
(* ================================================================== *)

Lemma sumZ_app (l1 l2 : list Z) : sumZ (l1 ++ l2) = sumZ l1 + sumZ l2.
Proof.
  unfold sumZ. induction l1 as [| x l1 IH]; cbn [app fold_right];
    [reflexivity | rewrite IH; lia].
Qed.

Lemma sumZ_mid (l1 l2 : list Z) (x : Z) :
  sumZ (l1 ++ x :: l2) = sumZ l1 + x + sumZ l2.
Proof. rewrite sumZ_app. unfold sumZ. cbn [fold_right]. lia. Qed.

Lemma sumZ_nonneg (l : list Z) : Forall (fun x => 0 <= x) l -> 0 <= sumZ l.
Proof. unfold sumZ. induction 1; cbn [fold_right]; lia. Qed.

Lemma vec_at_split {A} (v : list A) (i : Z) (x : A) :
  vec_at v i = ret x ->
  exists l1 l2, v = l1 ++ x :: l2 /\ Z.of_nat (List.length l1) = i
                /\ firstn (Z.to_nat i) v = l1 /\ skipn (S (Z.to_nat i)) v = l2.
Proof.
  unfold vec_at. destruct (i <? 0) eqn:E0; [discriminate |].
  destruct (Z.of_nat (List.length v) <=? i); [discriminate |]. cbn [orb].
  destruct (nth_error v (Z.to_nat i)) as [a |] eqn:E; [| discriminate].
  intro H. inversion H; subst a. apply Z.ltb_ge in E0.
  apply nth_error_split in E. destruct E as (l1 & l2 & -> & Hl).
  exists l1, l2. repeat split.
  - lia.
  - rewrite <- Hl. rewrite firstn_app, firstn_all, Nat.sub_diag.
    cbn. now rewrite app_nil_r.
  - rewrite <- Hl.
    replace (l1 ++ x :: l2) with ((l1 ++ [x]) ++ l2)
      by (rewrite <- app_assoc; reflexivity).
    replace (S (List.length l1)) with (List.length (l1 ++ [x]))
      by (rewrite length_app; cbn; lia).
    rewrite skipn_app, skipn_all, Nat.sub_diag. reflexivity.
Qed.

Lemma vec_at_in_bounds {A} (v : list A) (i : Z) :
  0 <= i < Z.of_nat (List.length v) -> exists x, vec_at v i = ret x.
Proof.
  intros [H0 H1]. unfold vec_at.
  replace (i <? 0) with false by (symmetry; apply Z.ltb_ge; lia).
  replace (Z.of_nat (List.length v) <=? i) with false
    by (symmetry; apply Z.leb_gt; lia).
  cbn [orb]. destruct (nth_error v (Z.to_nat i)) as [a |] eqn:E.
  - now exists a.
  - apply nth_error_None in E. lia.
Qed.

Section Finish.

Variable graph : Graph.
Variable tool : Kissnp2.
Variable tables : NucleotideTables.
Variable m : Z.

Lemma finish_inv (b b' : Bubble) (st st' : Stats) :
  finish graph tool tables m b st = ret (b', st') ->
  finish_step tool m b b' st st'.
Proof.
  unfold finish, finish_step, incr.
  destruct (buildSequence graph tool tables (set_index _ b) 0 "higher" _)
    as [e | s1]; [discriminate |]. cbn [bind].
  destruct (buildSequence graph tool tables (set_seq1 s1 _) 1 "lower" _)
    as [e | s2]; [discriminate |]. cbn [bind].
  unfold vec_incr.
  destruct (vec_at (nb_where_to_extend st) _) as [e | x] eqn:Ex;
    [discriminate |]. cbn [bind ret].
  cbn [where_to_extend set_seq2 set_seq1 set_index score seq1 seq2] in *.
  apply vec_at_split in Ex. destruct Ex as (l1 & l2 & Ev & Hl & Hf & Hs).
  rewrite Hf, Hs.
  destruct (Z.ltb_spec (score b) (threshold tool)) as [Hlt | Hge];
    intro H; inversion H; subst b' st'; clear H; cbn;
    (split; [reflexivity |]); (split; [reflexivity |]); split.
  - left. repeat split; try reflexivity; assumption.
  - split; [exists l1, x, l2; now repeat split |].
    rewrite <- app_assoc. reflexivity.
  - right. repeat split; try reflexivity; assumption.
  - split; [exists l1, x, l2; now repeat split |].
    rewrite <- app_assoc. reflexivity.
Qed.

(** [finish] yields a result as soon as the four nodes of the bubble
    render as k characters and [where_to_extend] indexes the array of
    counters. *)
Lemma finish_total (b : Bubble) (st : Stats) :
  1 <= getKmerSize graph ->
  (forall n, In n [fst (begin b); snd (begin b); fst (end_ b); snd (end_ b)] ->
             Z.of_nat (String.length (toString graph n)) = getKmerSize graph) ->
  0 <= where_to_extend b < Z.of_nat (List.length (nb_where_to_extend st)) ->
  exists b' st', finish graph tool tables m b st = ret (b', st').
Proof.
  intros Hk Hn Hw. unfold finish.
  rewrite (buildSequence_result graph tool tables _ 0 "higher" _ Hk (or_introl eq_refl))
    by (apply Hn; cbn; tauto).
  cbn [bind ret].
  rewrite (buildSequence_result graph tool tables _ 1 "lower" _ Hk (or_intror eq_refl))
    by (apply Hn; cbn; tauto).
  cbn [bind ret]. unfold vec_incr.
  cbn [where_to_extend set_seq2 set_seq1 set_index].
  destruct (vec_at_in_bounds (nb_where_to_extend st) (where_to_extend b) Hw)
    as [x ->].
  cbn [bind ret]. destruct (_ <? _); eauto.
Qed.

End Finish.

Lemma counters_zero_agree (st : Stats) : counters_zero st -> counters_agree 0 st.
Proof.
  intros (H1 & H2 & H3 & H4). unfold counters_agree.
  rewrite H1, H2, H3, H4. cbn. repeat split; try lia. repeat constructor; lia.
Qed.

Lemma counters_zero_agree_mod (m : Z) (st : Stats) :
  counters_zero st -> counters_agree_mod m st.
Proof.
  intros (H1 & H2 & H3 & H4). unfold counters_agree_mod.
  rewrite H1, H2, H3, H4. cbn [sumZ fold_right Z.add].
  rewrite Zmod_0_l. split; reflexivity.
Qed.

Lemma finish_step_agree tool m b b' st st' n :
  finish_step tool m b b' st st' ->
  0 <= n -> n + 1 < m ->
  counters_agree n st -> counters_agree (n + 1) st'.
Proof.
  intros (Hn & _ & Hhl & (l1 & x & l2 & Hv & _ & Hv') & _) H0 Hm
         (In & Ih & Il & Ihl & Iw & Is & Ilen).
  rewrite Hv in Iw, Is, Ilen.
  apply Forall_app in Iw. destruct Iw as [Iw1 Iw2].
  apply Forall_cons_iff in Iw2. destruct Iw2 as [Hx Iw3].
  rewrite sumZ_mid in Is.
  pose proof (sumZ_nonneg _ Iw1). pose proof (sumZ_nonneg _ Iw3).
  assert (M1 : (nb_bubbles st + 1) mod m = nb_bubbles st + 1)
    by (apply Z.mod_small; lia).
  assert (M2 : (x + 1) mod m = x + 1) by (apply Z.mod_small; lia).
  assert (M3 : (nb_bubbles_high st + 1) mod m = nb_bubbles_high st + 1)
    by (apply Z.mod_small; lia).
  assert (M4 : (nb_bubbles_low st + 1) mod m = nb_bubbles_low st + 1)
    by (apply Z.mod_small; lia).
  unfold counters_agree. rewrite Hn, Hv', sumZ_mid, M1, M2.
  assert (Hh : 0 <= nb_bubbles_high st' /\ 0 <= nb_bubbles_low st'
               /\ nb_bubbles_high st' + nb_bubbles_low st' = n + 1).
  { destruct Hhl as [(_ & -> & ->) | (_ & -> & ->)]; rewrite ?M3, ?M4; lia. }
  destruct Hh as (Hh1 & Hh2 & Hh3).
  repeat split; try lia.
  - apply Forall_app. split; [assumption |]. constructor; [lia | assumption].
  - rewrite length_app in *. cbn [List.length] in *. lia.
Qed.

Lemma finish_step_agree_mod tool m b b' st st' :
  finish_step tool m b b' st st' ->
  counters_agree_mod m st -> counters_agree_mod m st'.
Proof.
  intros (Hn & _ & Hhl & (l1 & x & l2 & Hv & _ & Hv') & _) (I1 & I2).
  unfold counters_agree_mod. rewrite Hn, Hv'. split.
  - rewrite I1, Zplus_mod_idemp_l.
    destruct Hhl as [(_ & -> & ->) | (_ & -> & ->)].
    + rewrite Zplus_mod_idemp_l. f_equal. lia.
    + rewrite Zplus_mod_idemp_r. f_equal. lia.
  - rewrite I2, Hv, Zplus_mod_idemp_l, !sumZ_mid.
    replace (sumZ l1 + (x + 1) mod m + sumZ l2)
      with ((x + 1) mod m + (sumZ l1 + sumZ l2)) by lia.
    rewrite Zplus_mod_idemp_l. f_equal. lia.
Qed.

Lemma finish_all_agree graph tool tables m bs : forall st st' n,
  finish_all graph tool tables m bs st = ret st' ->
  0 <= n -> n + Z.of_nat (List.length bs) < m ->
  counters_agree n st ->
  counters_agree (n + Z.of_nat (List.length bs)) st'.
Proof.
  induction bs as [| b bs IH]; intros st st' n H H0 Hm I.
  - cbn in H. inversion H; subst. cbn [List.length Z.of_nat].
    now rewrite Z.add_0_r.
  - cbn [finish_all] in H.
    destruct (finish graph tool tables m b st) as [e | [b1 st1]] eqn:E;
      [discriminate |].
    cbn [bind snd] in H. cbn [List.length] in *.
    apply finish_inv in E.
    replace (n + Z.of_nat (S (List.length bs)))
      with ((n + 1) + Z.of_nat (List.length bs)) by lia.
    apply (IH st1 st' (n + 1) H); try lia.
    apply (finish_step_agree tool m b b1 st st1 n E); lia || assumption.
Qed.

Lemma finish_all_agree_mod graph tool tables m bs : forall st st',
  finish_all graph tool tables m bs st = ret st' ->
  counters_agree_mod m st -> counters_agree_mod m st'.
Proof.
  induction bs as [| b bs IH]; intros st st' H I.
  - cbn in H. now inversion H; subst.
  - cbn [finish_all] in H.
    destruct (finish graph tool tables m b st) as [e | [b1 st1]] eqn:E;
      [discriminate |].
    cbn [bind snd] in H. apply finish_inv in E.
    apply (IH st1 st' H). now apply (finish_step_agree_mod tool m b b1 st st1).
Qed.

(** C10.  A call to [finish] that yields a result adds one to
    [nb_bubbles] (the counters count modulo [m]), stores the new value as
    the index of the bubble, adds one to [nb_bubbles_high] when the score
    is below the threshold and to [nb_bubbles_low] otherwise, leaving the
    other one as it was, adds one to the entry of [nb_where_to_extend]
    that [where_to_extend] indexes, leaving the other entries as they
    were, and appends the two sequences to the bank; it does yield a
    result for a bubble whose nodes render as k characters and whose
    [where_to_extend] is within the array.  Hence, from counters all
    zero, after any run of calls [nb_bubbles] equals [nb_bubbles_high +
    nb_bubbles_low] and the sum of [nb_where_to_extend] modulo [m], and
    equals them exactly (and is the number of calls) as long as the
    number of calls stays below [m]. *)
Theorem finish_counters
    (graph : Graph) (tool : Kissnp2) (tables : NucleotideTables) (m : Z) :
  (forall b st b' st',
      finish graph tool tables m b st = ret (b', st') ->
      finish_step tool m b b' st st')
  /\ (forall b st,
         1 <= getKmerSize graph ->
         (forall n, In n [fst (begin b); snd (begin b); fst (end_ b); snd (end_ b)] ->
                    Z.of_nat (String.length (toString graph n)) = getKmerSize graph) ->
         0 <= where_to_extend b < Z.of_nat (List.length (nb_where_to_extend st)) ->
         exists b' st', finish graph tool tables m b st = ret (b', st'))
  /\ (forall bs st st',
         counters_zero st ->
         finish_all graph tool tables m bs st = ret st' ->
         nb_bubbles st' = (nb_bubbles_high st' + nb_bubbles_low st') mod m
         /\ nb_bubbles st' = sumZ (nb_where_to_extend st') mod m)
  /\ (forall bs st st',
         counters_zero st ->
         finish_all graph tool tables m bs st = ret st' ->
         Z.of_nat (List.length bs) < m ->
         nb_bubbles st' = Z.of_nat (List.length bs)
         /\ nb_bubbles st' = nb_bubbles_high st' + nb_bubbles_low st'
         /\ nb_bubbles st' = sumZ (nb_where_to_extend st')
         /\ List.length (nb_where_to_extend st') = 4%nat).
Proof.
  split; [| split; [| split]].
  - intros b st b' st'. apply finish_inv.
  - intros b st. apply finish_total.
  - intros bs st st' Hz H.
    apply (finish_all_agree_mod graph tool tables m bs st st' H).
    now apply counters_zero_agree_mod.
  - intros bs st st' Hz H Hm.
    pose proof (finish_all_agree graph tool tables m bs st st' 0 H
                  (Z.le_refl 0) Hm (counters_zero_agree st Hz))
      as (I1 & _ & _ & I2 & _ & I3 & I4).
    cbn [Z.add] in *. repeat split; congruence.
Qed.

(* ================================================================== *)
(** * Loops *)
(* ================================================================== *)

Lemma for_each_ext {A S} (body1 body2 : A -> S -> res (step S)) (l : list A) :
  (forall a s, In a l -> body1 a s = body2 a s) ->
  forall s, for_each body1 l s = for_each body2 l s.
Proof.
  induction l as [| a l IH]; intros H s.
  - reflexivity.
  - cbn [for_each]. rewrite (H a s) by now left.
    destruct (body2 a s) as [e | [s' | s' | s']]; cbn [bind]; try reflexivity.
    apply IH. intros a' s0 Ha. apply H. now right.
Qed.

Lemma for_each_app {A S} (body : A -> S -> res (step S)) (l1 l2 : list A) (s : S) :
  for_each body (l1 ++ l2) s
  = (r <- for_each body l1 s ;;
     match fst r with
     | Exhausted => for_each body l2 (snd r)
     | _ => ret r
     end).
Proof.
  revert s. induction l1 as [| a l1 IH]; intro s.
  - reflexivity.
  - cbn [app for_each].
    destruct (body a s) as [e | [s' | s' | s']]; cbn [bind]; try reflexivity.
    apply IH.
Qed.

(** A loop all of whose iterations fall through to the next one. *)
Lemma for_each_skip {A S} (body : A -> S -> res (step S)) (l : list A) (s : S) :
  (forall a, In a l -> body a s = ret (Continue s)) ->
  for_each body l s = ret (Exhausted, s).
Proof.
  induction l as [| a l IH]; intro H.
  - reflexivity.
  - cbn [for_each]. rewrite (H a) by now left. cbn [bind ret].
    apply IH. intros a' Ha. apply H. now right.
Qed.

Lemma for_each_preserves {A S} (I : S -> Prop) (body : A -> S -> res (step S))
    (l : list A) :
  (forall a s r, In a l -> I s -> body a s = ret r -> I (step_state r)) ->
  forall s e s', I s -> for_each body l s = ret (e, s') -> I s'.
Proof.
  induction l as [| a l IH]; intros H s e s' Hs Hr.
  - cbn in Hr. inversion Hr; subst. assumption.
  - cbn [for_each] in Hr.
    destruct (body a s) as [e0 | r] eqn:E; [discriminate |].
    pose proof (H a s r (or_introl eq_refl) Hs E) as Hs1.
    destruct r as [s1 | s1 | s1]; cbn [bind ret step_state] in *.
    + apply (IH (fun a' s0 r0 Ha => H a' s0 r0 (or_intror Ha)) s1 e s' Hs1 Hr).
    + inversion Hr; subst. assumption.
    + inversion Hr; subst. assumption.
Qed.

(** A loop fails only where one of its iterations does. *)
Lemma for_each_fail {A S} (body : A -> S -> res (step S)) (l : list A) :
  forall s e, for_each body l s = fail e ->
              exists a s0, In a l /\ body a s0 = fail e.
Proof.
  induction l as [| a l IH]; intros s e H.
  - discriminate.
  - cbn [for_each] in H.
    destruct (body a s) as [e0 | [s1 | s1 | s1]] eqn:E; cbn [bind ret] in H;
      try discriminate.
    + exists a, s. split; [now left |]. unfold fail in *. congruence.
    + destruct (IH s1 e H) as (a' & s0 & Ha & Hb).
      exists a', s0. split; [now right | assumption].
Qed.

Lemma res_map_bind_snd {S G} (f : G -> S) (r : res (exit_kind * G)) :
  (x <- res_map (fun r => (fst r, f (snd r))) r ;; ret (snd x))
  = res_map f (x <- r ;; ret (snd x)).
Proof. destruct r as [e | [ex g]]; reflexivity. Qed.

(** Erasure of a ghost component through a loop. *)
Lemma for_each_erase {A S G} (f : G -> S)
    (bodyg : A -> G -> res (step G)) (body : A -> S -> res (step S)) (l : list A) :
  (forall a g, In a l -> res_map (step_map f) (bodyg a g) = body a (f g)) ->
  forall g, res_map (fun r => (fst r, f (snd r))) (for_each bodyg l g)
            = for_each body l (f g).
Proof.
  induction l as [| a l IH]; intros H g.
  - reflexivity.
  - cbn [for_each]. rewrite <- (H a g) by now left.
    destruct (bodyg a g) as [e | [g' | g' | g']]; cbn; try reflexivity.
    apply IH. intros a' g0 Ha. apply H. now right.
Qed.

(* ================================================================== *)
(** * The search *)
(* ================================================================== *)

Lemma find_split {A} (f : A -> bool) (l : list A) (x : A) :
  find f l = Some x ->
  exists l1 l2, l = l1 ++ x :: l2 /\ Forall (fun a => f a = false) l1 /\ f x = true.
Proof.
  induction l as [| a l IH]; cbn [find]; [discriminate |].
  destruct (f a) eqn:E.
  - intro H. inversion H; subst. exists [], l. repeat split; auto.
  - intro H. destruct (IH H) as (l1 & l2 & -> & Hl & Hx).
    exists (a :: l1), l2. repeat split; auto.
Qed.

Lemma find_none_all {A} (f : A -> bool) (l : list A) :
  find f l = None -> forall a, In a l -> f a = false.
Proof. intros H a Ha. exact (find_none f l H a Ha). Qed.

Section Search.

Variable graph : Graph.
Variable tool : Kissnp2.
Variable tables : NucleotideTables.
Variable filter : string -> string -> Z.
Variable T : Type.
Variable tv : TraversalOps T.
Variable m : Z.

Local Abbreviation expand_ := (expand graph tool tables filter tv m).
Local Abbreviation expand_rec_ := (expand_rec graph tool tables filter tv m).
Local Abbreviation body_ := (expand_body graph tool tables filter tv m).
Local Abbreviation k := (getKmerSize graph).

Lemma expand_body_rec_ext rec1 rec2 pos n1 n2 p1 p2 succ (s : State T) :
  (pos < k - 1 ->
   rec1 (pos + 1) (fst succ) (snd succ) n1 n2 s
   = rec2 (pos + 1) (fst succ) (snd succ) n1 n2 s) ->
  body_ rec1 pos n1 n2 p1 p2 succ s = body_ rec2 pos n1 n2 p1 p2 succ s.
Proof.
  intro H. unfold expand_body, sizeKmer.
  destruct (negb _); [reflexivity |].
  destruct (Z.ltb_spec pos (k - 1)) as [Hlt | Hge]; [| reflexivity].
  rewrite (H Hlt). reflexivity.
Qed.

Lemma expand_body_skip rec pos n1 n2 p1 p2 succ (s : State T) :
  survives p1 p2 n1 n2 succ = false ->
  body_ rec pos n1 n2 p1 p2 succ s = ret (Continue s).
Proof.
  unfold survives, expand_body. intros ->. reflexivity.
Qed.

Lemma expand_fuel_succ pos :
  pos < k - 1 ->
  Z.to_nat (k - 1 - pos) = expand_fuel graph (pos + 1).
Proof. intro H. unfold expand_fuel, sizeKmer. lia. Qed.

(** The recursive equation of [expand], free of the recursion budget. *)
Lemma expand_unfold pos n1 n2 p1 p2 (s : State T) :
  pos <= k - 1 ->
  expand_ pos n1 n2 p1 p2 s
  = if negb (checkBranching graph tool n1 n2) then ret s
    else (r <- for_each (body_ expand_ pos n1 n2 p1 p2)
                        (successors2 graph n1 n2) s ;;
          ret (snd r)).
Proof.
  intro Hpos. unfold expand at 1. unfold expand_fuel. cbn [expand_rec].
  unfold sizeKmer.
  replace (pos <=? k - 1) with true by (symmetry; apply Z.leb_le; lia).
  cbn [negb]. destruct (negb (checkBranching graph tool n1 n2)); [reflexivity |].
  f_equal. apply for_each_ext. intros a s0 _.
  apply expand_body_rec_ext. intro Hlt.
  rewrite (expand_fuel_succ pos Hlt). reflexivity.
Qed.

Lemma expand_assert pos n1 n2 p1 p2 (s : State T) :
  k - 1 < pos -> expand_ pos n1 n2 p1 p2 s = fail AssertionFailed.
Proof.
  intro Hpos. unfold expand, expand_fuel. cbn [expand_rec]. unfold sizeKmer.
  replace (pos <=? k - 1) with false by (symmetry; apply Z.leb_gt; lia).
  reflexivity.
Qed.

(** Below the last position and under policy 0 or 1, the loop leaves
    by [break] right after the recursive call on the first pair that
    passes the guard. *)
Lemma expand_loop_first_survivor pos n1 n2 p1 p2 l1 next l2 (s : State T) :
  authorised_branching tool = 0 \/ authorised_branching tool = 1 ->
  pos < k - 1 ->
  Forall (fun p => survives p1 p2 n1 n2 p = false) l1 ->
  survives p1 p2 n1 n2 next = true ->
  for_each (body_ expand_ pos n1 n2 p1 p2) (l1 ++ next :: l2) s
  = (s' <- expand_ (pos + 1) (fst next) (snd next) n1 n2 s ;;
     ret (ByBreak, s')).
Proof.
  intros Hab Hpos Hl1 Hnext.
  rewrite for_each_app, for_each_skip.
  2:{ intros a Ha. apply expand_body_skip.
      rewrite Forall_forall in Hl1. now apply Hl1. }
  cbn [bind ret fst snd for_each].
  unfold expand_body at 1. fold (survives p1 p2 n1 n2 next).
  rewrite Hnext. cbn [negb]. unfold sizeKmer.
  replace (pos <? k - 1) with true by (symmetry; apply Z.ltb_lt; lia).
  destruct (expand_ (pos + 1) (fst next) (snd next) n1 n2 s) as [e | s'];
    cbn [bind ret]; [reflexivity |].
  replace ((authorised_branching tool =? 0) || (authorised_branching tool =? 1))
    with true.
  - reflexivity.
  - symmetry. apply orb_true_iff. rewrite !Z.eqb_eq. exact Hab.
Qed.

(** At the last position, a pair that passes the guard and fails the
    branching gate makes the iteration [return], the state untouched. *)
Lemma expand_body_terminal_gate rec pos n1 n2 p1 p2 next (s : State T) :
  pos = k - 1 ->
  survives p1 p2 n1 n2 next = true ->
  checkBranching graph tool (fst next) (snd next) = false ->
  body_ rec pos n1 n2 p1 p2 next s = ret (Return s).
Proof.
  intros Hpos Hnext Hgate. unfold expand_body.
  fold (survives p1 p2 n1 n2 next). rewrite Hnext. cbn [negb]. unfold sizeKmer.
  replace (pos <? k - 1) with false by (symmetry; apply Z.ltb_ge; lia).
  rewrite Hgate. reflexivity.
Qed.

End Search.

Arguments expand_unfold graph tool tables filter {T} tv m pos n1 n2 p1 p2 s _.
Arguments expand_assert graph tool tables filter {T} tv m pos n1 n2 p1 p2 s _.
Arguments expand_loop_first_survivor graph tool tables filter {T} tv m
  pos n1 n2 p1 p2 l1 next l2 s _ _ _ _.
Arguments expand_body_terminal_gate graph tool tables filter {T} tv m
  rec pos n1 n2 p1 p2 next s _ _ _.
Arguments expand_body_skip graph tool tables filter {T} tv m
  rec pos n1 n2 p1 p2 succ s _.

(** C3.  Under branching policy 0 or 1 and below the last position
    (0 <= pos < k-1), a call to [expand] whose branching gate passes
    makes at most one recursive call: none when no joint-successor pair
    passes the node-difference guard, and otherwise exactly the call on
    the first pair that passes it, after which the loop is left by
    [break] whatever pairs remain. *)
Theorem expand_first_surviving_pair_only
    (graph : Graph) (tool : Kissnp2) (tables : NucleotideTables)
    (filter : string -> string -> Z) (T : Type) (tv : TraversalOps T) (m : Z)
    (pos : Z) (n1 n2 p1 p2 : Node) (s : State T) :
  authorised_branching tool = 0 \/ authorised_branching tool = 1 ->
  0 <= pos < getKmerSize graph - 1 ->
  expand graph tool tables filter tv m pos n1 n2 p1 p2 s
  = (if negb (checkBranching graph tool n1 n2) then ret s
     else match find (survives p1 p2 n1 n2) (successors2 graph n1 n2) with
          | Some next =>
              expand graph tool tables filter tv m (pos + 1)
                     (fst next) (snd next) n1 n2 s
          | None => ret s
          end)
  /\ (forall l1 next l2,
         Forall (fun p => survives p1 p2 n1 n2 p = false) l1 ->
         survives p1 p2 n1 n2 next = true ->
         for_each (expand_body graph tool tables filter tv m
                     (expand graph tool tables filter tv m) pos n1 n2 p1 p2)
                  (l1 ++ next :: l2) s
         = (s' <- expand graph tool tables filter tv m (pos + 1)
                         (fst next) (snd next) n1 n2 s ;;
            ret (ByBreak, s'))).
Proof.
  intros Hab [_ Hpos]. split.
  - rewrite expand_unfold by lia.
    destruct (negb (checkBranching graph tool n1 n2)); [reflexivity |].
    destruct (find (survives p1 p2 n1 n2) (successors2 graph n1 n2))
      as [next |] eqn:E.
    + destruct (find_split _ _ _ E) as (l1 & l2 & -> & Hl1 & Hnext).
      rewrite (expand_loop_first_survivor graph tool tables filter tv m
                 pos n1 n2 p1 p2 l1 next l2 s Hab Hpos Hl1 Hnext).
      destruct (expand graph tool tables filter tv m (pos + 1)
                       (fst next) (snd next) n1 n2 s); reflexivity.
    + rewrite for_each_skip; [reflexivity |].
      intros a Ha. apply expand_body_skip. now apply (find_none_all _ _ E).
  - intros l1 next l2. now apply expand_loop_first_survivor.
Qed.

(** C4.  At the last position, when the branching gate fails on a pair
    of joint successors that passed the node-difference guard, the
    iteration returns out of [expand] with the state as it was on
    reaching that pair: the loop is left by [return] and none of the
    pairs that follow is examined, so the call yields that state. *)
Theorem expand_terminal_gate_returns
    (graph : Graph) (tool : Kissnp2) (tables : NucleotideTables)
    (filter : string -> string -> Z) (T : Type) (tv : TraversalOps T) (m : Z)
    (pos : Z) (n1 n2 p1 p2 : Node) (next : Node * Node) :
  0 <= pos ->
  pos = getKmerSize graph - 1 ->
  survives p1 p2 n1 n2 next = true ->
  checkBranching graph tool (fst next) (snd next) = false ->
  (forall rec s,
      expand_body graph tool tables filter tv m rec pos n1 n2 p1 p2 next s
      = ret (Return s))
  /\ (forall rec l1 l2 s s1,
         for_each (expand_body graph tool tables filter tv m rec pos n1 n2 p1 p2)
                  l1 s = ret (Exhausted, s1) ->
         for_each (expand_body graph tool tables filter tv m rec pos n1 n2 p1 p2)
                  (l1 ++ next :: l2) s = ret (ByReturn, s1))
  /\ (forall l1 l2 s s1,
         checkBranching graph tool n1 n2 = true ->
         successors2 graph n1 n2 = l1 ++ next :: l2 ->
         for_each (expand_body graph tool tables filter tv m
                     (expand graph tool tables filter tv m) pos n1 n2 p1 p2)
                  l1 s = ret (Exhausted, s1) ->
         expand graph tool tables filter tv m pos n1 n2 p1 p2 s = ret s1).
Proof.
  intros _ Hpos Hnext Hgate.
  assert (Hbody : forall rec s,
             expand_body graph tool tables filter tv m rec pos n1 n2 p1 p2 next s
             = ret (Return s))
    by (intros; now apply expand_body_terminal_gate).
  assert (Hloop : forall rec l1 l2 s s1,
             for_each (expand_body graph tool tables filter tv m rec pos n1 n2 p1 p2)
                      l1 s = ret (Exhausted, s1) ->
             for_each (expand_body graph tool tables filter tv m rec pos n1 n2 p1 p2)
                      (l1 ++ next :: l2) s = ret (ByReturn, s1)).
  { intros rec l1 l2 s s1 H. rewrite for_each_app, H. cbn [bind ret fst snd for_each].
    rewrite Hbody. reflexivity. }
  split; [exact Hbody | split; [exact Hloop |]].
  intros l1 l2 s s1 Hg Hs H.
  rewrite expand_unfold by lia. rewrite Hg, Hs. cbn [negb].
  rewrite (Hloop _ l1 l2 s s1 H). reflexivity.
Qed.

(* ================================================================== *)
(** * Emitted bubbles *)
(* ================================================================== *)

Lemma extends_refl graph {T} (g : State T * list Emission) : extends graph g g.
Proof.
  split; [reflexivity |]. exists []. cbn. rewrite !app_nil_r. auto.
Qed.

Lemma extends_trans graph {T} (g1 g2 g3 : State T * list Emission) :
  extends graph g1 g2 -> extends graph g2 g3 -> extends graph g1 g3.
Proof.
  intros [B1 (n1 & L1 & K1 & F1)] [B2 (n2 & L2 & K2 & F2)].
  split; [congruence |]. exists (n1 ++ n2).
  rewrite L2, L1, K2, K1, flat_map_app, <- !app_assoc.
  repeat split. apply Forall_app. now split.
Qed.

Lemma checkNodesDiff_true (p n next : Node) :
  checkNodesDiff p n next = true -> kmer next <> kmer n /\ kmer next <> kmer p.
Proof.
  unfold checkNodesDiff. rewrite andb_true_iff, !negb_true_iff, !Z.eqb_neq. tauto.
Qed.

Lemma hist_ok_path pos n p first h next :
  hist_ok pos n p first h ->
  kmer next <> kmer n -> kmer next <> kmer p ->
  path_ok (pos + 1) (h ++ [next]) first next
  /\ hist_ok (pos + 1) next n first (h ++ [next]).
Proof.
  intros (Hlen & Hhd & Hlast & Hprev & Hd1 & Hd2) Hn Hp.
  assert (Hne : h <> []) by (intro E; subst h; discriminate Hhd).
  assert (Hpos : (1 <= List.length h)%nat)
    by (destruct h; [contradiction | cbn; lia]).
  assert (L : Z.of_nat (List.length (h ++ [next])) = pos + 1)
    by (rewrite length_app; cbn; lia).
  assert (H0 : hd_error (h ++ [next]) = Some first)
    by (destruct h; [contradiction | exact Hhd]).
  assert (Hl : nth_error (h ++ [next]) (pred (List.length (h ++ [next])))
               = Some next).
  { rewrite length_app. cbn [List.length]. rewrite Nat.add_1_r. cbn [pred].
    rewrite nth_error_app2 by lia. now rewrite Nat.sub_diag. }
  assert (D1 : differs_from_previous (h ++ [next])).
  { intros i a b Ha Hb.
    destruct (Nat.lt_ge_cases (S i) (List.length h)) as [Hlt | Hge].
    - rewrite nth_error_app1 in Ha, Hb by lia. exact (Hd1 i a b Ha Hb).
    - assert (S i = List.length h).
      { apply Nat.le_antisymm; [| assumption].
        assert (nth_error (h ++ [next]) (S i) <> None) as Hx by congruence.
        apply nth_error_Some in Hx. rewrite length_app in Hx. cbn in Hx. lia. }
      rewrite nth_error_app1 in Ha by lia.
      rewrite nth_error_app2 in Hb by lia.
      replace (S i - List.length h)%nat with 0%nat in Hb by lia.
      cbn in Hb. inversion Hb; subst b.
      replace i with (pred (List.length h)) in Ha by lia.
      rewrite Hlast in Ha. inversion Ha; subst a. assumption. }
  assert (D2 : differs_from_second_previous (h ++ [next])).
  { intros i a c Ha Hc.
    destruct (Nat.lt_ge_cases (S (S i)) (List.length h)) as [Hlt | Hge].
    - rewrite nth_error_app1 in Ha, Hc by lia. exact (Hd2 i a c Ha Hc).
    - assert (S (S i) = List.length h).
      { apply Nat.le_antisymm; [| assumption].
        assert (nth_error (h ++ [next]) (S (S i)) <> None) as Hx by congruence.
        apply nth_error_Some in Hx. rewrite length_app in Hx. cbn in Hx. lia. }
      rewrite nth_error_app1 in Ha by lia.
      rewrite nth_error_app2 in Hc by lia.
      replace (S (S i) - List.length h)%nat with 0%nat in Hc by lia.
      cbn in Hc. inversion Hc; subst c.
      replace i with (List.length h - 2)%nat in Ha by lia.
      rewrite Hprev in Ha by lia. inversion Ha; subst a. assumption. }
  split.
  - repeat split; assumption.
  - repeat split; try assumption.
    intros _. rewrite length_app. cbn [List.length].
    replace (List.length h + 1 - 2)%nat with (pred (List.length h)) by lia.
    rewrite nth_error_app1 by lia. exact Hlast.
Qed.

Lemma extend_fields graph tool {T} (tv : TraversalOps T) b t r b' t' :
  extend graph tool tv b t = ret (r, b', t') ->
  r = true /\ begin b' = begin b /\ end_ b' = end_ b /\ score b' = score b
  /\ 0 <= where_to_extend b' <= 3.
Proof.
  intro H.
  assert (Hc : forall cl cr b1,
             begin b1 = begin b -> end_ b1 = end_ b -> score b1 = score b ->
             begin (extend_close cl cr b1) = begin b
             /\ end_ (extend_close cl cr b1) = end_ b
             /\ score (extend_close cl cr b1) = score b
             /\ 0 <= where_to_extend (extend_close cl cr b1) <= 3).
  { intros cl cr b1 Hb He Hs.
    pose proof (extend_close_fields cl cr b1) as F. cbv zeta in F.
    destruct F as (_ & _ & _ & Hw & _ & _ & _ & _ & Fb & Fe & Fs).
    repeat split; try congruence; lia. }
  destruct (traversalKind tool) eqn:Ek.
  - rewrite (extend_NONE graph tool tv b t Ek) in H.
    inversion H; subst. split; [reflexivity |]. now apply Hc.
  - destruct (successors graph (fst (end_ b))) as [| s0 ss] eqn:Hs;
      [rewrite extend_out_of_bounds in H by (congruence || now right);
       discriminate |].
    destruct (predecessors graph (fst (begin b))) as [| p0 ps] eqn:Hp;
      [rewrite extend_out_of_bounds in H by (congruence || now left);
       discriminate |].
    rewrite (extend_traversing graph tool tv b t s0 ss p0 ps) in H
      by congruence.
    inversion H; subst. split; [reflexivity |]. now apply Hc.
  - destruct (successors graph (fst (end_ b))) as [| s0 ss] eqn:Hs;
      [rewrite extend_out_of_bounds in H by (congruence || now right);
       discriminate |].
    destruct (predecessors graph (fst (begin b))) as [| p0 ps] eqn:Hp;
      [rewrite extend_out_of_bounds in H by (congruence || now left);
       discriminate |].
    rewrite (extend_traversing graph tool tv b t s0 ss p0 ps) in H
      by congruence.
    inversion H; subst. split; [reflexivity |]. now apply Hc.
Qed.

Lemma finish_fields graph tool tables m b st b' st' :
  finish graph tool tables m b st = ret (b', st') ->
  begin b' = begin b /\ end_ b' = end_ b.
Proof.
  unfold finish.
  destruct (buildSequence graph tool tables (set_index _ b) 0 "higher" _)
    as [e | s1]; [discriminate |]. cbn [bind].
  destruct (buildSequence graph tool tables (set_seq1 s1 _) 1 "lower" _)
    as [e | s2]; [discriminate |]. cbn [bind].
  destruct (vec_incr _ _ _) as [e | w]; [discriminate |]. cbn [bind].
  destruct (_ <? _); intro H; inversion H; subst; split; reflexivity.
Qed.

Section Ghost.

Variable graph : Graph.
Variable tool : Kissnp2.
Variable tables : NucleotideTables.
Variable filter : string -> string -> Z.
Variable T : Type.
Variable tv : TraversalOps T.
Variable m : Z.

Local Abbreviation k := (getKmerSize graph).
Local Abbreviation GS := (State T * list Emission)%type.

Lemma checkPath_fields (b b' : Bubble) :
  begin b' = begin b -> end_ b' = end_ b ->
  checkPath graph b' = checkPath graph b.
Proof. unfold checkPath. intros -> ->. reflexivity. Qed.

Lemma expand_body_g_extends
    (recg : Z -> Node -> Node -> Node -> Node -> list Node -> list Node
            -> GS -> res GS)
    pos n1 n2 p1 p2 h1 h2 next (g : GS) r :
  (forall g',
      hist_ok (pos + 1) (fst next) n1 (fst (begin (bubble (fst g)))) (h1 ++ [fst next]) ->
      hist_ok (pos + 1) (snd next) n2 (snd (begin (bubble (fst g)))) (h2 ++ [snd next]) ->
      recg (pos + 1) (fst next) (snd next) n1 n2
           (h1 ++ [fst next]) (h2 ++ [snd next]) g = ret g' ->
      extends graph g g') ->
  pos <= k - 1 ->
  hist_ok pos n1 p1 (fst (begin (bubble (fst g)))) h1 ->
  hist_ok pos n2 p2 (snd (begin (bubble (fst g)))) h2 ->
  expand_body_g graph tool tables filter tv m recg pos n1 n2 p1 p2 h1 h2 next g
  = ret r ->
  extends graph g (step_state r).
Proof.
  intros Hrec Hpos H1 H2. unfold expand_body_g.
  destruct (checkNodesDiff p1 n1 (fst next)) eqn:G1;
    [| cbn [andb negb]; intro H; inversion H; apply extends_refl].
  destruct (checkNodesDiff p2 n2 (snd next)) eqn:G2;
    [| cbn [andb negb]; intro H; inversion H; apply extends_refl].
  cbn [andb negb].
  apply checkNodesDiff_true in G1, G2.
  destruct (hist_ok_path _ _ _ _ _ (fst next) H1 (proj1 G1) (proj2 G1)) as [P1 K1].
  destruct (hist_ok_path _ _ _ _ _ (snd next) H2 (proj1 G2) (proj2 G2)) as [P2 K2].
  unfold sizeKmer.
  destruct (Z.ltb_spec pos (k - 1)) as [Hlt | Hge].
  - destruct (recg _ _ _ _ _ _ _ g) as [e | g'] eqn:E; [discriminate |].
    cbn [bind]. pose proof (Hrec g' K1 K2 eq_refl) as X.
    destruct (_ || _); intro H; inversion H; exact X.
  - assert (pos + 1 = k) as Hk by lia. rewrite Hk in P1, P2.
    destruct (checkBranching graph tool (fst next) (snd next));
      [| cbn [negb]; intro H; inversion H; apply extends_refl].
    cbn [negb].
    set (b0 := set_end (fst next, snd next) (bubble (fst g))).
    destruct (checkPath graph b0) eqn:CP.
    2:{ intro H; inversion H. cbn [step_state]. split; [reflexivity |].
        exists []. cbn. rewrite !app_nil_r. auto. }
    destruct (checkLowComplexity graph tool filter b0) as [ok b1] eqn:CL.
    assert (Hb1 : b1 = snd (checkLowComplexity graph tool filter b0))
      by (rewrite CL; reflexivity).
    rewrite checkLowComplexity_bubble in Hb1.
    destruct ok.
    2:{ intro H; inversion H. cbn [step_state]. split; [subst b1; reflexivity |].
        exists []. cbn. rewrite !app_nil_r. auto. }
    destruct (extend graph tool tv b1 (trav (fst g))) as [e | [[ext b2] t2]] eqn:EX;
      [discriminate |].
    cbn [bind]. apply extend_fields in EX.
    destruct EX as (-> & Eb & Ee & _ & _).
    destruct (finish graph tool tables m b2 (stats (fst g))) as [e | [b3 st3]] eqn:FI;
      [discriminate |].
    cbn [bind]. intro H; inversion H. cbn [step_state fst snd bubble stats].
    pose proof (finish_fields _ _ _ _ _ _ _ _ FI) as [Fb Fe].
    apply finish_inv in FI. destruct FI as (_ & _ & _ & _ & Bk).
    assert (Bg : begin b3 = begin (bubble (fst g)))
      by (rewrite Fb, Eb, Hb1; reflexivity).
    assert (Eg : end_ b3 = (fst next, snd next))
      by (rewrite Fe, Ee, Hb1; reflexivity).
    split; [exact Bg |].
    exists [mkEmission b3 (h1 ++ [fst next]) (h2 ++ [snd next])].
    split; [reflexivity | split].
    + cbn [fst snd stats]. rewrite Bk. reflexivity.
    + constructor; [| constructor].
      unfold emission_ok. cbn [em_bubble em_path1 em_path2].
      rewrite Bg, Eg. cbn [fst snd]. split; [| split; assumption].
      rewrite <- CP. apply checkPath_fields; [exact Bg | rewrite Eg; reflexivity].
Qed.

Lemma expand_rec_g_extends fuel :
  forall pos n1 n2 p1 p2 h1 h2 (g g' : GS),
    hist_ok pos n1 p1 (fst (begin (bubble (fst g)))) h1 ->
    hist_ok pos n2 p2 (snd (begin (bubble (fst g)))) h2 ->
    expand_rec_g graph tool tables filter tv m fuel pos n1 n2 p1 p2 h1 h2 g = ret g' ->
    extends graph g g'.
Proof.
  induction fuel as [| fuel IH]; intros pos n1 n2 p1 p2 h1 h2 g g' H1 H2;
    cbn [expand_rec_g]; [discriminate |].
  unfold sizeKmer.
  destruct (Z.leb_spec pos (k - 1)) as [Hpos | Hpos]; [| discriminate].
  cbn [negb].
  destruct (checkBranching graph tool n1 n2);
    [| cbn [negb]; intro H; inversion H; apply extends_refl].
  cbn [negb]. cbv zeta.
  match goal with
  | |- context [for_each ?body ?l g] =>
      destruct (for_each body l g) as [e | [ex g1]] eqn:E; [discriminate |]
  end.
  cbn [bind ret snd]. intro H; inversion H; subst g1.
  eapply (for_each_preserves (extends graph g)); [| apply extends_refl | exact E].
  intros a s r _ Hs Hb. apply (extends_trans graph g s _ Hs).
  destruct Hs as [Bs _].
  eapply expand_body_g_extends; [| exact Hpos | | | exact Hb].
  - intros g0 K1 K2 Hr. exact (IH _ _ _ _ _ _ _ _ _ K1 K2 Hr).
  - rewrite Bs. exact H1.
  - rewrite Bs. exact H2.
Qed.

Lemma hist_ok_start (node : Node) :
  hist_ok 1 node Node_bad node [node].
Proof.
  repeat split; try reflexivity.
  - cbn. lia.
  - intros i a b Ha Hb. destruct i; discriminate Hb.
  - intros i a b Ha Hb. destruct i; discriminate Hb.
Qed.

Lemma start_g_iteration (node mu : Node) (g x x' : GS) :
  start_inv graph node g x ->
  expand_g graph tool tables filter tv m 1 node mu Node_bad Node_bad [node] [mu]
           (set_bubble (set_begin (fst (begin (bubble (fst x))), mu) (bubble (fst x)))
                       (fst x),
            snd x)
  = ret x' ->
  start_inv graph node g x'.
Proof.
  intros (Hn & new & L & B & F) EG.
  apply expand_rec_g_extends in EG.
  - destruct EG as [Bg (new' & L' & B' & F')].
    cbn [fst snd stats bubble set_bubble begin set_begin] in L', B', Bg.
    split.
    + rewrite Bg. exact Hn.
    + exists (new ++ new').
      rewrite L', B', L, B, flat_map_app, <- !app_assoc.
      repeat split. apply Forall_app. now split.
  - cbn [fst snd bubble set_bubble begin set_begin]. rewrite Hn.
    apply hist_ok_start.
  - cbn [fst snd bubble set_bubble begin set_begin]. apply hist_ok_start.
Qed.

Lemma start_g_extends (node : Node) (g g' : GS) :
  start_g graph tool tables filter tv m node g = ret g' ->
  exists new,
    snd g' = snd g ++ new
    /\ _outputBank (stats (fst g'))
       = _outputBank (stats (fst g)) ++ flat_map emission_seqs new
    /\ Forall (emission_ok graph) new.
Proof.
  unfold start_g.
  set (g0 := (set_bubble _ (fst g), snd g)).
  match goal with
  | |- context [for_each ?body ?l g0] =>
      destruct (for_each body l g0) as [e | [ex g1]] eqn:E; [discriminate |]
  end.
  cbn [bind ret snd]. intro H; inversion H; subst g1.
  apply (proj2 (A := fst (begin (bubble (fst g'))) = node)).
  change (start_inv graph node g g').
  eapply (for_each_preserves (start_inv graph node g)); [| | exact E].
  - intros mu x r _ Hx. cbv beta.
    match goal with
    | |- context [bind ?c _] => destruct c as [e | x'] eqn:EG; [discriminate |]
    end.
    cbn [bind ret]. intro Hr; inversion Hr. cbn [step_state].
    exact (start_g_iteration node mu g x x' Hx EG).
  - split; [reflexivity |]. exists []. subst g0. cbn.
    rewrite !app_nil_r. auto.
Qed.

Lemma expand_body_g_erase
    (recg : Z -> Node -> Node -> Node -> Node -> list Node -> list Node
            -> GS -> res GS)
    (rec : Z -> Node -> Node -> Node -> Node -> State T -> res (State T))
    pos n1 n2 p1 p2 h1 h2 next (g : GS) :
  (forall g0,
      res_map fst (recg (pos + 1) (fst next) (snd next) n1 n2
                        (h1 ++ [fst next]) (h2 ++ [snd next]) g0)
      = rec (pos + 1) (fst next) (snd next) n1 n2 (fst g0)) ->
  res_map (step_map fst)
          (expand_body_g graph tool tables filter tv m recg pos n1 n2 p1 p2 h1 h2 next g)
  = expand_body graph tool tables filter tv m rec pos n1 n2 p1 p2 next (fst g).
Proof.
  intro Hrec. unfold expand_body_g, expand_body.
  destruct (negb _); [reflexivity |].
  destruct (pos <? sizeKmer graph - 1).
  - rewrite <- Hrec.
    destruct (recg _ _ _ _ _ _ _ g) as [e | g']; cbn [bind res_map]; [reflexivity |].
    destruct (_ || _); reflexivity.
  - destruct (negb _); [reflexivity |].
    destruct (checkPath graph _); [| reflexivity].
    destruct (checkLowComplexity graph tool filter _) as [[] b1]; [| reflexivity].
    destruct (extend graph tool tv b1 (trav (fst g))) as [e | [[[] b2] t2]];
      cbn [bind res_map]; try reflexivity.
    destruct (finish graph tool tables m b2 (stats (fst g))) as [e | [b3 st3]];
      reflexivity.
Qed.

Lemma expand_rec_g_erase fuel :
  forall pos n1 n2 p1 p2 h1 h2 (g : GS),
    res_map fst (expand_rec_g graph tool tables filter tv m fuel
                              pos n1 n2 p1 p2 h1 h2 g)
    = expand_rec graph tool tables filter tv m fuel pos n1 n2 p1 p2 (fst g).
Proof.
  induction fuel as [| fuel IH]; intros pos n1 n2 p1 p2 h1 h2 g;
    cbn [expand_rec_g expand_rec]; [reflexivity |].
  destruct (negb (pos <=? _)); [reflexivity |].
  destruct (negb (checkBranching graph tool n1 n2)); [reflexivity |].
  cbv zeta.
  rewrite <- (for_each_erase fst
                (expand_body_g graph tool tables filter tv m
                   (expand_rec_g graph tool tables filter tv m fuel)
                   pos n1 n2 p1 p2 h1 h2)
                (expand_body graph tool tables filter tv m
                   (expand_rec graph tool tables filter tv m fuel)
                   pos n1 n2 p1 p2)).
  - symmetry. apply res_map_bind_snd.
  - intros a g0 _. apply expand_body_g_erase. intro g1. apply IH.
Qed.

(** Erasing the ghost paths and the log of [expand_g] gives [expand]. *)
Lemma expand_g_erase pos n1 n2 p1 p2 h1 h2 (g : GS) :
  res_map fst (expand_g graph tool tables filter tv m pos n1 n2 p1 p2 h1 h2 g)
  = expand graph tool tables filter tv m pos n1 n2 p1 p2 (fst g).
Proof. apply expand_rec_g_erase. Qed.

(** Erasing the ghost paths and the log of [start_g] gives [start]. *)
Lemma start_g_erase node (g : GS) :
  res_map fst (start_g graph tool tables filter tv m node g)
  = start graph tool tables filter tv m node (fst g).
Proof.
  unfold start_g, start.
  set (g0 := (set_bubble _ (fst g), snd g)).
  change (set_bubble (set_begin (node, snd (begin (bubble (fst g)))) (bubble (fst g)))
                     (fst g))
    with (fst g0).
  rewrite <- (for_each_erase fst
                (fun mu (x : GS) =>
                   x' <- expand_g graph tool tables filter tv m 1 node mu
                                  Node_bad Node_bad [node] [mu]
                                  (set_bubble (set_begin (fst (begin (bubble (fst x))), mu)
                                                         (bubble (fst x))) (fst x),
                                   snd x) ;;
                   ret (Continue x'))).
  - symmetry. apply res_map_bind_snd.
  - intros mu x _. cbv beta.
    pose proof (expand_g_erase 1 node mu Node_bad Node_bad [node] [mu]
                  (set_bubble (set_begin (fst (begin (bubble (fst x))), mu)
                                         (bubble (fst x))) (fst x),
                   snd x)) as E.
    cbn [fst] in E. rewrite <- E.
    destruct (expand_g _ _ _ _ _ _ _ _ _ _ _ _ _ _) as [e | x']; reflexivity.
Qed.

End Ghost.

(* ================================================================== *)
(** * The recursion budget is never exhausted *)
(* ================================================================== *)

Lemma at2_fail p i e : at2 p i = fail e -> e = OutOfBounds.
Proof.
  unfold at2. destruct (i =? 0); [discriminate |].
  destruct (i =? 1); [discriminate |]. intro H; now inversion H.
Qed.

Lemma copy_chars_fail s n : forall from e,
  copy_chars s from n = fail e -> e = OutOfBounds.
Proof.
  induction n as [| n IH]; intros from e; cbn [copy_chars]; [discriminate |].
  unfold str_at. destruct (String.get from s).
  - cbn [bind ret]. destruct (copy_chars s (S from) n) as [e' |] eqn:E;
      [| discriminate].
    cbn [bind]. intro H; inversion H; subst. now apply (IH (S from)).
  - destruct (Nat.eqb from (String.length s)); cbn [bind ret].
    + destruct (copy_chars s (S from) n) as [e' |] eqn:E; [| discriminate].
      cbn [bind]. intro H; inversion H; subst. now apply (IH (S from)).
    + intro H; now inversion H.
Qed.

Lemma buildSequence_fail graph tool tables b i type seq e :
  buildSequence graph tool tables b i type seq = fail e -> e = OutOfBounds.
Proof.
  unfold buildSequence.
  destruct (at2 (begin b) i) as [e1 | nb] eqn:E1;
    [cbn [bind]; intro H; inversion H; subst; now apply at2_fail in E1 |].
  destruct (at2 (end_ b) i) as [e2 | ne] eqn:E2;
    [cbn [bind]; intro H; inversion H; subst; now apply at2_fail in E2 |].
  cbn [bind].
  destruct (copy_chars (toString graph nb) 0 _) as [e3 | oB] eqn:E3;
    [cbn [bind]; intro H; inversion H; subst; now apply copy_chars_fail in E3 |].
  destruct (copy_chars (toString graph ne) 0 _) as [e4 | oE] eqn:E4;
    [cbn [bind]; intro H; inversion H; subst; now apply copy_chars_fail in E4 |].
  cbn [bind]. destruct (_ <? _)%nat; [| discriminate].
  intro H; now inversion H.
Qed.

Lemma vec_at_fail {A} (v : list A) i e : vec_at v i = fail e -> e = OutOfBounds.
Proof.
  unfold vec_at. destruct (_ || _); [intro H; now inversion H |].
  destruct (nth_error v (Z.to_nat i)); [discriminate | intro H; now inversion H].
Qed.

Lemma finish_fail graph tool tables m b st e :
  finish graph tool tables m b st = fail e -> e = OutOfBounds.
Proof.
  unfold finish.
  destruct (buildSequence graph tool tables (set_index _ b) 0 "higher" _)
    as [e1 | s1] eqn:E1;
    [cbn [bind]; intro H; inversion H; subst; now apply buildSequence_fail in E1 |].
  cbn [bind].
  destruct (buildSequence graph tool tables (set_seq1 s1 _) 1 "lower" _)
    as [e2 | s2] eqn:E2;
    [cbn [bind]; intro H; inversion H; subst; now apply buildSequence_fail in E2 |].
  cbn [bind]. unfold vec_incr.
  destruct (vec_at _ _) as [e3 | x] eqn:E3;
    [cbn [bind]; intro H; inversion H; subst; now apply vec_at_fail in E3 |].
  cbn [bind ret]. destruct (_ <? _); discriminate.
Qed.

Lemma extend_fail graph tool {T} (tv : TraversalOps T) b t e :
  extend graph tool tv b t = fail e -> e = OutOfBounds.
Proof.
  destruct (extend_cases graph tool tv b t) as [E | (cl & cr & b1 & t' & E)];
    rewrite E; [intro H; now inversion H | discriminate].
Qed.

Section Fuel.

Variable graph : Graph.
Variable tool : Kissnp2.
Variable tables : NucleotideTables.
Variable filter : string -> string -> Z.
Variable T : Type.
Variable tv : TraversalOps T.
Variable m : Z.

Local Abbreviation k := (getKmerSize graph).

Lemma expand_body_out_of_fuel rec pos n1 n2 p1 p2 next (s : State T) :
  expand_body graph tool tables filter tv m rec pos n1 n2 p1 p2 next s
  = fail OutOfFuel ->
  pos < k - 1
  /\ rec (pos + 1) (fst next) (snd next) n1 n2 s = fail OutOfFuel.
Proof.
  unfold expand_body, sizeKmer. destruct (negb _); [discriminate |].
  destruct (Z.ltb_spec pos (k - 1)) as [Hlt | Hge].
  - destruct (rec _ _ _ _ _ s) as [e | s'] eqn:E.
    + cbn [bind]. intro H. split; [assumption |]. inversion H. reflexivity.
    + cbn [bind]. destruct (_ || _); discriminate.
  - destruct (negb _); [discriminate |].
    destruct (checkPath graph _); [| discriminate].
    destruct (checkLowComplexity graph tool filter _) as [[] b1]; [| discriminate].
    destruct (extend graph tool tv b1 (trav s)) as [e | [[[] b2] t2]] eqn:EX;
      cbn [bind]; try discriminate.
    + intro H; inversion H; subst. apply extend_fail in EX. discriminate.
    + destruct (finish graph tool tables m b2 (stats s)) as [e | [b3 st3]] eqn:FI;
        cbn [bind]; [| discriminate].
      intro H; inversion H; subst. apply finish_fail in FI. discriminate.
Qed.

(** [expand] never stops for want of recursion budget: the budget of
    [expand_fuel] covers the k-1 positions of a path. *)
Lemma expand_never_out_of_fuel : forall (d : nat) pos n1 n2 p1 p2 (s : State T),
  Z.to_nat (k - 1 - pos) = d ->
  expand graph tool tables filter tv m pos n1 n2 p1 p2 s <> fail OutOfFuel.
Proof.
  induction d as [| d IH]; intros pos n1 n2 p1 p2 s Hd H.
  - destruct (Z.le_gt_cases pos (k - 1)) as [Hle | Hgt].
    + rewrite expand_unfold in H by assumption.
      destruct (negb _); [discriminate |].
      match type of H with
      | context [for_each ?body ?l s] =>
          destruct (for_each body l s) as [e | r] eqn:E; [| discriminate]
      end.
      cbn [bind] in H. inversion H; subst e.
      apply for_each_fail in E. destruct E as (a & s0 & _ & Hb).
      apply expand_body_out_of_fuel in Hb. lia.
    + rewrite expand_assert in H by lia. discriminate.
  - assert (pos < k - 1) as Hlt by lia.
    rewrite expand_unfold in H by lia.
    destruct (negb _); [discriminate |].
    match type of H with
    | context [for_each ?body ?l s] =>
        destruct (for_each body l s) as [e | r] eqn:E; [| discriminate]
    end.
    cbn [bind] in H. inversion H; subst e.
    apply for_each_fail in E. destruct E as (a & s0 & _ & Hb).
    apply expand_body_out_of_fuel in Hb. destruct Hb as [_ Hb].
    apply (IH (pos + 1) (fst a) (snd a) n1 n2 s0); [lia | exact Hb].
Qed.

End Fuel.

(* ================================================================== *)
(** * Invariants of the emitted bubbles *)
(* ================================================================== *)

Lemma node_at_nth_error (path : list Node) (p : Z) :
  0 <= p < Z.of_nat (List.length path) ->
  nth_error path (Z.to_nat p) = Some (node_at path p).
Proof. intro H. unfold node_at. apply nth_error_nth'. lia. Qed.

Lemma path_ok_positions (k : Z) (path : list Node) (first last : Node) :
  path_ok k path first last ->
  node_at path 0 = first
  /\ node_at path (k - 1) = last
  /\ forall p, 1 <= p <= k - 1 ->
       kmer (node_at path p) <> kmer (node_at path (p - 1))
       /\ (2 <= p -> kmer (node_at path p) <> kmer (node_at path (p - 2))).
Proof.
  intros (Hlen & Hhd & Hlast & D1 & D2).
  assert (Hne : path <> []) by (intro E; subst path; discriminate Hhd).
  assert (1 <= k) by (destruct path; [contradiction | cbn in Hlen; lia]).
  split; [| split].
  - destruct path; [contradiction |]. cbn in Hhd. inversion Hhd. reflexivity.
  - pose proof (node_at_nth_error path (k - 1)) as E.
    replace (Z.to_nat (k - 1)) with (pred (List.length path)) in E by lia.
    rewrite Hlast in E. symmetry. injection (E ltac:(lia)). auto.
  - intros p Hp. split.
    + apply (D1 (Z.to_nat (p - 1))).
      * apply node_at_nth_error. lia.
      * replace (S (Z.to_nat (p - 1))) with (Z.to_nat p) by lia.
        apply node_at_nth_error. lia.
    + intro Hp2. apply (D2 (Z.to_nat (p - 2))).
      * apply node_at_nth_error. lia.
      * replace (S (S (Z.to_nat (p - 2)))) with (Z.to_nat p) by lia.
        apply node_at_nth_error. lia.
Qed.

Lemma emission_ok_paths graph (e : Emission) :
  emission_ok graph e -> paths_differ_from_predecessors (getKmerSize graph) e.
Proof.
  intros (_ & P1 & P2).
  pose proof (path_ok_positions _ _ _ _ P1) as (A1 & B1 & C1).
  pose proof (path_ok_positions _ _ _ _ P2) as (A2 & B2 & C2).
  destruct P1 as (L1 & _). destruct P2 as (L2 & _).
  unfold paths_differ_from_predecessors. repeat split; try assumption;
    try (apply C1; assumption); try (apply C2; assumption).
Qed.

(** C2 (as amended).  Every bubble that [start] emits went, on each of
    its two paths, through k nodes from [begin[i]] to [end[i]] such that
    the node at each position from 1 to k-1 differs, as a k-mer, from its
    predecessor on the same path (and from the node two positions back).
    The log of the ghost search lists exactly the bubbles whose sequences
    the search appends to the bank. *)
Theorem emitted_paths_differ_from_predecessors
    (graph : Graph) (tool : Kissnp2) (tables : NucleotideTables)
    (filter : string -> string -> Z) (T : Type) (tv : TraversalOps T) (m : Z)
    (node : Node) (s s' : State T) (log : list Emission) :
  start_g graph tool tables filter tv m node (s, []) = ret (s', log) ->
  start graph tool tables filter tv m node s = ret s'
  /\ _outputBank (stats s') = _outputBank (stats s) ++ flat_map emission_seqs log
  /\ Forall (paths_differ_from_predecessors (getKmerSize graph)) log.
Proof.
  intro H. split; [| split].
  - pose proof (start_g_erase graph tool tables filter T tv m node (s, [])) as E.
    rewrite H in E. symmetry. exact E.
  - destruct (start_g_extends graph tool tables filter T tv m node _ _ H)
      as (new & L & B & _).
    cbn [fst snd app] in L, B. subst new. exact B.
  - destruct (start_g_extends graph tool tables filter T tv m node _ _ H)
      as (new & L & _ & F).
    cbn [fst snd app] in L. subst new.
    eapply Forall_impl; [| exact F]. intros e. apply emission_ok_paths.
Qed.

(** C5.  [checkPath] accepts exactly when the rendering of [begin[0]]
    is lexicographically below the rendering of the reverse of [end[0]]
    (characters compared by their codes).  At the last position of
    [expand], a pair on which the check fails leaves the counters and the
    bank as they were; and every bubble that [start] emits passes the
    check. *)
Theorem checkPath_gates_emission
    (graph : Graph) (tool : Kissnp2) (tables : NucleotideTables)
    (filter : string -> string -> Z) (T : Type) (tv : TraversalOps T) (m : Z) :
  (forall b,
      checkPath graph b = true
      <-> lex_lt (toString graph (fst (begin b)))
                 (toString graph (reverse graph (fst (end_ b)))))
  /\ (forall rec pos n1 n2 p1 p2 next (s : State T),
         getKmerSize graph - 1 <= pos ->
         checkPath graph (set_end (fst next, snd next) (bubble s)) = false ->
         exists r,
           expand_body graph tool tables filter tv m rec pos n1 n2 p1 p2 next s
           = ret r
           /\ stats (step_state r) = stats s)
  /\ (forall node (s s' : State T) log,
         start_g graph tool tables filter tv m node (s, []) = ret (s', log) ->
         start graph tool tables filter tv m node s = ret s'
         /\ _outputBank (stats s')
            = _outputBank (stats s) ++ flat_map emission_seqs log
         /\ Forall (fun e => checkPath graph (em_bubble e) = true) log).
Proof.
  split; [| split].
  - intro b. unfold checkPath. apply string_ltb_lex_lt.
  - intros rec pos n1 n2 p1 p2 next s Hpos Hcp. unfold expand_body, sizeKmer.
    destruct (negb _); [eexists; split; reflexivity |].
    replace (pos <? getKmerSize graph - 1) with false
      by (symmetry; apply Z.ltb_ge; lia).
    destruct (negb _); [eexists; split; reflexivity |].
    rewrite Hcp. eexists; split; reflexivity.
  - intros node s s' log H. split; [| split].
    + pose proof (start_g_erase graph tool tables filter T tv m node (s, [])) as E.
      rewrite H in E. symmetry. exact E.
    + destruct (start_g_extends graph tool tables filter T tv m node _ _ H)
        as (new & L & B & _).
      cbn [fst snd app] in L, B. subst new. exact B.
    + destruct (start_g_extends graph tool tables filter T tv m node _ _ H)
        as (new & L & _ & F).
      cbn [fst snd app] in L. subst new.
      eapply Forall_impl; [| exact F]. intros e (C & _). exact C.
Qed.

(* ================================================================== *)
(** * Runs on concrete graphs *)
(* ================================================================== *)

Local Open Scope string_scope.

(** Scenario 1 of the specification: an isolated SNP is emitted once,
    from the seed on the canonical strand only. *)
Example isolated_snp_emitted_once :
  emitted (operator_call g_snp (options 0 Traversal.NONE) DeBruijn.tables
             DeBruijn.count_repeats DeBruijn.walk_nothing word64
             (DeBruijn.node "ACCGA") DeBruijn.init)
  = ["ACCGATTGC"; "ACCGCTTGC"]
  /\ emitted (search g_snp (options 0 Traversal.NONE) "GCAAT") = []
  /\ emitted (search g_snp (options 0 Traversal.NONE) "ACCGC") = [].
Proof. repeat split; vm_compute; reflexivity. Qed.

(** A fork after the bubble: policies 0 and 1 reject it at the last
    position, policy 2 emits it. *)
Example fork_rejected_unless_policy_2 :
  emitted (search g_fork (options 0 Traversal.NONE) "ACCGA") = []
  /\ emitted (search g_fork (options 1 Traversal.NONE) "ACCGA") = []
  /\ emitted (search g_fork (options 2 Traversal.NONE) "ACCGA")
     = ["ACCGATTGC"; "ACCGCTTGC"].
Proof. repeat split; vm_compute; reflexivity. Qed.

(** Closures on both sides are rendered in lower case around the core. *)
Example flanked_snp_closures :
  emitted (search g_flanked (options 0 Traversal.UNITIG) "ACCGA")
  = ["tACCGATTGCa"; "tACCGCTTGCa"].
Proof. vm_compute. reflexivity. Qed.

(** Scenario 5: with threshold 0, the bubble is emitted only when [low]
    is set. *)
Example low_complexity_filter :
  emitted (start g_snp (mkKissnp2 0 0 false Traversal.NONE) DeBruijn.tables
             DeBruijn.count_repeats DeBruijn.walk_nothing word64
             (DeBruijn.node "ACCGA") DeBruijn.init) = []
  /\ emitted (start g_snp (mkKissnp2 0 0 true Traversal.NONE) DeBruijn.tables
                DeBruijn.count_repeats DeBruijn.walk_nothing word64
                (DeBruijn.node "ACCGA") DeBruijn.init)
     = ["ACCGATTGC"; "ACCGCTTGC"].
Proof. split; vm_compute; reflexivity. Qed.

(** C1, counterexample.  Under policy 1 the last pair of nodes of the
    bubble of [g_fork] has two joint successors forward and one on the
    reverses: the gate rejects it, although the two sides do not both
    branch. *)
Lemma checkBranching_one_side_rejected :
  checkBranching g_fork (options 1 Traversal.NONE)
                 (DeBruijn.node "ATTGC") (DeBruijn.node "CTTGC") = false
  /\ joint_forward g_fork (DeBruijn.node "ATTGC") (DeBruijn.node "CTTGC") = 2
  /\ joint_reverse g_fork (DeBruijn.node "ATTGC") (DeBruijn.node "CTTGC") = 1
  /\ ~ rejects_as_specified g_fork (options 1 Traversal.NONE)
         (DeBruijn.node "ATTGC") (DeBruijn.node "CTTGC").
Proof.
  assert (R : joint_reverse g_fork (DeBruijn.node "ATTGC") (DeBruijn.node "CTTGC") = 1)
    by (vm_compute; reflexivity).
  repeat split; try (vm_compute; reflexivity).
  unfold rejects_as_specified. rewrite R. cbn [authorised_branching options].
  intros [[H _] | [_ [_ H]]]; [discriminate | lia].
Qed.

(** C2, counterexample.  Under policy 1 the search on [g_palin] emits
    the bubble GAATC / GATTC, whose two paths hold at position 1 the
    nodes AAT and ATT, which are one k-mer read on its two strands. *)
Lemma emitted_paths_share_a_kmer :
  search_g g_palin (options 1 Traversal.NONE) "GAA" = ret palin_result
  /\ emitted (search g_palin (options 1 Traversal.NONE) "GAA") = ["GAATC"; "GATTC"]
  /\ exists e,
      snd palin_result = [e]
      /\ map (toString g_palin) (em_path1 e) = ["GAA"; "AAT"; "ATC"]
      /\ map (toString g_palin) (em_path2 e) = ["GAT"; "ATT"; "TTC"]
      /\ kmer (node_at (em_path1 e) 1) = kmer (node_at (em_path2 e) 1)
      /\ ~ paths_as_specified (getKmerSize g_palin) e.
Proof.
  split; [vm_compute; reflexivity | split; [vm_compute; reflexivity |]].
  eexists. split; [reflexivity |].
  split; [vm_compute; reflexivity |].
  split; [vm_compute; reflexivity |].
  split; [vm_compute; reflexivity |].
  intro H. destruct (H 1 ltac:(vm_compute; split; discriminate)) as [D _].
  apply D. vm_compute. reflexivity.
Qed.

(** C2, witness: the bubble emitted on [g_snp]. *)
Lemma emitted_paths_differ_witness :
  start g_snp (options 0 Traversal.NONE) DeBruijn.tables DeBruijn.count_repeats
        DeBruijn.walk_nothing word64 (DeBruijn.node "ACCGA") DeBruijn.init
  = ret (fst snp_result)
  /\ _outputBank (stats (fst snp_result))
     = (_outputBank (stats DeBruijn.init)
        ++ flat_map emission_seqs (snd snp_result))%list
  /\ Forall (paths_differ_from_predecessors (getKmerSize g_snp)) (snd snp_result).
Proof.
  apply (emitted_paths_differ_from_predecessors
           g_snp (options 0 Traversal.NONE) DeBruijn.tables DeBruijn.count_repeats
           (list Node) DeBruijn.walk_nothing word64 (DeBruijn.node "ACCGA")
           DeBruijn.init (fst snp_result) (snd snp_result)).
  vm_compute. reflexivity.
Defined.

(** C3, witness: at position 1 of the bubble of [g_snp] under policy 0,
    [expand] amounts to its call at position 2 on the only pair of joint
    successors. *)
Lemma expand_first_pair_witness :
  expand g_snp (options 0 Traversal.NONE) DeBruijn.tables DeBruijn.count_repeats
         DeBruijn.walk_nothing word64 1
         (DeBruijn.node "ACCGA") (DeBruijn.node "ACCGC") Node_bad Node_bad
         DeBruijn.init
  = expand g_snp (options 0 Traversal.NONE) DeBruijn.tables DeBruijn.count_repeats
           DeBruijn.walk_nothing word64 2
           (DeBruijn.node "CCGAT") (DeBruijn.node "CCGCT")
           (DeBruijn.node "ACCGA") (DeBruijn.node "ACCGC")
           DeBruijn.init.
Proof.
  exact (proj1 (expand_first_surviving_pair_only
                  g_snp (options 0 Traversal.NONE) DeBruijn.tables
                  DeBruijn.count_repeats (list Node) DeBruijn.walk_nothing word64 1
                  (DeBruijn.node "ACCGA") (DeBruijn.node "ACCGC") Node_bad Node_bad
                  DeBruijn.init (or_introl eq_refl)
                  (conj (Z.le_0_1) eq_refl))).
Defined.

(** C4, witness: at the last position of the bubble of [g_fork] under
    policy 0, the gate fails on the only pair of joint successors and
    [expand] returns the state it was given. *)
Lemma expand_terminal_gate_witness :
  expand g_fork (options 0 Traversal.NONE) DeBruijn.tables DeBruijn.count_repeats
         DeBruijn.walk_nothing word64 4
         (DeBruijn.node "GATTG") (DeBruijn.node "GCTTG")
         (DeBruijn.node "CGATT") (DeBruijn.node "CGCTT")
         DeBruijn.init
  = ret DeBruijn.init.
Proof.
  exact (proj2 (proj2 (expand_terminal_gate_returns
                         g_fork (options 0 Traversal.NONE) DeBruijn.tables
                         DeBruijn.count_repeats (list Node) DeBruijn.walk_nothing
                         word64 4
                         (DeBruijn.node "GATTG") (DeBruijn.node "GCTTG")
                         (DeBruijn.node "CGATT") (DeBruijn.node "CGCTT")
                         (DeBruijn.node "ATTGC", DeBruijn.node "CTTGC")
                         ltac:(lia) eq_refl eq_refl eq_refl))
               [] [] DeBruijn.init DeBruijn.init eq_refl eq_refl eq_refl).
Defined.

(** C5, witness: the bubble emitted on [g_snp] passes [checkPath]. *)
Lemma checkPath_gates_emission_witness :
  Forall (fun e => checkPath g_snp (em_bubble e) = true) (snd snp_result).
Proof.
  apply (proj2 (proj2 (checkPath_gates_emission
                         g_snp (options 0 Traversal.NONE) DeBruijn.tables
                         DeBruijn.count_repeats (list Node) DeBruijn.walk_nothing
                         word64))
               (DeBruijn.node "ACCGA") DeBruijn.init (fst snp_result)
               (snd snp_result)).
  vm_compute. reflexivity.
Defined.

(** C6, witness: the first path of [flanked_bubble] renders as
    cttACCGATTGCac, 14 characters. *)
Lemma buildSequence_layout_witness :
  exists rest,
    buildSequence g_flanked (options 0 Traversal.UNITIG) DeBruijn.tables
                  flanked_bubble 0 "higher" DeBruijn.empty_sequence
    = ret (mkSequence
             (buildComment (options 0 Traversal.UNITIG) flanked_bubble "higher")
             (list_ascii_of_string "cttACCGATTGCac" ++ zero :: rest)%list)
    /\ rendered_length g_flanked flanked_bubble = 14.
Proof.
  destruct (buildSequence_layout
              g_flanked (options 0 Traversal.UNITIG) DeBruijn.tables
              flanked_bubble 0 "higher" DeBruijn.empty_sequence
              ltac:(vm_compute; discriminate) (or_introl eq_refl) eq_refl eq_refl)
    as (rest & E & L & _).
  exists rest. split; [exact E | reflexivity].
Defined.

(** C9, witness: with both neighbours present [extend] yields a result;
    on the isolated bubble of [g_snp] it stops on the element access. *)
Lemma extend_traverses_witness :
  (exists r,
      extend g_flanked (options 0 Traversal.UNITIG) DeBruijn.walk_nothing
             flanked_bubble [] = ret r)
  /\ extend g_snp (options 0 Traversal.UNITIG) DeBruijn.walk_nothing
            flanked_bubble [] = fail OutOfBounds.
Proof.
  split.
  - apply (proj1 (extend_traverses_element_0
                    g_flanked (options 0 Traversal.UNITIG) (list Node)
                    DeBruijn.walk_nothing flanked_bubble []
                    ltac:(discriminate))).
    split; vm_compute; discriminate.
  - apply (proj1 (proj2 (extend_traverses_element_0
                           g_snp (options 0 Traversal.UNITIG) (list Node)
                           DeBruijn.walk_nothing flanked_bubble []
                           ltac:(discriminate)))).
    left. vm_compute. reflexivity.
Defined.

(** C10, witness: two calls from counters all zero. *)
Lemma finish_counters_witness :
  nb_bubbles two_finishes = 2
  /\ nb_bubbles two_finishes
     = nb_bubbles_high two_finishes + nb_bubbles_low two_finishes
  /\ nb_bubbles two_finishes = sumZ (nb_where_to_extend two_finishes)
  /\ List.length (nb_where_to_extend two_finishes) = 4%nat.
Proof.
  apply (proj2 (proj2 (proj2 (finish_counters
                                g_snp (options 0 Traversal.NONE)
                                DeBruijn.tables word64)))
               [em_bubble (hd (mkEmission DeBruijn.empty_bubble [] [])
                              (snd snp_result));
                flanked_bubble]
               DeBruijn.empty_stats two_finishes).
  - repeat split; reflexivity.
  - vm_compute. reflexivity.
  - vm_compute. reflexivity.
Defined.

(* ================================================================== *)
(** * Further properties of the search *)
(* ================================================================== *)

Local Close Scope string_scope.

Lemma for_each_visit_all {A S} (body : A -> S -> res (step S))
    (f : A -> S -> res S) (keep : A -> bool) (l : list A) :
  (forall a s, In a l ->
               body a s = if keep a then (s' <- f a s ;; ret (Continue s'))
                          else ret (Continue s)) ->
  forall s, for_each body l s
            = (s' <- visit_all f (filter keep l) s ;; ret (Exhausted, s')).
Proof.
  induction l as [| a l IH]; intros H s.
  - reflexivity.
  - cbn [for_each filter]. rewrite (H a s) by now left.
    assert (IH' := IH (fun a' s0 Ha => H a' s0 (or_intror Ha))).
    destruct (keep a).
    + cbn [visit_all]. destruct (f a s) as [e | s1]; cbn [bind ret];
        [reflexivity | apply IH'].
    + cbn [bind ret]. apply IH'.
Qed.

(** X1.  Under a branching policy other than 0 and 1 and below the last
    position, a call to [expand] whose gate passes calls itself at the
    next position on every pair of joint successors that passes the
    node-difference guard, in the order of the successor vector, each
    call starting from the state the previous one left; the first
    failure ends the walk. *)
Theorem expand_explores_every_pair
    (graph : Graph) (tool : Kissnp2) (tables : NucleotideTables)
    (filter : string -> string -> Z) (T : Type) (tv : TraversalOps T) (m : Z)
    (pos : Z) (n1 n2 p1 p2 : Node) (s : State T) :
  authorised_branching tool <> 0 ->
  authorised_branching tool <> 1 ->
  0 <= pos < getKmerSize graph - 1 ->
  expand graph tool tables filter tv m pos n1 n2 p1 p2 s
  = if negb (checkBranching graph tool n1 n2) then ret s
    else visit_all
           (fun next =>
              expand graph tool tables filter tv m (pos + 1)
                     (fst next) (snd next) n1 n2)
           (List.filter (survives p1 p2 n1 n2) (successors2 graph n1 n2)) s.
Proof.
  intros H0 H1 [_ Hpos]. rewrite expand_unfold by lia.
  destruct (negb (checkBranching graph tool n1 n2)); [reflexivity |].
  rewrite (for_each_visit_all _
             (fun next =>
                expand graph tool tables filter tv m (pos + 1)
                       (fst next) (snd next) n1 n2)
             (survives p1 p2 n1 n2)).
  - destruct (visit_all _ _ s); reflexivity.
  - intros a s0 _. unfold expand_body. fold (survives p1 p2 n1 n2 a).
    destruct (survives p1 p2 n1 n2 a); [| reflexivity].
    cbn [negb]. unfold sizeKmer.
    replace (pos <? getKmerSize graph - 1) with true
      by (symmetry; apply Z.ltb_lt; lia).
    replace ((authorised_branching tool =? 0) || (authorised_branching tool =? 1))
      with false.
    + destruct (expand _ _ _ _ _ _ _ _ _ _ _ _); reflexivity.
    + symmetry. apply orb_false_iff. rewrite !Z.eqb_neq. now split.
Qed.

Lemma for_each_total {A S} (I : S -> Prop) (body : A -> S -> res (step S))
    (l : list A) :
  (forall a s, In a l -> I s -> exists r, body a s = ret r /\ I (step_state r)) ->
  forall s, I s -> exists e s', for_each body l s = ret (e, s') /\ I s'.
Proof.
  induction l as [| a l IH]; intros H s Hs.
  - exists Exhausted, s. now split.
  - cbn [for_each].
    destruct (H a s (or_introl eq_refl) Hs) as (r & -> & Hr).
    cbn [bind ret]. destruct r as [s1 | s1 | s1]; cbn [step_state] in Hr.
    + apply IH; [| assumption]. intros a' s0 Ha. apply H. now right.
    + exists ByBreak, s1. now split.
    + exists ByReturn, s1. now split.
Qed.

Section Safety.

Variable graph : Graph.
Variable tool : Kissnp2.
Variable tables : NucleotideTables.
Variable filter : string -> string -> Z.
Variable T : Type.
Variable tv : TraversalOps T.
Variable m : Z.

Local Abbreviation k := (getKmerSize graph).

Lemma expand_body_failure rec pos n1 n2 p1 p2 next (s : State T) e :
  expand_body graph tool tables filter tv m rec pos n1 n2 p1 p2 next s = fail e ->
  (pos < k - 1 /\ rec (pos + 1) (fst next) (snd next) n1 n2 s = fail e)
  \/ e = OutOfBounds.
Proof.
  unfold expand_body, sizeKmer. destruct (negb _); [discriminate |].
  destruct (Z.ltb_spec pos (k - 1)) as [Hlt | Hge].
  - destruct (rec _ _ _ _ _ s) as [e0 | s'] eqn:E.
    + cbn [bind]. intro H. left. split; [assumption |]. inversion H. reflexivity.
    + cbn [bind]. destruct (_ || _); discriminate.
  - destruct (negb _); [discriminate |].
    destruct (checkPath graph _); [| discriminate].
    destruct (checkLowComplexity graph tool filter _) as [[] b1]; [| discriminate].
    destruct (extend graph tool tv b1 (trav s)) as [e0 | [[[] b2] t2]] eqn:EX;
      cbn [bind]; try discriminate.
    + intro H; inversion H; subst. right. now apply extend_fail in EX.
    + destruct (finish graph tool tables m b2 (stats s)) as [e0 | [b3 st3]] eqn:FI;
        cbn [bind]; [| discriminate].
      intro H; inversion H; subst. right. now apply finish_fail in FI.
Qed.

Lemma expand_failure : forall (d : nat) pos n1 n2 p1 p2 (s : State T) e,
  Z.to_nat (k - 1 - pos) = d -> pos <= k - 1 ->
  expand graph tool tables filter tv m pos n1 n2 p1 p2 s = fail e ->
  e = OutOfBounds.
Proof.
  induction d as [| d IH]; intros pos n1 n2 p1 p2 s e Hd Hpos H;
    rewrite expand_unfold in H by assumption;
    (destruct (negb _); [discriminate |]);
    match type of H with
    | context [for_each ?body ?l s] =>
        destruct (for_each body l s) as [e0 | r] eqn:E; [| discriminate]
    end;
    cbn [bind] in H; inversion H; subst e0;
    apply for_each_fail in E; destruct E as (a & s0 & _ & Hb);
    apply expand_body_failure in Hb; destruct Hb as [[Hlt Hb] | Hb];
    try assumption.
  - lia.
  - apply (IH (pos + 1) (fst a) (snd a) n1 n2 s0 e); [lia | lia | exact Hb].
Qed.

Lemma start_failure node (s : State T) e :
  2 <= k ->
  start graph tool tables filter tv m node s = fail e -> e = OutOfBounds.
Proof.
  intros Hk. unfold start.
  match goal with
  | |- context [for_each ?body ?l ?s0] =>
      destruct (for_each body l s0) as [e0 | r] eqn:E; [| discriminate]
  end.
  cbn [bind]. intro H; inversion H; subst e0.
  apply for_each_fail in E. destruct E as (mu & s0 & _ & Hb). cbv beta in Hb.
  match type of Hb with
  | context [bind ?c _] => destruct c as [e1 | s1] eqn:EX; [| discriminate]
  end.
  cbn [bind] in Hb. inversion Hb; subst e1.
  eapply (expand_failure _ 1); [reflexivity | lia | exact EX].
Qed.

End Safety.

(** X2.  On a graph with k >= 2, the only way [start] and [operator()]
    stop short is an element access out of bounds (in [extend] or
    [finish]): the assertion of [expand] holds at every call they make.
    With k <= 1, the first call to [expand], at position 1, violates the
    assertion as soon as the seed node has a mutation. *)
Theorem search_stops_only_out_of_bounds
    (graph : Graph) (tool : Kissnp2) (tables : NucleotideTables)
    (filter : string -> string -> Z) (T : Type) (tv : TraversalOps T) (m : Z)
    (node : Node) (s : State T) :
  (2 <= getKmerSize graph ->
   (forall e, start graph tool tables filter tv m node s = fail e ->
              e = OutOfBounds)
   /\ (forall e, operator_call graph tool tables filter tv m node s = fail e ->
                 e = OutOfBounds))
  /\ (getKmerSize graph <= 1 ->
      mutate graph node (getKmerSize graph - 1) 1 <> [] ->
      start graph tool tables filter tv m node s = fail AssertionFailed).
Proof.
  split.
  - intro Hk. split.
    + intros e. now apply start_failure.
    + intros e. unfold operator_call.
      destruct (start graph tool tables filter tv m node s) as [e0 | s1] eqn:E1;
        cbn [bind].
      * intro H; inversion H; subst e0. now apply start_failure in E1.
      * now apply start_failure.
  - intros Hk Hm. unfold start, sizeKmer.
    destruct (mutate graph node (getKmerSize graph - 1) 1) as [| mu mus];
      [contradiction |].
    cbn [for_each]. rewrite expand_assert by lia. reflexivity.
Qed.

Section WithoutTraversal.

Variable graph : Graph.
Variable tool : Kissnp2.
Variable tables : NucleotideTables.
Variable filter : string -> string -> Z.
Variable T : Type.
Variable tv : TraversalOps T.
Variable m : Z.

Local Abbreviation k := (getKmerSize graph).

Hypothesis no_traversal : traversalKind tool = Traversal.NONE.
Hypothesis renders_k :
  forall n, Z.of_nat (String.length (toString graph n)) = getKmerSize graph.

Lemma finish_keeps_four b st b' st' :
  finish graph tool tables m b st = ret (b', st') ->
  List.length (nb_where_to_extend st') = List.length (nb_where_to_extend st).
Proof.
  intro H. apply finish_inv in H.
  destruct H as (_ & _ & _ & (l1 & x & l2 & -> & _ & ->) & _).
  rewrite !length_app. reflexivity.
Qed.

Lemma expand_body_total rec pos n1 n2 p1 p2 next (s : State T) :
  1 <= k ->
  (pos < k - 1 ->
   forall s0, four_counters s0 ->
              exists s1, rec (pos + 1) (fst next) (snd next) n1 n2 s0 = ret s1
                         /\ four_counters s1) ->
  four_counters s ->
  exists r,
    expand_body graph tool tables filter tv m rec pos n1 n2 p1 p2 next s = ret r
    /\ four_counters (step_state r).
Proof.
  intros Hk Hrec Hs. unfold expand_body, sizeKmer.
  destruct (negb (_ && _)); [eexists; split; [reflexivity | exact Hs] |].
  destruct (Z.ltb_spec pos (k - 1)) as [Hlt | Hge].
  - destruct (Hrec Hlt s Hs) as (s1 & -> & H1). cbn [bind].
    destruct (_ || _); eexists; (split; [reflexivity | exact H1]).
  - destruct (negb _); [eexists; split; [reflexivity | exact Hs] |].
    destruct (checkPath graph _);
      [| eexists; split; [reflexivity | exact Hs]].
    destruct (checkLowComplexity graph tool filter _) as [[] b1];
      [| eexists; split; [reflexivity | exact Hs]].
    rewrite (extend_NONE graph tool tv b1 (trav s) no_traversal). cbn [bind ret].
    destruct (finish_total graph tool tables m (extend_close BAD BAD b1) (stats s) Hk)
      as (b3 & st3 & F).
    + intros n _. apply renders_k.
    + unfold four_counters in Hs. rewrite Hs. cbn. lia.
    + rewrite F. cbn [bind ret]. eexists. split; [reflexivity |].
      cbn [step_state]. unfold four_counters in *. cbn [stats].
      rewrite (finish_keeps_four _ _ _ _ F). exact Hs.
Qed.

Lemma expand_total : forall (d : nat) pos n1 n2 p1 p2 (s : State T),
  Z.to_nat (k - 1 - pos) = d -> 0 <= pos <= k - 1 ->
  four_counters s ->
  exists s1, expand graph tool tables filter tv m pos n1 n2 p1 p2 s = ret s1
             /\ four_counters s1.
Proof.
  induction d as [| d IH]; intros pos n1 n2 p1 p2 s Hd Hpos Hs;
    rewrite expand_unfold by lia;
    (destruct (negb _); [exists s; now split |]).
  - destruct (for_each_total four_counters
                (expand_body graph tool tables filter tv m
                   (expand graph tool tables filter tv m) pos n1 n2 p1 p2)
                (successors2 graph n1 n2)) with (s := s) as (ex & s1 & -> & H1);
      [| assumption | exists s1; now split].
    intros a s0 _ H0. apply expand_body_total; [lia | lia | assumption].
  - destruct (for_each_total four_counters
                (expand_body graph tool tables filter tv m
                   (expand graph tool tables filter tv m) pos n1 n2 p1 p2)
                (successors2 graph n1 n2)) with (s := s) as (ex & s1 & -> & H1);
      [| assumption | exists s1; now split].
    intros a s0 _ H0. apply expand_body_total; [lia | | assumption].
    intros Hlt s2 H2. apply (IH (pos + 1)); [lia | lia | assumption].
Qed.

Lemma start_total node (s : State T) :
  2 <= k -> four_counters s ->
  exists s1, start graph tool tables filter tv m node s = ret s1
             /\ four_counters s1.
Proof.
  intros Hk Hs. unfold start.
  match goal with
  | |- context [for_each ?body ?l ?s0] =>
      destruct (for_each_total four_counters body l) with (s := s0)
        as (ex & s1 & -> & H1)
  end.
  - intros mu s0 _ H0. cbv beta.
    destruct (expand_total _ 1 node mu Node_bad Node_bad
                (set_bubble (set_begin (fst (begin (bubble s0)), mu) (bubble s0)) s0)
                eq_refl) as (s1 & -> & H1); [lia | exact H0 |].
    eexists. split; [reflexivity | exact H1].
  - exact Hs.
  - exists s1. now split.
Qed.

End WithoutTraversal.

(** X3.  Without traversal (kind NONE), on a graph with k >= 2 whose
    nodes render as k characters and with the four counters of
    [nb_where_to_extend] in place, the search makes no access out of
    bounds: [start] and [operator()] yield a state for every seed node,
    and the array of counters keeps its four entries. *)
Theorem search_without_traversal_completes
    (graph : Graph) (tool : Kissnp2) (tables : NucleotideTables)
    (filter : string -> string -> Z) (T : Type) (tv : TraversalOps T) (m : Z)
    (node : Node) (s : State T) :
  traversalKind tool = Traversal.NONE ->
  2 <= getKmerSize graph ->
  (forall n, Z.of_nat (String.length (toString graph n)) = getKmerSize graph) ->
  four_counters s ->
  (exists s1, start graph tool tables filter tv m node s = ret s1
              /\ four_counters s1)
  /\ (exists s2, operator_call graph tool tables filter tv m node s = ret s2
                 /\ four_counters s2).
Proof.
  intros Hn Hk Hr Hs. split.
  - now apply start_total.
  - unfold operator_call.
    destruct (start_total graph tool tables filter T tv m Hn Hr node s Hk Hs)
      as (s1 & -> & H1).
    cbn [bind]. now apply start_total.
Qed.

Lemma finish_bubble graph tool tables m b st b' st' :
  finish graph tool tables m b st = ret (b', st') ->
  exists s1 s2,
    b' = set_seq2 s2 (set_seq1 s1 (set_index ((nb_bubbles st + 1) mod m) b))
    /\ buildSequence graph tool tables b' 0 "higher" (seq1 b) = ret s1
    /\ buildSequence graph tool tables b' 1 "lower" (seq2 b) = ret s2.
Proof.
  unfold finish, incr.
  destruct (buildSequence graph tool tables (set_index _ b) 0 "higher" _)
    as [e | s1] eqn:E1; [discriminate |]. cbn [bind].
  destruct (buildSequence graph tool tables (set_seq1 s1 _) 1 "lower" _)
    as [e | s2] eqn:E2; [discriminate |]. cbn [bind].
  destruct (vec_incr _ _ _) as [e | w]; [discriminate |]. cbn [bind].
  destruct (_ <? _); intro H; inversion H; subst; exists s1, s2;
    (split; [reflexivity | split; [exact E1 | exact E2]]).
Qed.

Lemma vec_at_range {A} (v : list A) (i : Z) (x : A) :
  vec_at v i = ret x -> 0 <= i < Z.of_nat (List.length v).
Proof.
  unfold vec_at. destruct (Z.ltb_spec i 0); [discriminate |].
  destruct (Z.leb_spec (Z.of_nat (List.length v)) i); [discriminate |].
  intros _. lia.
Qed.

(** X4.  On a graph with k >= 1 whose nodes render as k characters, a
    call to [finish] with [where_to_extend] inside the array of counters
    gives the bubble the next index and appends to the bank, in this
    order, the rendering of path 0 commented as "higher" and the
    rendering of path 1 commented as "lower", both comments carrying the
    new index; the nodes, extensions, closures and score of the bubble
    are left as they were.  Without traversal the comment is
    SNP_<type>_path_<index>|<quality> and nothing more. *)
Theorem finish_inserts_both_paths
    (graph : Graph) (tool : Kissnp2) (tables : NucleotideTables) (m : Z)
    (b : Bubble) (st : Stats) :
  1 <= getKmerSize graph ->
  (forall n, In n [fst (begin b); snd (begin b); fst (end_ b); snd (end_ b)] ->
             Z.of_nat (String.length (toString graph n)) = getKmerSize graph) ->
  0 <= where_to_extend b < Z.of_nat (List.length (nb_where_to_extend st)) ->
  let idx := (nb_bubbles st + 1) mod m in
  exists b' st' r1 r2,
    finish graph tool tables m b st = ret (b', st')
    /\ _outputBank st' = _outputBank st ++ [seq1 b'; seq2 b']
    /\ index b' = idx
    /\ comment (seq1 b') = buildComment tool (set_index idx b) "higher"
    /\ comment (seq2 b') = buildComment tool (set_index idx b) "lower"
    /\ data (seq1 b')
       = layout graph tables b (fst (begin b)) (fst (end_ b)) ++ zero :: r1
    /\ data (seq2 b')
       = layout graph tables b (snd (begin b)) (snd (end_ b)) ++ zero :: r2
    /\ set_seq2 (seq2 b) (set_seq1 (seq1 b) (set_index (index b) b')) = b
    /\ (traversalKind tool = Traversal.NONE ->
        comment (seq1 b')
        = ("SNP_higher_path_" ++ string_of_Z idx ++ "|"
           ++ (if score b >=? threshold tool then "low" else "high"))%string
        /\ comment (seq2 b')
           = ("SNP_lower_path_" ++ string_of_Z idx ++ "|"
              ++ (if score b >=? threshold tool then "low" else "high"))%string).
Proof.
  intros Hk Hn Hw idx.
  destruct (finish_total graph tool tables m b st Hk Hn Hw) as (b' & st' & F).
  pose proof (finish_inv graph tool tables m b b' st st' F) as (_ & Hi & _ & _ & Bk).
  pose proof F as F0. unfold finish in F0.
  rewrite (buildSequence_result graph tool tables _ 0 "higher" _ Hk
             (or_introl eq_refl)) in F0 by (apply Hn; cbn; tauto).
  cbn [bind ret] in F0.
  rewrite (buildSequence_result graph tool tables _ 1 "lower" _ Hk
             (or_intror eq_refl)) in F0 by (apply Hn; cbn; tauto).
  cbn [bind ret] in F0.
  destruct (vec_incr m (nb_where_to_extend st) _) as [e | w]; [discriminate |].
  cbn [bind ret] in F0.
  assert (Hb : b' = set_seq2
                      (mkSequence (buildComment tool (set_index idx b) "lower")
                         (layout graph tables b (snd (begin b)) (snd (end_ b))
                          ++ zero :: _))
                      (set_seq1
                         (mkSequence (buildComment tool (set_index idx b) "higher")
                            (layout graph tables b (fst (begin b)) (fst (end_ b))
                             ++ zero :: _))
                         (set_index idx b)))
    by (destruct (_ <? _); inversion F0; reflexivity).
  exists b', st'. do 2 eexists.
  split; [exact F |]. split; [exact Bk |].
  rewrite Hb. cbn [index seq1 seq2 set_seq1 set_seq2 set_index comment data].
  repeat split; try reflexivity.
  - destruct b; reflexivity.
  - unfold buildComment. rewrite H. reflexivity.
  - unfold buildComment. rewrite H. reflexivity.
Qed.

(** X5.  [finish] yields a result only when [where_to_extend] indexes
    the array [nb_where_to_extend]; outside the array it stops on the
    element access, whatever the bubble.  On a graph with k >= 1 whose
    nodes render as k characters that is the only condition. *)
Theorem finish_needs_counter_in_range
    (graph : Graph) (tool : Kissnp2) (tables : NucleotideTables) (m : Z)
    (b : Bubble) (st : Stats) :
  1 <= getKmerSize graph ->
  (forall n, In n [fst (begin b); snd (begin b); fst (end_ b); snd (end_ b)] ->
             Z.of_nat (String.length (toString graph n)) = getKmerSize graph) ->
  ((exists r, finish graph tool tables m b st = ret r)
   <-> 0 <= where_to_extend b < Z.of_nat (List.length (nb_where_to_extend st)))
  /\ (~ 0 <= where_to_extend b < Z.of_nat (List.length (nb_where_to_extend st)) ->
      finish graph tool tables m b st = fail OutOfBounds).
Proof.
  intros Hk Hn.
  assert (Hrange : forall r, finish graph tool tables m b st = ret r ->
                             0 <= where_to_extend b
                             < Z.of_nat (List.length (nb_where_to_extend st))).
  { intros r. unfold finish.
    destruct (buildSequence graph tool tables (set_index _ b) 0 "higher" _)
      as [e | s1]; [discriminate |]. cbn [bind].
    destruct (buildSequence graph tool tables (set_seq1 s1 _) 1 "lower" _)
      as [e | s2]; [discriminate |]. cbn [bind].
    unfold vec_incr. cbn [where_to_extend set_seq2 set_seq1 set_index].
    destruct (vec_at (nb_where_to_extend st) (where_to_extend b)) as [e | x] eqn:E;
      [discriminate |].
    intros _. exact (vec_at_range _ _ _ E). }
  split; [split |].
  - intros [r H]. exact (Hrange r H).
  - intro Hw. destruct (finish_total graph tool tables m b st Hk Hn Hw)
      as (b' & st' & F). now exists (b', st').
  - intro Hw. destruct (finish graph tool tables m b st) as [e | r] eqn:F.
    + apply finish_fail in F. now subst e.
    + exfalso. apply Hw. exact (Hrange r eq_refl).
Qed.

(* ------------------------------------------------------------------ *)
(** ** What every emitted bubble went through *)

Lemma issued_app m n new1 n1 new2 n2 :
  issued m n new1 n1 -> issued m n1 new2 n2 -> issued m n (new1 ++ new2) n2.
Proof.
  induction 1 as [n | n e new n' Hi H IH]; intro H2.
  - exact H2.
  - cbn [app]. constructor; [assumption | now apply IH].
Qed.

Lemma linked_snoc graph (w : list (Node * Node)) (x y : Node * Node) :
  linked graph (w ++ [x]) ->
  In y (successors2 graph (fst x) (snd x)) ->
  linked graph ((w ++ [x]) ++ [y]).
Proof.
  intros L Hy i a b Ha Hb.
  assert (Hlen : List.length (w ++ [x]) = S (List.length w))
    by (rewrite length_app; cbn; lia).
  destruct (Nat.lt_ge_cases (S i) (List.length (w ++ [x]))) as [Hlt | Hge].
  - rewrite nth_error_app1 in Ha, Hb by lia. exact (L i a b Ha Hb).
  - assert (S i = List.length (w ++ [x])) as Hi.
    { apply Nat.le_antisymm; [| assumption].
      assert (nth_error ((w ++ [x]) ++ [y]) (S i) <> None) as Hx by congruence.
      apply nth_error_Some in Hx. rewrite length_app in Hx. cbn in Hx. lia. }
    rewrite nth_error_app2 in Hb by lia.
    replace (S i - List.length (w ++ [x]))%nat with 0%nat in Hb by lia.
    cbn in Hb. inversion Hb; subst b.
    rewrite nth_error_app1 in Ha by lia.
    replace i with (List.length w) in Ha by lia.
    rewrite nth_error_app2, Nat.sub_diag in Ha by lia.
    cbn in Ha. inversion Ha; subst a. exact Hy.
Qed.

Lemma filter_paths_fields graph (b b' : Bubble) :
  begin b' = begin b -> end_ b' = end_ b ->
  filter_paths graph b' = filter_paths graph b.
Proof. unfold filter_paths. intros -> ->. reflexivity. Qed.

Lemma extend_shape graph tool {T} (tv : TraversalOps T) b t r b' t' :
  extend graph tool tv b t = ret (r, b', t') ->
  where_to_extend b' = presence_code b'
  /\ (traversalKind tool = Traversal.NONE ->
      b' = extend_close BAD BAD b /\ t' = t).
Proof.
  intro H. split.
  - destruct (extend_cases graph tool tv b t) as [E | (cl & cr & b1 & t1 & E)];
      rewrite E in H; [discriminate |].
    inversion H; subst.
    pose proof (extend_close_fields cl cr b1) as F. cbv zeta in F. tauto.
  - intro Ek. rewrite (extend_NONE graph tool tv b t Ek) in H.
    inversion H. now split.
Qed.

Section Sound.

Variable graph : Graph.
Variable tool : Kissnp2.
Variable tables : NucleotideTables.
Variable filter : string -> string -> Z.
Variable T : Type.
Variable tv : TraversalOps T.
Variable m : Z.

Local Abbreviation k := (getKmerSize graph).
Local Abbreviation GS := (State T * list Emission)%type.
Local Abbreviation grows_ := (grows graph tool tables filter m).

Lemma grows_refl (g : GS) : grows_ g g.
Proof.
  split; [reflexivity |]. split; [intros _; repeat split |].
  split; [tauto |]. split; [reflexivity |].
  exists []. rewrite app_nil_r. repeat split; constructor.
Qed.

Lemma grows_trans (g1 g2 g3 : GS) : grows_ g1 g2 -> grows_ g2 g3 -> grows_ g1 g3.
Proof.
  intros (B1 & N1 & C1 & L1 & new1 & E1 & I1 & F1 & P1)
         (B2 & N2 & C2 & L2 & new2 & E2 & I2 & F2 & P2).
  split; [congruence |]. split; [| split; [tauto | split; [congruence |]]].
  - intro Ek. destruct (N1 Ek) as (? & ? & ?). destruct (N2 Ek) as (? & ? & ?).
    repeat split; congruence.
  - exists (new1 ++ new2). rewrite E2, E1, <- app_assoc.
    split; [reflexivity |]. split; [exact (issued_app _ _ _ _ _ _ I1 I2) |].
    split; [apply Forall_app; now split |].
    apply Forall_app. split; [assumption |].
    eapply Forall_impl; [| exact P2].
    intros e [Hb He]. split; [congruence |].
    intro Ek. destruct (N1 Ek) as (X1 & X2 & _).
    destruct (He Ek) as (Y1 & Y2 & Y3). repeat split; try tauto; congruence.
Qed.

(** A step that only rewrites [end] or [score] in the bubble. *)
Lemma grows_quiet (s : State T) (log : list Emission) (b : Bubble) :
  begin b = begin (bubble s) ->
  extensionLeft b = extensionLeft (bubble s) ->
  extensionRight b = extensionRight (bubble s) ->
  grows_ (s, log) (set_bubble b s, log).
Proof.
  intros Hb Hl Hr. split; [exact Hb |].
  split; [intros _; repeat split; assumption |].
  split; [tauto |]. split; [reflexivity |].
  exists []. cbn [fst snd]. rewrite app_nil_r. repeat split; constructor.
Qed.

Lemma trail_step (first : Node * Node) n1 n2 h1 h2 (next : Node * Node) :
  trail graph tool first (n1, n2) h1 h2 ->
  gate_passes graph tool (n1, n2) ->
  In next (successors2 graph n1 n2) ->
  trail graph tool first next (h1 ++ [fst next]) (h2 ++ [snd next]).
Proof.
  intros (w & -> & -> & Fg & Lk & Hd) Hg Hin.
  exists (w ++ [(n1, n2)]). rewrite !(map_app _ (w ++ [(n1, n2)]) [next]).
  repeat split.
  - apply Forall_app. split; [assumption | now constructor].
  - now apply linked_snoc.
  - destruct w; exact Hd.
Qed.

Lemma expand_body_g_grows
    (recg : Z -> Node -> Node -> Node -> Node -> list Node -> list Node
            -> GS -> res GS)
    pos n1 n2 p1 p2 h1 h2 next (g : GS) r :
  (forall g',
      trail graph tool (begin (bubble (fst g))) next
            (h1 ++ [fst next]) (h2 ++ [snd next]) ->
      recg (pos + 1) (fst next) (snd next) n1 n2
           (h1 ++ [fst next]) (h2 ++ [snd next]) g = ret g' ->
      grows_ g g') ->
  trail graph tool (begin (bubble (fst g))) (n1, n2) h1 h2 ->
  gate_passes graph tool (n1, n2) ->
  In next (successors2 graph n1 n2) ->
  expand_body_g graph tool tables filter tv m recg pos n1 n2 p1 p2 h1 h2 next g
  = ret r ->
  grows_ g (step_state r).
Proof.
  intros Hrec Htr Hgate Hin. unfold expand_body_g.
  destruct (negb (_ && _));
    [intro H; inversion H; apply grows_refl |].
  pose proof (trail_step _ _ _ _ _ next Htr Hgate Hin) as Tn.
  destruct (pos <? sizeKmer graph - 1).
  - destruct (recg _ _ _ _ _ _ _ g) as [e | g'] eqn:E; [discriminate |].
    cbn [bind]. pose proof (Hrec g' Tn eq_refl) as X.
    destruct (_ || _); intro H; inversion H; exact X.
  - destruct (checkBranching graph tool (fst next) (snd next)) eqn:Gn;
      [| cbn [negb]; intro H; inversion H; apply grows_refl].
    cbn [negb].
    set (b0 := set_end (fst next, snd next) (bubble (fst g))).
    destruct g as [s log]. cbn [fst snd] in *.
    destruct (checkPath graph b0).
    2:{ intro H; inversion H. cbn [step_state].
        apply grows_quiet; reflexivity. }
    destruct (checkLowComplexity graph tool filter b0) as [ok b1] eqn:CL.
    assert (Hb1 : b1 = snd (checkLowComplexity graph tool filter b0))
      by (rewrite CL; reflexivity).
    assert (Hok : ok = fst (checkLowComplexity graph tool filter b0))
      by (rewrite CL; reflexivity).
    rewrite checkLowComplexity_bubble in Hb1.
    destruct ok.
    2:{ intro H; inversion H. cbn [step_state]. subst b1.
        apply grows_quiet; reflexivity. }
    destruct (extend graph tool tv b1 (trav s)) as [e | [[ext b2] t2]] eqn:EX;
      [discriminate |].
    cbn [bind].
    pose proof (extend_shape graph tool tv _ _ _ _ _ EX) as [Ew En].
    apply extend_fields in EX. destruct EX as (-> & Eb & Ee & Es & _).
    destruct (finish graph tool tables m b2 (stats s)) as [e | [b3 st3]] eqn:FI;
      [discriminate |].
    cbn [bind]. intro H; inversion H. cbn [step_state].
    pose proof (finish_bubble _ _ _ _ _ _ _ _ FI) as (q1 & q2 & Hb3 & Q1 & Q2).
    pose proof (finish_keeps_four _ _ _ _ _ _ _ _ FI) as Hlen.
    pose proof (finish_inv _ _ _ _ _ _ _ _ FI) as Hstep.
    assert (Hidx : index b3 = (nb_bubbles (stats s) + 1) mod m
                   /\ nb_bubbles st3 = (nb_bubbles (stats s) + 1) mod m).
    { destruct Hstep as (Hn & Hi & _). split; congruence. }
    assert (Bg : begin b3 = begin (bubble s))
      by (rewrite Hb3; cbn; rewrite Eb, Hb1; reflexivity).
    assert (Eg : end_ b3 = next)
      by (rewrite Hb3; cbn; rewrite Ee, Hb1; cbn; now destruct next).
    assert (Sc : score b3 = score b1) by (rewrite Hb3; cbn; exact Es).
    split; [exact Bg |]. cbn [fst snd bubble stats trav].
    split; [| split; [| split; [exact Hlen |]]].
    + intro Ek. destruct (En Ek) as [-> ->]. rewrite Hb3, Hb1.
      repeat split; reflexivity.
    + intro Hc. exact (finish_step_agree_mod _ _ _ _ _ _ Hstep Hc).
    + exists [mkEmission b3 (h1 ++ [fst next]) (h2 ++ [snd next])].
      split; [reflexivity |]. split; [| split].
      * constructor; [exact (proj1 Hidx) |].
        rewrite (proj2 Hidx). constructor.
      * constructor; [| constructor].
        unfold emission_sound. cbn [em_bubble em_path1 em_path2].
        split; [| split; [| split; [| split]]].
        -- destruct Tn as (w & W1 & W2 & Fg & Lk & Hd).
           exists (w ++ [next]). rewrite Bg, Eg.
           repeat split; try assumption.
           ++ apply Forall_app. split; [assumption |]. now constructor.
           ++ now exists w.
        -- rewrite Sc, Hb1.
           rewrite (filter_paths_fields graph b0 b3);
             [reflexivity | exact Bg |].
           rewrite Eg. subst b0. cbn. now destruct next.
        -- rewrite Sc. subst b1.
           unfold checkLowComplexity in Hok. cbn [fst] in Hok.
           symmetry in Hok. apply orb_true_iff in Hok.
           destruct Hok as [Hlt | Hlow].
           ++ left. apply Z.ltb_lt. exact Hlt.
           ++ right. apply andb_true_iff in Hlow. tauto.
        -- rewrite Hb3. exact Ew.
        -- exists (seq1 b2), (seq2 b2). split.
           ++ rewrite Q1, Hb3. reflexivity.
           ++ rewrite Q2, Hb3. reflexivity.
      * constructor; [| constructor].
        split; [exact Bg |].
        intro Ek. cbn [em_bubble]. destruct (En Ek) as [-> _].
        rewrite Hb3, Hb1. repeat split; reflexivity.
Qed.

Lemma expand_rec_g_grows fuel :
  forall pos n1 n2 p1 p2 h1 h2 (g g' : GS),
    trail graph tool (begin (bubble (fst g))) (n1, n2) h1 h2 ->
    expand_rec_g graph tool tables filter tv m fuel pos n1 n2 p1 p2 h1 h2 g = ret g' ->
    grows_ g g'.
Proof.
  induction fuel as [| fuel IH]; intros pos n1 n2 p1 p2 h1 h2 g g' Htr;
    cbn [expand_rec_g]; [discriminate |].
  destruct (negb (pos <=? _)); [discriminate |].
  destruct (checkBranching graph tool n1 n2) eqn:Hg;
    [| cbn [negb]; intro H; inversion H; apply grows_refl].
  cbn [negb]. cbv zeta.
  match goal with
  | |- context [for_each ?body ?l g] =>
      destruct (for_each body l g) as [e | [ex g1]] eqn:E; [discriminate |]
  end.
  cbn [bind ret snd]. intro H; inversion H; subst g1.
  eapply (for_each_preserves (grows_ g)); [| apply grows_refl | exact E].
  intros a x r Ha Hx Hb. apply (grows_trans g x _ Hx).
  destruct Hx as [Bx _].
  eapply expand_body_g_grows; [| | exact Hg | exact Ha | exact Hb].
  - intros g0 Tn Hr. apply (IH _ _ _ _ _ _ _ _ _) with (2 := Hr).
    rewrite <- surjective_pairing. exact Tn.
  - rewrite Bx. exact Htr.
Qed.

Lemma trail_start (node mu : Node) :
  trail graph tool (node, mu) (node, mu) [node] [mu].
Proof.
  exists []. repeat split; try constructor.
  intros i x y Hx Hy. destruct i; discriminate Hy.
Qed.

Lemma start_g_iteration_grows (node mu : Node) (g x x' : GS) :
  In mu (mutate graph node (getKmerSize graph - 1) 1) ->
  start_grows graph tool tables filter m node g x ->
  expand_g graph tool tables filter tv m 1 node mu Node_bad Node_bad [node] [mu]
           (set_bubble (set_begin (fst (begin (bubble (fst x))), mu) (bubble (fst x)))
                       (fst x),
            snd x)
  = ret x' ->
  start_grows graph tool tables filter m node g x'.
Proof.
  intros Hmu (Hn & N & C & L & new & E & I & F & P & Q) EG.
  apply expand_rec_g_grows in EG.
  2:{ cbn [fst snd bubble set_bubble begin set_begin]. rewrite Hn.
      apply trail_start. }
  destruct EG as (B' & N' & C' & L' & new' & E' & I' & F' & P').
  cbn [fst snd stats bubble trav set_bubble begin set_begin extensionLeft
       extensionRight] in *.
  split; [rewrite B'; exact Hn |].
  split; [| split; [| split]].
  - intro Ek. destruct (N Ek) as (? & ? & ?). destruct (N' Ek) as (? & ? & ?).
    repeat split; congruence.
  - intro Hc. apply C'. apply C. exact Hc.
  - rewrite L'. exact L.
  - exists (new ++ new'). rewrite E', E, <- app_assoc.
    split; [reflexivity |]. split; [exact (issued_app _ _ _ _ _ _ I I') |].
    split; [apply Forall_app; now split |].
    split; apply Forall_app; (split; [assumption |]);
      (eapply Forall_impl; [| exact P']); intros e [Hb He].
    + intro Ek. destruct (N Ek) as (X1 & X2 & _).
      destruct (He Ek) as (Y1 & Y2 & Y3).
      cbn [bubble set_bubble set_begin extensionLeft extensionRight] in Y1, Y2.
      repeat split; try tauto; congruence.
    + rewrite Hb, Hn. cbn [fst snd]. now split.
Qed.

Lemma start_g_grows (node : Node) (g g' : GS) :
  start_g graph tool tables filter tv m node g = ret g' ->
  start_grows graph tool tables filter m node g g'.
Proof.
  unfold start_g.
  set (g0 := (set_bubble _ (fst g), snd g)).
  match goal with
  | |- context [for_each ?body ?l g0] =>
      destruct (for_each body l g0) as [e | [ex g1]] eqn:E; [discriminate |]
  end.
  cbn [bind ret snd]. intro H; inversion H; subst g1.
  eapply (for_each_preserves (start_grows graph tool tables filter m node g));
    [| | exact E].
  - intros mu x r Hmu Hx. cbv beta.
    match goal with
    | |- context [bind ?c _] => destruct c as [e | x'] eqn:EG; [discriminate |]
    end.
    cbn [bind ret]. intro Hr; inversion Hr. cbn [step_state].
    exact (start_g_iteration_grows node mu g x x' Hmu Hx EG).
  - subst g0. split; [reflexivity |].
    split; [intros _; repeat split |]. split; [tauto |]. split; [reflexivity |].
    exists []. cbn [fst snd stats set_bubble]. rewrite app_nil_r.
    repeat split; constructor.
Qed.

End Sound.


Lemma issued_mod m n new n' :
  issued m n new n' -> n' mod m = (n + Z.of_nat (List.length new)) mod m.
Proof.
  induction 1 as [n | n e new n' Hi H IH].
  - cbn. now rewrite Z.add_0_r.
  - rewrite IH, Zplus_mod_idemp_l. cbn [List.length]. f_equal. lia.
Qed.

Lemma length_flat_map_seqs (log : list Emission) :
  List.length (flat_map emission_seqs log) = (2 * List.length log)%nat.
Proof. induction log as [| e log IH]; cbn in *; lia. Qed.

Lemma start_g_of_start graph tool tables filter {T} (tv : TraversalOps T) m
    node (s s1 : State T) :
  start graph tool tables filter tv m node s = ret s1 ->
  exists log, start_g graph tool tables filter tv m node (s, []) = ret (s1, log).
Proof.
  intro H.
  pose proof (start_g_erase graph tool tables filter T tv m node (s, [])) as E.
  cbn [fst] in E. rewrite H in E.
  destruct (start_g graph tool tables filter tv m node (s, [])) as [e | [s' log]];
    [discriminate |].
  cbn in E. inversion E. now exists log.
Qed.


(** X7.  [operator()] keeps the counters in agreement: if [nb_bubbles]
    equals [nb_bubbles_high + nb_bubbles_low] and the sum of
    [nb_where_to_extend] (modulo the width of the counters) before the
    call, it does after it; the array keeps its length; and the call
    only appends to the bank, two sequences for each unit added to
    [nb_bubbles]. *)
Theorem operator_call_keeps_counters
    (graph : Graph) (tool : Kissnp2) (tables : NucleotideTables)
    (filter : string -> string -> Z) (T : Type) (tv : TraversalOps T) (m : Z)
    (node : Node) (s s' : State T) :
  operator_call graph tool tables filter tv m node s = ret s' ->
  (counters_agree_mod m (stats s) -> counters_agree_mod m (stats s'))
  /\ List.length (nb_where_to_extend (stats s'))
     = List.length (nb_where_to_extend (stats s))
  /\ exists added (j : nat),
      _outputBank (stats s') = _outputBank (stats s) ++ added
      /\ List.length added = (2 * j)%nat
      /\ nb_bubbles (stats s') mod m = (nb_bubbles (stats s) + Z.of_nat j) mod m.
Proof.
  unfold operator_call.
  destruct (start graph tool tables filter tv m node s) as [e | s1] eqn:E1;
    [discriminate |].
  cbn [bind]. intro E2.
  destruct (start_g_of_start _ _ _ _ _ _ _ _ _ E1) as [log1 G1].
  destruct (start_g_of_start _ _ _ _ _ _ _ _ _ E2) as [log2 G2].
  pose proof (start_g_grows graph tool tables filter T tv m _ _ _ G1)
    as (_ & _ & C1 & L1 & new1 & N1 & I1 & _).
  pose proof (start_g_grows graph tool tables filter T tv m _ _ _ G2)
    as (_ & _ & C2 & L2 & new2 & N2 & I2 & _).
  destruct (start_g_extends graph tool tables filter T tv m _ _ _ G1)
    as (x1 & X1 & B1 & _).
  destruct (start_g_extends graph tool tables filter T tv m _ _ _ G2)
    as (x2 & X2 & B2 & _).
  cbn [fst snd app] in *. subst new1 new2 x1 x2.
  split; [tauto | split; [congruence |]].
  exists (flat_map emission_seqs log1 ++ flat_map emission_seqs log2),
         (List.length log1 + List.length log2)%nat.
  split; [rewrite B2, B1, <- app_assoc; reflexivity | split].
  - rewrite length_app, !length_flat_map_seqs. lia.
  - rewrite (issued_mod _ _ _ _ I2), <- Zplus_mod_idemp_l,
            (issued_mod _ _ _ _ I1), Zplus_mod_idemp_l.
    f_equal. lia.
Qed.

(** X9.  Every bubble that [start] emits from a seed node begins at the
    seed and at one of its mutations at position k-1; its two paths form
    a walk in the graph (each pair of nodes is a pair of joint successors
    of the pair before it) that ends at [end], and the branching gate
    passed on every pair of the walk, the last one included.  Under
    policy 0, then, no node of an emitted bubble has in-degree or
    out-degree 2 or more. *)
Theorem emitted_paths_are_gated_walks
    (graph : Graph) (tool : Kissnp2) (tables : NucleotideTables)
    (filter : string -> string -> Z) (T : Type) (tv : TraversalOps T) (m : Z)
    (node : Node) (s s' : State T) (log : list Emission) :
  start_g graph tool tables filter tv m node (s, []) = ret (s', log) ->
  Forall (emission_walk graph tool node) log
  /\ (authorised_branching tool = 0 ->
      forall e w, In e log ->
                  em_path1 e = map fst w -> em_path2 e = map snd w ->
                  never_branches graph w).
Proof.
  intro H.
  pose proof (start_g_grows graph tool tables filter T tv m node _ _ H)
    as (_ & _ & _ & _ & new & E & _ & F & _ & Q).
  cbn [fst snd app] in E. subst new.
  assert (W : Forall (emission_walk graph tool node) log).
  { rewrite Forall_forall in *. intros e He.
    destruct (Q e He) as [Q1 Q2].
    destruct (F e He) as ((w & W1 & W2 & Fg & Lk & Hd & Hl) & _).
    split; [exact Q1 | split; [exact Q2 |]].
    exists w. repeat split; assumption. }
  split; [exact W |].
  intros Hab e w He P1 P2. rewrite Forall_forall in W.
  destruct (W e He) as (_ & _ & w' & W1 & W2 & _ & _ & _ & Fg).
  assert (w = w').
  { rewrite P1 in W1. rewrite P2 in W2. clear - W1 W2.
    revert w' W1 W2. induction w as [| [a b] w IH]; intros [| [a' b'] w'] W1 W2;
      try discriminate; [reflexivity |].
    cbn in W1, W2. inversion W1. inversion W2. subst. f_equal. now apply IH. }
  subst w'. unfold never_branches. eapply Forall_impl; [| exact Fg].
  intros x Hx. unfold gate_passes in Hx.
  split; intro Hbr;
    (assert (Hrej : checkBranching graph tool (fst x) (snd x) = false)
       by (apply checkBranching_false_iff; left; tauto));
    congruence.
Qed.

(** X10.  Every bubble that [start] emits carries the score of the
    low-complexity filter on its own two paths (the first k-1 characters
    of [begin[i]] followed by [end[i]]); that score is below the
    threshold, or [low] is set; and its [where_to_extend] packs the
    presence of its two closures. *)
Theorem emitted_bubbles_pass_the_filter
    (graph : Graph) (tool : Kissnp2) (tables : NucleotideTables)
    (filter : string -> string -> Z) (T : Type) (tv : TraversalOps T) (m : Z)
    (node : Node) (s s' : State T) (log : list Emission) :
  start_g graph tool tables filter tv m node (s, []) = ret (s', log) ->
  Forall (fun e =>
            score (em_bubble e)
            = filter (fst (filter_paths graph (em_bubble e)))
                     (snd (filter_paths graph (em_bubble e)))
            /\ (score (em_bubble e) < threshold tool \/ low tool = true)
            /\ where_to_extend (em_bubble e) = presence_code (em_bubble e)) log.
Proof.
  intro H.
  pose proof (start_g_grows graph tool tables filter T tv m node _ _ H)
    as (_ & _ & _ & _ & new & E & _ & F & _).
  cbn [fst snd app] in E. subst new.
  eapply Forall_impl; [| exact F]. intros e (_ & S1 & S2 & S3 & _). tauto.
Qed.

(** X11.  Without traversal (kind NONE), on a graph with k >= 1 whose
    nodes render as k characters and from a bubble with empty
    extensions, every bubble that [start] emits has no closure and code
    0, and each of its two sequences holds exactly the 2k-1 characters of
    its path, the first k-1 characters of [begin[i]] followed by
    [end[i]], before the null character; the traversal state and the
    empty extensions are left as they were. *)
Theorem sequences_without_traversal_are_the_core
    (graph : Graph) (tool : Kissnp2) (tables : NucleotideTables)
    (filter : string -> string -> Z) (T : Type) (tv : TraversalOps T) (m : Z)
    (node : Node) (s s' : State T) (log : list Emission) :
  traversalKind tool = Traversal.NONE ->
  1 <= getKmerSize graph ->
  (forall n, Z.of_nat (String.length (toString graph n)) = getKmerSize graph) ->
  extensionLeft (bubble s) = [] ->
  extensionRight (bubble s) = [] ->
  start_g graph tool tables filter tv m node (s, []) = ret (s', log) ->
  Forall (fun e =>
            closureLeft (em_bubble e) = BAD /\ closureRight (em_bubble e) = BAD
            /\ where_to_extend (em_bubble e) = 0
            /\ rendered_length graph (em_bubble e) = 2 * getKmerSize graph - 1
            /\ exists r1 r2,
                data (seq1 (em_bubble e))
                = (firstn (Z.to_nat (getKmerSize graph - 1))
                          (list_ascii_of_string
                             (toString graph (fst (begin (em_bubble e)))))
                   ++ list_ascii_of_string
                        (toString graph (fst (end_ (em_bubble e)))))
                  ++ zero :: r1
                /\ data (seq2 (em_bubble e))
                   = (firstn (Z.to_nat (getKmerSize graph - 1))
                             (list_ascii_of_string
                                (toString graph (snd (begin (em_bubble e)))))
                      ++ list_ascii_of_string
                           (toString graph (snd (end_ (em_bubble e)))))
                     ++ zero :: r2) log
  /\ trav s' = trav s
  /\ extensionLeft (bubble s') = [] /\ extensionRight (bubble s') = [].
Proof.
  intros Hn Hk Hr HL HR H.
  pose proof (start_g_grows graph tool tables filter T tv m node _ _ H)
    as (_ & N & _ & _ & new & E & _ & F & P & _).
  cbn [fst snd app] in E, N, P. subst new.
  destruct (N Hn) as (N1 & N2 & N3).
  split; [| repeat split; congruence].
  rewrite Forall_forall in *. intros e He.
  destruct (P e He Hn) as (P1 & P2 & P3 & P4 & P5).
  destruct (F e He) as (_ & _ & _ & _ & old1 & old2 & Q1 & Q2).
  rewrite HL in P1. rewrite HR in P2.
  assert (Lay : forall nb ne,
             layout graph tables (em_bubble e) nb ne
             = firstn (Z.to_nat (getKmerSize graph - 1))
                      (list_ascii_of_string (toString graph nb))
               ++ list_ascii_of_string (toString graph ne)).
  { intros nb ne. unfold layout. rewrite P1, P2, P3, P4. cbn.
    now rewrite app_nil_r. }
  split; [exact P3 | split; [exact P4 | split; [exact P5 | split]]].
  - unfold rendered_length. rewrite P1, P2, P3, P4. cbn. lia.
  - rewrite (buildSequence_result graph tool tables _ 0 "higher" old1 Hk
               (or_introl eq_refl)) in Q1 by apply Hr.
    rewrite (buildSequence_result graph tool tables _ 1 "lower" old2 Hk
               (or_intror eq_refl)) in Q2 by apply Hr.
    inversion Q1 as [Q1']. inversion Q2 as [Q2']. cbn [data].
    unfold path_node. cbn [Z.eqb]. rewrite !Lay. do 2 eexists.
    split; reflexivity.
Qed.





(* ------------------------------------------------------------------ *)
(** ** Runs *)

Lemma length_string_of_list_ascii (l : list ascii) :
  String.length (string_of_list_ascii l) = List.length l.
Proof. induction l; cbn; congruence. Qed.

Lemma length_decode (k : nat) : forall v, List.length (DeBruijn.decode k v) = k.
Proof.
  induction k as [| k IH]; intro v; cbn [DeBruijn.decode]; [reflexivity |].
  rewrite length_app, IH. cbn. lia.
Qed.

(** The graphs of [DeBruijn] render every node as k characters. *)
Lemma dbg_renders_k (k : nat) (solid : list Z) (n : Node) :
  Z.of_nat (String.length (toString (DeBruijn.dbg k solid) n))
  = getKmerSize (DeBruijn.dbg k solid).
Proof.
  cbn [toString getKmerSize DeBruijn.dbg]. unfold DeBruijn.render.
  rewrite length_string_of_list_ascii, length_map. unfold DeBruijn.seq_of.
  destruct (strand n); unfold DeBruijn.revcomp;
    rewrite ?length_map, ?length_rev, length_decode; reflexivity.
Qed.

Local Open Scope string_scope.

(** X1, witness: at position 2 of [g_wide] under policy 2, [expand]
    visits the two pairs of joint successors in turn. *)
Lemma expand_explores_witness :
  expand g_wide (options 2 Traversal.NONE) DeBruijn.tables DeBruijn.count_repeats
         DeBruijn.walk_nothing word64 2
         (DeBruijn.node "CCGAT") (DeBruijn.node "CCGCT")
         (DeBruijn.node "ACCGA") (DeBruijn.node "ACCGC") DeBruijn.init
  = visit_all
      (fun next =>
         expand g_wide (options 2 Traversal.NONE) DeBruijn.tables
                DeBruijn.count_repeats DeBruijn.walk_nothing word64 (2 + 1)
                (fst next) (snd next)
                (DeBruijn.node "CCGAT") (DeBruijn.node "CCGCT"))
      [(DeBruijn.node "CGATA", DeBruijn.node "CGCTA");
       (DeBruijn.node "CGATT", DeBruijn.node "CGCTT")]
      DeBruijn.init.
Proof.
  exact (expand_explores_every_pair
           g_wide (options 2 Traversal.NONE) DeBruijn.tables
           DeBruijn.count_repeats (list Node) DeBruijn.walk_nothing word64 2
           (DeBruijn.node "CCGAT") (DeBruijn.node "CCGCT")
           (DeBruijn.node "ACCGA") (DeBruijn.node "ACCGC") DeBruijn.init
           ltac:(discriminate) ltac:(discriminate) ltac:(split; [lia | reflexivity])).
Defined.

(** X3, witness: the search on [g_snp] without traversal. *)
Lemma search_completes_witness :
  (exists s1, start g_snp (options 0 Traversal.NONE) DeBruijn.tables
                    DeBruijn.count_repeats DeBruijn.walk_nothing word64
                    (DeBruijn.node "ACCGA") DeBruijn.init = ret s1
              /\ four_counters s1)
  /\ (exists s2, operator_call g_snp (options 0 Traversal.NONE) DeBruijn.tables
                    DeBruijn.count_repeats DeBruijn.walk_nothing word64
                    (DeBruijn.node "ACCGA") DeBruijn.init = ret s2
                 /\ four_counters s2).
Proof.
  apply (search_without_traversal_completes
           g_snp (options 0 Traversal.NONE) DeBruijn.tables DeBruijn.count_repeats
           (list Node) DeBruijn.walk_nothing word64 (DeBruijn.node "ACCGA")
           DeBruijn.init).
  - reflexivity.
  - vm_compute. discriminate.
  - intro n. apply dbg_renders_k.
  - reflexivity.
Defined.

(** X4, witness: [finish] on [flanked_bubble] from empty statistics. *)
Lemma finish_inserts_witness :
  exists b' st',
    finish g_flanked (options 0 Traversal.UNITIG) DeBruijn.tables word64
           flanked_bubble DeBruijn.empty_stats = ret (b', st')
    /\ _outputBank st' = [seq1 b'; seq2 b']
    /\ index b' = 1.
Proof.
  destruct (finish_inserts_both_paths
              g_flanked (options 0 Traversal.UNITIG) DeBruijn.tables word64
              flanked_bubble DeBruijn.empty_stats
              ltac:(vm_compute; discriminate)
              (fun n _ => dbg_renders_k _ _ n)
              ltac:(vm_compute; split; [discriminate | reflexivity]))
    as (b' & st' & r1 & r2 & F & B & I & _).
  exists b', st'. split; [exact F | split; [exact B | exact I]].
Defined.

(** X5, witness: the code 3 of [flanked_bubble] is outside an array of
    two counters and inside the array of four. *)
Lemma finish_range_witness :
  finish g_flanked (options 0 Traversal.UNITIG) DeBruijn.tables word64
         flanked_bubble short_stats = fail OutOfBounds
  /\ exists r, finish g_flanked (options 0 Traversal.UNITIG) DeBruijn.tables word64
                      flanked_bubble DeBruijn.empty_stats = ret r.
Proof.
  split.
  - apply (proj2 (finish_needs_counter_in_range
                    g_flanked (options 0 Traversal.UNITIG) DeBruijn.tables word64
                    flanked_bubble short_stats
                    ltac:(vm_compute; discriminate)
                    (fun n _ => dbg_renders_k _ _ n))).
    vm_compute. intros [_ H]. discriminate H.
  - apply (proj1 (finish_needs_counter_in_range
                    g_flanked (options 0 Traversal.UNITIG) DeBruijn.tables word64
                    flanked_bubble DeBruijn.empty_stats
                    ltac:(vm_compute; discriminate)
                    (fun n _ => dbg_renders_k _ _ n))).
    vm_compute. split; [discriminate | reflexivity].
Defined.


(** X7, witness: [operator()] on the first node of [g_snp], from
    counters all zero. *)
Lemma operator_call_counters_witness :
  counters_agree_mod word64 (stats snp_visited)
  /\ nb_bubbles (stats snp_visited) = 1
  /\ List.length (_outputBank (stats snp_visited)) = 2%nat.
Proof.
  destruct (operator_call_keeps_counters
              g_snp (options 0 Traversal.NONE) DeBruijn.tables
              DeBruijn.count_repeats (list Node) DeBruijn.walk_nothing word64
              (DeBruijn.node "ACCGA") DeBruijn.init snp_visited
              ltac:(vm_compute; reflexivity)) as (C & _).
  split; [| split; reflexivity].
  apply C. split; reflexivity.
Defined.


(** X9, witness: the bubble emitted on [g_snp] under policy 0. *)
Lemma emitted_walks_witness :
  Forall (emission_walk g_snp (options 0 Traversal.NONE) (DeBruijn.node "ACCGA"))
         (snd snp_result)
  /\ (authorised_branching (options 0 Traversal.NONE) = 0 ->
      forall e w, In e (snd snp_result) ->
                  em_path1 e = map fst w -> em_path2 e = map snd w ->
                  never_branches g_snp w).
Proof.
  apply (emitted_paths_are_gated_walks
           g_snp (options 0 Traversal.NONE) DeBruijn.tables DeBruijn.count_repeats
           (list Node) DeBruijn.walk_nothing word64 (DeBruijn.node "ACCGA")
           DeBruijn.init (fst snp_result) (snd snp_result)).
  vm_compute. reflexivity.
Defined.

(** X10, witness: the bubble emitted on [g_snp]. *)
Lemma emitted_filter_witness :
  Forall (fun e =>
            score (em_bubble e)
            = DeBruijn.count_repeats (fst (filter_paths g_snp (em_bubble e)))
                                     (snd (filter_paths g_snp (em_bubble e)))
            /\ (score (em_bubble e) < threshold (options 0 Traversal.NONE)
                \/ low (options 0 Traversal.NONE) = true)
            /\ where_to_extend (em_bubble e) = presence_code (em_bubble e))
         (snd snp_result).
Proof.
  apply (emitted_bubbles_pass_the_filter
           g_snp (options 0 Traversal.NONE) DeBruijn.tables DeBruijn.count_repeats
           (list Node) DeBruijn.walk_nothing word64 (DeBruijn.node "ACCGA")
           DeBruijn.init (fst snp_result) (snd snp_result)).
  vm_compute. reflexivity.
Defined.

(** X11, witness: the sequences emitted on [g_snp] without traversal
    have no closure and 9 characters. *)
Lemma core_sequences_witness :
  Forall (fun e => closureLeft (em_bubble e) = BAD
                   /\ closureRight (em_bubble e) = BAD
                   /\ rendered_length g_snp (em_bubble e) = 9)
         (snd snp_result).
Proof.
  destruct (sequences_without_traversal_are_the_core
              g_snp (options 0 Traversal.NONE) DeBruijn.tables
              DeBruijn.count_repeats (list Node) DeBruijn.walk_nothing word64
              (DeBruijn.node "ACCGA") DeBruijn.init (fst snp_result)
              (snd snp_result) eq_refl ltac:(vm_compute; discriminate)
              (dbg_renders_k _ _) eq_refl eq_refl
              ltac:(vm_compute; reflexivity)) as [F _].
  eapply Forall_impl; [| exact F].
  intros e (A & B & _ & C & _). split; [exact A | split; [exact B | exact C]].
Defined.
